(** * SmartGridS: the balancing engine of [Smartgridsimulator.cpp]

    A shallow embedding of [SmartGrid::GridManager] and of the classes it
    owns ([Breaker], [PowerSource]/[SolarSource], [Load]), followed by the
    properties of the cycle procedure [GridManager::simulate] and of the
    operator commands.

    Modelling conventions.
    - [float] quantities (kW) are kept abstract: the engine only adds,
      subtracts and compares them, so a theorem stated over the
      interface [FloatOps] holds for whatever arithmetic it is
      instantiated with, IEEE binary32 included.  Concrete runs use binary32 on integer values,
      written as integers of [Z] with the rounding of binary32
      ([round32]); below 2^24 in magnitude that arithmetic is exact.
    - [std::sort] is specified by the contract the C++ standard gives it
      (the result is a permutation of the input, ordered with respect to
      the comparator); the order of equivalent elements is not part of
      that contract.  Concrete runs use a stable sort ([keeping_sort]) or
      the sort of GCC's library ([libstdcxx]); on at most sixteen
      elements the two agree.
    - [Load*] pointers into the [loads] vector are indices into the list.
    - [std::map::operator[]] default-constructs a missing entry; this is
      written out in [br_touch].
    - Indexing a vector out of range, advancing a set iterator out of
      range and reading through an erased iterator have no defined
      behaviour in C++: such calls yield [Undefined].
    - Console output: what a cycle prints is kept as the structured
      [Report]; the labels of the fault menu and the lines of
      [showBreakers] are kept as strings.
    - [std::rand()] is a sequence of values handed to each cycle;
      [std::stoi] is written out, exceptions included. *)

From Stdlib Require Import ZArith Permutation Sorted Ascii.
From stdpp Require Import base gmap sets list strings sorting.

Local Open Scope Z_scope.

(** ** Arithmetic on [float] *)

Class FloatOps (F : Type) := {
  f_zero : F;                 (* the literal 0 *)
  f_add : F -> F -> F;        (* a + b *)
  f_sub : F -> F -> F;        (* a - b *)
  f_lt : F -> F -> bool;      (* a < b *)
  f_ge : F -> F -> bool;      (* a >= b *)
  f_of_int : Z -> F           (* int to float conversion *)
}.

(** binary32 on the integers.  A [float] that holds an integer is
    written as that integer.  Up to 2^24 in magnitude every integer is a
    [float]; beyond, a [float] has 24 significant bits, and a sum, a
    difference or a converted [int] is rounded to the nearest [float],
    ties to the even significand.  Fractions, infinities and NaN are no
    values of this instance, and results beyond the largest finite
    [float] (about 3.4e38) are outside it. *)
Definition round32 (z : Z) : Z :=
  let m := Z.abs z in
  if m <? 2 ^ 24 then z
  else
    let e := Z.log2 m - 23 in
    let q := m / 2 ^ e in
    let r := m mod 2 ^ e in
    let half := 2 ^ (e - 1) in
    let q' := if r <? half then q
              else if half <? r then q + 1
              else if Z.even q then q else q + 1 in
    Z.sgn z * (q' * 2 ^ e).

#[export] Instance Z_FloatOps : FloatOps Z := {|
  f_zero := 0;
  f_add := fun a b => round32 (a + b);
  f_sub := fun a b => round32 (a - b);
  f_lt := Z.ltb;
  f_ge := Z.geb;
  f_of_int := round32
|}.

(** ** [std::sort] *)

(** The requirement the standard puts on a comparator. *)
Record StrictWeakOrder {A} (comp : A -> A -> bool) : Prop := {
  swo_irrefl : forall x, comp x x = false;
  swo_trans : forall x y z, comp x y = true -> comp y z = true -> comp x z = true;
  swo_incomp : forall x y z, comp x y = false -> comp y z = false -> comp x z = false
}.

(** [x] may stand before [y] in a range sorted by [comp]. *)
Definition not_after {A} (comp : A -> A -> bool) (x y : A) : Prop :=
  comp y x = false.

Class StdSort := {
  std_sort : forall {A : Type}, (A -> A -> bool) -> list A -> list A;
  std_sort_perm : forall A (comp : A -> A -> bool) l,
    StrictWeakOrder comp -> std_sort comp l ≡ₚ l;
  std_sort_sorted : forall A (comp : A -> A -> bool) l,
    StrictWeakOrder comp -> StronglySorted (not_after comp) (std_sort comp l)
}.

(** ** [class Breaker] *)

Module Breaker.
Record t := mk { id : string; tripped : bool }.
Definition default : t := mk "unknown" false.
Definition make (i : string) : t := mk i false.
Definition trip (b : t) : t := mk (id b) true.
Definition reset (b : t) : t := mk (id b) false.
Definition isTripped (b : t) : bool := tripped b.
Definition getId (b : t) : string := id b.
End Breaker.

(** ** [class PowerSource] and [class SolarSource] *)

Module Source.
(** The dynamic type of a [PowerComponent*] held by the manager. *)
Inductive kind := PowerSource | SolarSource.

Record t (F : Type) := mk {
  dyn : kind;
  name : string;
  status : bool;
  powerOutput : F;
  renewable : bool
}.
Arguments mk {F}.
Arguments dyn {F}.
Arguments name {F}.
Arguments status {F}.
Arguments powerOutput {F}.
Arguments renewable {F}.

Section Ops.
Context {F : Type} `{FloatOps F}.

(** Constructors: [PowerSource(n, p, r)] and [SolarSource(n)]. *)
Definition new_power (n : string) (p : F) (r : bool) : t F :=
  mk PowerSource n true p r.
Definition new_solar (n : string) : t F :=
  mk SolarSource n true (f_of_int 50) true.

Definition isConnected (s : t F) : bool := status s.
Definition getName (s : t F) : string := name s.
Definition getPowerOutput (s : t F) : F := powerOutput s.

(** The virtual [simulate()].  [draws k] is the value the [k]-th call
    of [std::rand()] within the current cycle returns; the result
    carries the number of calls made so far. *)
Definition simulate (draws : nat -> Z) (k : nat) (s : t F) : t F * nat :=
  match dyn s with
  | PowerSource => (s, k)
  | SolarSource =>
      if status s
      then (mk SolarSource (name s) (status s)
               (f_of_int (20 + Z.rem (draws k) 30)) (renewable s), S k)
      else (s, k)
  end.
End Ops.
End Source.

(** ** [class Load] *)

Module Load.
Record t (F : Type) := mk {
  name : string;
  demand : F;
  connected : bool;
  priority : Z
}.
Arguments mk {F}.
Arguments name {F}.
Arguments demand {F}.
Arguments connected {F}.
Arguments priority {F}.

Section Ops.
Context {F : Type}.
(** [Load(n, d, p)]: a load is connected when constructed. *)
Definition new (n : string) (d : F) (p : Z) : t F := mk n d true p.
Definition getName (l : t F) : string := name l.
Definition getRawDemand (l : t F) : F := demand l.
Definition isConnected (l : t F) : bool := connected l.
Definition getPriority (l : t F) : Z := priority l.
Definition disconnect (l : t F) : t F :=
  mk (name l) (demand l) false (priority l).
Definition reconnect (l : t F) : t F :=
  mk (name l) (demand l) true (priority l).
End Ops.
End Load.

(** ** The breaker registry: [std::map<std::string, Breaker>] *)

Abbreviation BreakerMap := (gmap string Breaker.t).

(** [m[k]] as an lvalue: a missing entry is default-constructed first. *)
Definition br_touch (m : BreakerMap) (k : string) : BreakerMap :=
  match m !! k with
  | Some _ => m
  | None => <[k := Breaker.default]> m
  end.

Definition br_get (m : BreakerMap) (k : string) : Breaker.t :=
  match m !! k with
  | Some b => b
  | None => Breaker.default
  end.

(** [m[k].isTripped()], the value read. *)
Definition is_tripped (m : BreakerMap) (k : string) : bool :=
  Breaker.isTripped (br_get m k).

(** [m[k].trip()] and [m[k].reset()]. *)
Definition br_trip (m : BreakerMap) (k : string) : BreakerMap :=
  <[k := Breaker.trip (br_get m k)]> (br_touch m k).
Definition br_reset (m : BreakerMap) (k : string) : BreakerMap :=
  <[k := Breaker.reset (br_get m k)]> (br_touch m k).

(** [m.emplace(k, Breaker(k))]: nothing happens when [k] is present. *)
Definition br_emplace (m : BreakerMap) (k : string) : BreakerMap :=
  match m !! k with
  | Some _ => m
  | None => <[k := Breaker.make k]> m
  end.

(** ** The fault set: [std::set<std::string>] *)

(** Iteration visits the names in ascending order of [std::string]. *)
Definition fault_order (X : gset string) : list string :=
  merge_sort String.le (elements X).

(** ** Results of operator commands *)

Inductive outcome (A : Type) :=
| Done (a : A)        (* the call returns, leaving this state *)
| Rejected (a : A)    (* an error is reported to the caller; state kept.
                         No command of the engine ends this way. *)
| Undefined.          (* out-of-range access: no defined behaviour *)
Arguments Done {A}.
Arguments Rejected {A}.
Arguments Undefined {A}.

(** ** [class GridManager] *)

Record GridManager (F : Type) := mkGrid {
  sources : list (Source.t F);
  loads : list (Load.t F);
  breakers : BreakerMap;
  faults : gset string
}.
Arguments mkGrid {F}.
Arguments sources {F}.
Arguments loads {F}.
Arguments breakers {F}.
Arguments faults {F}.

(** What one cycle prints, as data. *)
Record Report (F : Type) := mkReport {
  totalPower : F;               (* "[Log] Total Power" *)
  totalDemand : F;               (* "[Log] Total Demand" *)
  trippedLoads : list string;    (* the "[Trip]" lines, in order *)
  reconnectedLoads : list string;(* the "[Reconnect]" lines, in order *)
  activeFaults : list string;    (* the "[Log] Active Fault" lines *)
  finalDemand : F                (* the local [totalDemand] when the cycle
                                    ends; the program never prints it *)
}.
Arguments mkReport {F}.
Arguments totalPower {F}.
Arguments totalDemand {F}.
Arguments trippedLoads {F}.
Arguments reconnectedLoads {F}.
Arguments activeFaults {F}.
Arguments finalDemand {F}.

Section Engine.
Context {F : Type} `{FloatOps F} `{StdSort}.

Definition empty_grid : GridManager F := mkGrid [] [] ∅ ∅.

(** *** The cycle, lines 124-187 *)

(** Lines 128-134: the loop over [sources]. *)
Fixpoint source_pass (draws : nat -> Z) (k : nat) (srcs : list (Source.t F))
    (br : BreakerMap) (P : F) : list (Source.t F) * BreakerMap * F :=
  match srcs with
  | [] => ([], br, P)
  | src :: rest =>
      let br1 := br_touch br (Source.getName src) in
      if is_tripped br (Source.getName src)
      then
        let '(rest', br2, P2) := source_pass draws k rest br1 P in
        (src :: rest', br2, P2)
      else
        let '(src', k') := Source.simulate draws k src in
        let P1 := if Source.isConnected src'
                  then f_add P (Source.getPowerOutput src') else P in
        let '(rest', br2, P2) := source_pass draws k' rest br1 P1 in
        (src' :: rest', br2, P2)
  end.

(** Lines 136-141: the loop over [loads]. *)
Fixpoint load_pass (ls : list (Load.t F)) (br : BreakerMap) (D : F)
    : BreakerMap * F :=
  match ls with
  | [] => (br, D)
  | l :: rest =>
      let br1 := br_touch br (Load.getName l) in
      if is_tripped br (Load.getName l)
      then load_pass rest br1 D
      else load_pass rest br1
             (if Load.isConnected l then f_add D (Load.getRawDemand l) else D)
  end.

(** The priority of the load a pointer refers to. *)
Definition priority_at (ls : list (Load.t F)) (i : nat) : Z :=
  match ls !! i with
  | Some l => Load.getPriority l
  | None => 0
  end.

(** The two comparator lambdas, lines 152-154 and 170-172. *)
Definition shed_comp (ls : list (Load.t F)) (a b : nat) : bool :=
  priority_at ls b <? priority_at ls a.
Definition restore_comp (ls : list (Load.t F)) (a b : nat) : bool :=
  priority_at ls a <? priority_at ls b.

(** Lines 150-151: pointers to the connected loads, in vector order. *)
Fixpoint collect_connected (i : nat) (ls : list (Load.t F)) : list nat :=
  match ls with
  | [] => []
  | l :: rest =>
      if Load.isConnected l
      then i :: collect_connected (S i) rest
      else collect_connected (S i) rest
  end.

(** Lines 149-154: [sortedLoads] after the sort. *)
Definition shed_candidates (ls : list (Load.t F)) : list nat :=
  std_sort (shed_comp ls) (collect_connected 0%nat ls).

(** Lines 156-162: the shedding loop. *)
Fixpoint shed_walk (P : F) (cands : list nat) (ls : list (Load.t F))
    (br : BreakerMap) (D : F)
    : list (Load.t F) * BreakerMap * F * list string :=
  match cands with
  | [] => (ls, br, D, [])
  | i :: rest =>
      match ls !! i with
      | None => shed_walk P rest ls br D  (* a pointer is never dangling *)
      | Some l =>
          let ls1 := <[i := Load.disconnect l]> ls in
          let br1 := br_trip br (Load.getName l) in
          let D1 := f_sub D (Load.getRawDemand l) in
          if f_ge P D1
          then (ls1, br1, D1, [Load.getName l])
          else
            let '(ls2, br2, D2, log) := shed_walk P rest ls1 br1 D1 in
            (ls2, br2, D2, Load.getName l :: log)
      end
  end.

(** Lines 166-169: pointers to the loads that are disconnected and whose
    breaker is not tripped.  The breaker is looked up, and so touched,
    only for a disconnected load. *)
Fixpoint collect_disconnected (i : nat) (ls : list (Load.t F))
    (br : BreakerMap) : list nat * BreakerMap :=
  match ls with
  | [] => ([], br)
  | l :: rest =>
      if Load.isConnected l
      then collect_disconnected (S i) rest br
      else
        let br1 := br_touch br (Load.getName l) in
        let '(ptrs, br2) := collect_disconnected (S i) rest br1 in
        if is_tripped br (Load.getName l) then (ptrs, br2) else (i :: ptrs, br2)
  end.

(** Lines 165-172: [disconnectedLoads] after the sort. *)
Definition restore_candidates (ls : list (Load.t F)) (br : BreakerMap)
    : list nat :=
  std_sort (restore_comp ls) (collect_disconnected 0%nat ls br).1.

(** Lines 174-180: the reconnection loop. *)
Fixpoint restore_walk (P : F) (cands : list nat) (ls : list (Load.t F))
    (D : F) : list (Load.t F) * F * list string :=
  match cands with
  | [] => (ls, D, [])
  | i :: rest =>
      match ls !! i with
      | None => restore_walk P rest ls D
      | Some l =>
          if f_ge P (f_add D (Load.getRawDemand l))
          then
            let '(ls2, D2, log) :=
              restore_walk P rest (<[i := Load.reconnect l]> ls)
                (f_add D (Load.getRawDemand l)) in
            (ls2, D2, Load.getName l :: log)
          else restore_walk P rest ls D
      end
  end.

(** [GridManager::simulate]. *)
Definition simulate (draws : nat -> Z) (g : GridManager F)
    : GridManager F * Report F :=
  let '(srcs1, br1, P) :=
    source_pass draws 0%nat (sources g) (breakers g) f_zero in
  let '(br2, D) := load_pass (loads g) br1 f_zero in
  if f_lt P D
  then
    let '(ls3, br3, D3, log) :=
      shed_walk P (shed_candidates (loads g)) (loads g) br2 D in
    (mkGrid srcs1 ls3 br3 (faults g),
     mkReport P D log [] (fault_order (faults g)) D3)
  else
    let br3 := (collect_disconnected 0%nat (loads g) br2).2 in
    let '(ls3, D3, log) :=
      restore_walk P (restore_candidates (loads g) br2) (loads g) D in
    (mkGrid srcs1 ls3 br3 (faults g),
     mkReport P D [] log (fault_order (faults g)) D3).

(** *** Registration, lines 112-121 *)

(** [sources.push_back(src); breakers.emplace(...)], before the cycle. *)
Definition register_source (g : GridManager F) (src : Source.t F)
    : GridManager F :=
  mkGrid (sources g ++ [src]) (loads g)
         (br_emplace (breakers g) (Source.getName src)) (faults g).

Definition addSource (draws : nat -> Z) (g : GridManager F)
    (src : Source.t F) : GridManager F * Report F :=
  simulate draws (register_source g src).

Definition addLoad (g : GridManager F) (l : Load.t F) : GridManager F :=
  mkGrid (sources g) (loads g ++ [l])
         (br_emplace (breakers g) (Load.getName l)) (faults g).

(** *** Manual fault controls, lines 192-221 *)

(** The token read by [injectManualFault], after [std::stoi]:
    ["L<i>"], ["S<i>"], or anything else. *)
Inductive selector := SelLoad (i : Z) | SelSource (i : Z) | SelOther.

(** [v[i]] for an [int] index converted to [size_t]. *)
Definition vec_at {A} (v : list A) (i : Z) : option A :=
  if (0 <=? i) && (i <? Z.of_nat (length v)) then v !! Z.to_nat i else None.

Definition inject_at (g : GridManager F) (n : string) : GridManager F :=
  mkGrid (sources g) (loads g) (br_trip (breakers g) n) (faults g ∪ {[n]}).

(** A token that starts with neither [L] nor [S] leaves [name] empty,
    and the empty name is faulted. *)
Definition injectManualFault (g : GridManager F) (sel : selector)
    : outcome (GridManager F) :=
  match sel with
  | SelLoad i =>
      match vec_at (loads g) i with
      | Some l => Done (inject_at g (Load.getName l))
      | None => Undefined
      end
  | SelSource i =>
      match vec_at (sources g) i with
      | Some s => Done (inject_at g (Source.getName s))
      | None => Undefined
      end
  | SelOther => Done (inject_at g "")
  end.

(** Lines 215-218: reset the breaker of the chosen fault and erase it. *)
Definition clear_fault (g : GridManager F) (n : string) : GridManager F :=
  mkGrid (sources g) (loads g) (br_reset (breakers g) n) (faults g ∖ {[n]}).

(** The statements of [resolveManualFault] that act on the engine, lines
    215-218 and 220: [std::advance(it, index)] from [begin()] must land on
    an element; the breaker of that name is reset, the element is erased,
    and a cycle runs. *)
Definition resolveManualFault_steps (draws : nat -> Z) (g : GridManager F)
    (index : Z) : outcome (GridManager F * Report F) :=
  match vec_at (fault_order (faults g)) index with
  | Some n => Done (simulate draws (clear_fault g n))
  | None => Undefined
  end.

(** [*it] once [faults.erase(it)] has run: the iterator is invalidated
    and no value is defined for the read. *)
Definition read_erased (n : string) : option string := None.

(** The call as it is written.  Between the erase of line 218 and the
    cycle of line 220, line 219 prints [*it]; that read has no defined
    behaviour, so no call of [resolveManualFault] has one. *)
Definition resolveManualFault (draws : nat -> Z) (g : GridManager F)
    (index : Z) : outcome (GridManager F * Report F) :=
  match vec_at (fault_order (faults g)) index with
  | Some n =>
      let g1 := clear_fault g n in                (* lines 217-218 *)
      match read_erased n with                    (* line 219 *)
      | Some _ => Done (simulate draws g1)        (* line 220 *)
      | None => Undefined
      end
  | None => Undefined                             (* line 216 *)
  end.

(** *** Manual disconnect and reconnect, lines 223-224 *)

Definition disconnectLoad (g : GridManager F) (index : nat)
    : outcome (GridManager F) :=
  match loads g !! index with
  | Some l =>
      Done (mkGrid (sources g) (<[index := Load.disconnect l]> (loads g))
              (breakers g) (faults g))
  | None => Undefined
  end.

Definition reconnectLoad (g : GridManager F) (index : nat)
    : outcome (GridManager F) :=
  match loads g !! index with
  | Some l =>
      Done (mkGrid (sources g) (<[index := Load.reconnect l]> (loads g))
              (breakers g) (faults g))
  | None => Undefined
  end.

End Engine.

(** ** The operator's menu, lines 271-307 of [main] *)

Section Commands.
Context {F : Type} `{FloatOps F} `{StdSort}.

Inductive command :=
| RunCycle (draws : nat -> Z)                         (* choice 1 *)
| InjectFault (sel : selector)                        (* choice 2 *)
| ResolveFault (draws : nat -> Z) (index : Z)         (* choice 3 *)
| DisconnectLoad (index : nat)                        (* choice 4 *)
| ReconnectLoad (index : nat)                         (* choice 5 *)
| AddLoad (l : Load.t F)                              (* choice 7 *)
| AddSource (draws : nat -> Z) (src : Source.t F).    (* choice 8 *)

Definition is_resolve (c : command) : bool :=
  match c with ResolveFault _ _ => true | _ => false end.

Definition outcome_map {A B} (f : A -> B) (o : outcome A) : outcome B :=
  match o with
  | Done a => Done (f a)
  | Rejected a => Rejected (f a)
  | Undefined => Undefined
  end.

(** One menu choice.  Choice 3 is followed through
    [resolveManualFault_steps]: the call as written has no defined
    behaviour (line 219), and a build in which the stale read does no
    harm goes on like this.  What is proved of every [run] that ends in
    [Done] therefore holds of every run with a defined behaviour, and of
    the resolutions of such a build as well. *)
Definition run (g : GridManager F) (c : command) : outcome (GridManager F) :=
  match c with
  | RunCycle draws => Done (simulate draws g).1
  | InjectFault sel => injectManualFault g sel
  | ResolveFault draws index =>
      outcome_map fst (resolveManualFault_steps draws g index)
  | DisconnectLoad index => disconnectLoad g index
  | ReconnectLoad index => reconnectLoad g index
  | AddLoad l => Done (addLoad g l)
  | AddSource draws src => Done (addSource draws g src).1
  end.

(** The states these runs pass through; every state a run with defined
    behaviour can be in is among them.  ([main] builds its loads and
    sources with the constructors; a command may carry any.) *)
Inductive reachable : GridManager F -> Prop :=
| reach_start : reachable empty_grid
| reach_step g c g' : reachable g -> run g c = Done g' -> reachable g'.
End Commands.

(** ** The text the operator types and reads

    [injectManualFault] reads a token and converts its tail with
    [std::stoi] (lines 198-202); the menus print indices with
    [operator<<] (lines 194-197, 276-277); [showBreakers] prints the
    registry (lines 225-229). *)

(** The decimal digits [operator<<] prints for a [size_t]. *)
Definition digit_char (d : N) : Ascii.ascii := Ascii.ascii_of_N (48 + d).

Fixpoint decimal_go (fuel : nat) (n : N) (acc : string) : string :=
  match fuel with
  | O => acc
  | S fuel' =>
      let acc' := String (digit_char (n mod 10)) acc in
      if (n / 10 =? 0)%N then acc' else decimal_go fuel' (n / 10) acc'
  end.

Definition decimal (n : nat) : string := decimal_go (S n) (N.of_nat n) "".

(** [strtol] in base 10, as [std::stoi] calls it: white space is skipped,
    one sign is accepted, and the digits that follow are read up to the
    first character that is none. *)
Definition is_space (c : Ascii.ascii) : bool :=
  let n := Ascii.N_of_ascii c in ((9 <=? n) && (n <=? 13))%N || (n =? 32)%N.

Fixpoint skip_spaces (s : string) : string :=
  match s with
  | String c s' => if is_space c then skip_spaces s' else s
  | EmptyString => s
  end.

Definition digit_of (c : Ascii.ascii) : option Z :=
  let n := Ascii.N_of_ascii c in
  if ((48 <=? n) && (n <=? 57))%N then Some (Z.of_N (n - 48)) else None.

(** The value of the leading digits, [None] when there is no digit. *)
Fixpoint read_digits (s : string) (acc : Z) (seen : bool) : option Z :=
  match s with
  | String c s' =>
      match digit_of c with
      | Some d => read_digits s' (10 * acc + d) true
      | None => if seen then Some acc else None
      end
  | EmptyString => if seen then Some acc else None
  end.

(** The exceptions [std::stoi] throws. *)
Inductive thrown := invalid_argument | out_of_range.

Definition INT_MIN : Z := - 2 ^ 31.
Definition INT_MAX : Z := 2 ^ 31 - 1.

(** [std::stoi(s)]: no digit is an [invalid_argument], a value that does
    not fit [int] is [out_of_range]. *)
Definition stoi (s : string) : Z + thrown :=
  let s1 := skip_spaces s in
  let '(neg, s2) :=
    match s1 with
    | String c r =>
        if Ascii.eqb c "-"%char then (true, r)
        else if Ascii.eqb c "+"%char then (false, r) else (false, s1)
    | EmptyString => (false, s1)
    end in
  match read_digits s2 0 false with
  | None => inr invalid_argument
  | Some v =>
      let r := if neg then - v else v in
      if (INT_MIN <=? r) && (r <=? INT_MAX) then inl r else inr out_of_range
  end.

(** A call either returns, with the outcomes above, or leaves by an
    exception, which nothing in the program catches. *)
Inductive call (A : Type) :=
| Returns (o : outcome A)
| Throws (e : thrown).
Arguments Returns {A}.
Arguments Throws {A}.

Section Text.
Context {F : Type} `{FloatOps F} `{StdSort}.

(** Lines 200-202: [input[0]] is ['L'], ['S'] or something else; of an
    empty [input] it is the terminating zero. *)
Definition read_selector (input : string) : selector + thrown :=
  match input with
  | String c rest =>
      if Ascii.eqb c "L"%char then
        match stoi rest with inl i => inl (SelLoad i) | inr e => inr e end
      else if Ascii.eqb c "S"%char then
        match stoi rest with inl i => inl (SelSource i) | inr e => inr e end
      else inl SelOther
  | EmptyString => inl SelOther
  end.

(** [injectManualFault] from the token it reads. *)
Definition injectManualFault_input (g : GridManager F) (input : string)
    : call (GridManager F) :=
  match read_selector input with
  | inl sel => Returns (injectManualFault g sel)
  | inr e => Throws e
  end.

(** The labels lines 194-197 print before the loads and the sources. *)
Definition load_labels (g : GridManager F) : list string :=
  imap (fun i (l : Load.t F) => "L" +:+ decimal i) (loads g).
Definition source_labels (g : GridManager F) : list string :=
  imap (fun i (s : Source.t F) => "S" +:+ decimal i) (sources g).

(** Iteration over the registry visits the keys in ascending order. *)
Definition breaker_order (m : BreakerMap) : list (string * Breaker.t) :=
  merge_sort (fun p q => String.le p.1 q.1) (map_to_list m).

(** [showBreakers]: one line per entry. *)
Definition showBreakers (g : GridManager F) : list string :=
  (fun p => p.1 +:+ ": " +:+ (if Breaker.isTripped p.2 then "TRIPPED" else "OK"))
    <$> breaker_order (breakers g).

(** *** [main]: the start-up, lines 256-261, and the loop, lines 263-310 *)

(** Each [addSource] runs a cycle, with its own values of [std::rand()]. *)
Definition main_setup (d1 d2 : nat -> Z) : GridManager F :=
  let g1 := (addSource d1 empty_grid (Source.new_solar "SolarFarm-A")).1 in
  let g2 := (addSource d2 g1
               (Source.new_power "HydroStation" (f_of_int 60) false)).1 in
  addLoad
    (addLoad (addLoad g2 (Load.new "Factory-A" (f_of_int 30) 2))
       (Load.new "House-B" (f_of_int 15) 1))
    (Load.new "Shop-C" (f_of_int 10) 3).

(** Choice 8, lines 299-306: the source built from what was read. *)
Definition menu_source (name : string) (power : F) (type : Z) : Source.t F :=
  if type =? 1 then Source.new_solar name
  else Source.new_power name power ((type =? 2) || (type =? 3)).

(** The loop, as long as every command has a defined behaviour. *)
Fixpoint run_all (g : GridManager F) (cs : list command)
    : outcome (GridManager F) :=
  match cs with
  | [] => Done g
  | c :: cs' =>
      match run g c with
      | Done g' => run_all g' cs'
      | o => o
      end
  end.

(** Choice 1, again and again. *)
Definition cycles (ds : list (nat -> Z)) (g : GridManager F) : GridManager F :=
  foldl (fun g d => (simulate d g).1) g ds.
End Text.

(** ** Implementations of [std::sort]

    Two sorts that meet the contract [StdSort].  The first is a stable
    sort: an insertion sort that puts an element before the elements
    equivalent to it that followed it in the input, and so keeps ties in
    input order.  The second is the [std::sort] of GCC's library. *)

Fixpoint insert_before_ties {A} (comp : A -> A -> bool) (x : A) (l : list A)
    : list A :=
  match l with
  | [] => [x]
  | y :: l' => if comp y x then y :: insert_before_ties comp x l' else x :: l
  end.

Definition sort_keeping_ties {A} (comp : A -> A -> bool) (l : list A) : list A :=
  foldr (insert_before_ties comp) [] l.

(** The two halves of the contract, for a sort that folds [ins]; the
    second leaves the case of one insertion into a sorted list. *)
Local Ltac insertion_perm ins :=
  let A := fresh "A" in
  intros A comp l _;
  unfold sort_keeping_ties;
  induction l as [| x l IH]; simpl; [done |];
  rewrite <- IH at 2;
  generalize (foldr (ins A comp) [] l); intros s;
  induction s as [| y s IHs]; simpl; [done |];
  destruct (comp y x), (comp x y); rewrite ?IHs; done || apply Permutation_swap.

Local Ltac insertion_sorted ins :=
  let A := fresh "A" in
  intros A comp l [Hirr Htr Hinc];
  assert (Hasym : forall a b, comp a b = true -> comp b a = false)
    by (intros a b Hab; destruct (comp b a) eqn:Hba; [| done];
        by rewrite <- (Hirr a), (Htr a b a Hab Hba));
  assert (Hall : forall (Q : A -> Prop) x s,
            Q x -> Forall Q s -> Forall Q (ins A comp x s))
    by (intros Q x s Hx Hs; induction Hs as [| y s Hy Hs IHs]; simpl;
        [by repeat constructor |];
        destruct (comp y x), (comp x y); repeat constructor; done);
  unfold sort_keeping_ties;
  induction l as [| x l IH]; simpl; [constructor |];
  revert IH; generalize (foldr (ins A comp) [] l); intros s Hs;
  induction Hs as [| y s Hs IHs Hy]; simpl; [by repeat constructor |];
  unfold not_after in *.

#[export] Instance keeping_sort : StdSort.
Proof.
  refine {| std_sort := @sort_keeping_ties |}.
  - insertion_perm (@insert_before_ties).
  - insertion_sorted (@insert_before_ties).
    destruct (comp y x) eqn:Hyx.
    + constructor; [done |]. apply Hall; [by apply Hasym | done].
    + constructor; [by constructor |]. constructor; [done |].
      eapply Forall_impl; [exact Hy | intros z Hz; simpl in *; eauto].
Defined.

(** *** [std::sort] as GCC's library implements it

    The introsort of libstdc++ ([bits/stl_algo.h], [bits/stl_heap.h]):
    quicksort with a median-of-three pivot on ranges of more than 16
    elements, heapsort when the recursion gets deeper than twice the
    logarithm of the length, and one insertion sort over the whole
    range at the end.  The vector is a list, an iterator is an index
    into it.  The library's loops rely on their ranges and never test
    them; a list access is total, so where an index could only be out
    of range if the library were wrong the loop stops. *)

Local Open Scope nat_scope.

Section Libstdcxx.
Context {A : Type} (comp : A -> A -> bool).
Implicit Types (a : list A).

(** [comp(first + i, first + j)] on iterators. *)
Definition comp_at a (i j : nat) : bool :=
  match a !! i, a !! j with
  | Some x, Some y => comp x y
  | _, _ => false
  end.

(** [std::iter_swap]. *)
Definition iter_swap a (i j : nat) : list A :=
  match a !! i, a !! j with
  | Some x, Some y => <[j := x]> (<[i := y]> a)
  | _, _ => a
  end.

Definition move_median_to_first a (result x y z : nat) : list A :=
  if comp_at a x y then
    if comp_at a y z then iter_swap a result y
    else if comp_at a x z then iter_swap a result z
    else iter_swap a result x
  else if comp_at a x z then iter_swap a result x
  else if comp_at a y z then iter_swap a result z
  else iter_swap a result y.

(** [while (comp(first, pivot)) ++first;] *)
Fixpoint scan_up (fuel : nat) a (first pivot : nat) : nat :=
  match fuel with
  | O => first
  | S fuel' =>
      if comp_at a first pivot then scan_up fuel' a (S first) pivot else first
  end.

(** [while (comp(pivot, last)) --last;] *)
Fixpoint scan_down a (last pivot : nat) : nat :=
  match last with
  | O => O
  | S last' =>
      if comp_at a pivot last then scan_down a last' pivot else last
  end.

Fixpoint unguarded_partition (fuel : nat) a (first last pivot : nat)
    : list A * nat :=
  match fuel with
  | O => (a, first)
  | S fuel' =>
      let first1 := scan_up (length a) a first pivot in
      let last1 := scan_down a (last - 1) pivot in
      if first1 <? last1
      then unguarded_partition fuel' (iter_swap a first1 last1) (S first1) last1
             pivot
      else (a, first1)
  end.

Definition unguarded_partition_pivot a (first last : nat) : list A * nat :=
  let mid := first + (last - first) / 2 in
  let a1 := move_median_to_first a first (first + 1) mid (last - 1) in
  unguarded_partition (length a) a1 (first + 1) last first.

(** The heap ([bits/stl_heap.h]): [value] has been moved out of the
    array and the position [first + hole] is free to be written. *)

Fixpoint push_heap (fuel : nat) a (first hole top : nat) (value : A) : list A :=
  match fuel with
  | O => <[first + hole := value]> a
  | S fuel' =>
      let parent := (hole - 1) / 2 in
      if top <? hole then
        match a !! (first + parent) with
        | Some p =>
            if comp p value
            then push_heap fuel' (<[first + hole := p]> a) first parent top value
            else <[first + hole := value]> a
        | None => <[first + hole := value]> a
        end
      else <[first + hole := value]> a
  end.

(** The first loop of [__adjust_heap]; [secondChild] equals [holeIndex]
    whenever the loop condition is tested. *)
Fixpoint sift_down (fuel : nat) a (first hole len : nat) : list A * nat :=
  match fuel with
  | O => (a, hole)
  | S fuel' =>
      if hole <? (len - 1) / 2 then
        let second := 2 * (hole + 1) in
        let child :=
          if comp_at a (first + second) (first + (second - 1))
          then second - 1 else second in
        match a !! (first + child) with
        | Some x => sift_down fuel' (<[first + hole := x]> a) first child len
        | None => (a, hole)
        end
      else (a, hole)
  end.

Definition adjust_heap a (first hole len : nat) (value : A) : list A :=
  let '(a1, hole1) := sift_down len a first hole len in
  let '(a2, hole2) :=
    if Nat.even len && (hole1 =? (len - 2) / 2) then
      let second := 2 * (hole1 + 1) in
      match a1 !! (first + (second - 1)) with
      | Some x => (<[first + hole1 := x]> a1, second - 1)
      | None => (a1, hole1)
      end
    else (a1, hole1) in
  push_heap len a2 first hole2 hole value.

Definition pop_heap a (first last result : nat) : list A :=
  match a !! result, a !! first with
  | Some value, Some top =>
      adjust_heap (<[result := top]> a) first 0 (last - first) value
  | _, _ => a
  end.

Fixpoint make_heap_from a (first len parent : nat) : list A :=
  let a1 :=
    match a !! (first + parent) with
    | Some value => adjust_heap a first parent len value
    | None => a
    end in
  match parent with
  | O => a1
  | S parent' => make_heap_from a1 first len parent'
  end.

Definition make_heap a (first last : nat) : list A :=
  let len := last - first in
  if len <? 2 then a else make_heap_from a first len ((len - 2) / 2).

Fixpoint sort_heap (fuel : nat) a (first last : nat) : list A :=
  match fuel with
  | O => a
  | S fuel' =>
      if 1 <? last - first
      then sort_heap fuel' (pop_heap a first (last - 1) (last - 1)) first (last - 1)
      else a
  end.

(** [__partial_sort(first, last, last)]: the selection loop of
    [__heap_select] runs over the empty range [[last, last)]. *)
Definition partial_sort a (first last : nat) : list A :=
  sort_heap (last - first) (make_heap a first last) first last.

(** The recursion and the final pass. *)

Definition S_threshold : nat := 16.

Fixpoint introsort_loop a (first last depth_limit : nat) : list A :=
  if S_threshold <? last - first then
    match depth_limit with
    | O => partial_sort a first last
    | S depth_limit' =>
        let '(a1, cut) := unguarded_partition_pivot a first last in
        let a2 := introsort_loop a1 cut last depth_limit' in
        introsort_loop a2 first cut depth_limit'
    end
  else a.

(** [__unguarded_linear_insert]: [val] is put before the elements at the
    end of the sorted range that it precedes.  The sorted range is kept
    with its last element first. *)
Fixpoint unguarded_linear_insert (val : A) (sorted : list A) : list A :=
  match sorted with
  | next :: sorted' =>
      if comp val next then next :: unguarded_linear_insert val sorted'
      else val :: sorted
  | [] => [val]
  end.

(** One round of [__insertion_sort]: an element that precedes the first
    one goes to the front. *)
Definition insertion_step (sorted : list A) (val : A) : list A :=
  match last sorted with
  | Some front =>
      if comp val front then sorted ++ [val]
      else unguarded_linear_insert val sorted
  | None => [val]
  end.

Definition insertion_sort (sorted : list A) (l : list A) : list A :=
  foldl insertion_step sorted l.

Definition unguarded_insertion_sort (sorted : list A) (l : list A) : list A :=
  foldl (fun s val => unguarded_linear_insert val s) sorted l.

Definition final_insertion_sort a : list A :=
  if S_threshold <? length a
  then rev (unguarded_insertion_sort
              (insertion_sort [] (take S_threshold a)) (drop S_threshold a))
  else rev (insertion_sort [] a).

(** [std::sort(a.begin(), a.end(), comp)]. *)
Definition libstdcxx_sort a : list A :=
  match a with
  | [] => []
  | _ =>
      final_insertion_sort
        (introsort_loop a 0 (length a) (2 * Nat.log2 (length a)))
  end.
End Libstdcxx.

(** The library's sort meets the contract. *)

Section LibstdcxxFacts.
Context {A : Type} (comp : A -> A -> bool).
Implicit Types (a : list A).

Lemma insert_swap_perm a (i j : nat) (y z : A) :
  a !! i = Some y -> a !! j = Some z -> <[j := y]> (<[i := z]> a) ≡ₚ a.
Proof.
  revert i j. induction a as [| x a IH]; intros i j Hi Hj; [done |].
  assert (Hhead : forall (b : list A) (k : nat) (u w : A),
            b !! k = Some w -> w :: <[k := u]> b ≡ₚ u :: b).
  { clear. induction b as [| v b IHb]; intros k u w Hk; [done |].
    destruct k as [| k]; simpl in *.
    - injection Hk as ->. apply Permutation_swap.
    - etrans; [apply Permutation_swap |].
      etrans; [apply Permutation_skip, (IHb k u w Hk) |].
      apply Permutation_swap. }
  destruct i as [| i], j as [| j]; simpl in *.
  - injection Hi as ->. by injection Hj as ->.
  - injection Hi as ->. by apply Hhead.
  - injection Hj as ->. by apply Hhead.
  - f_equiv. by apply IH.
Qed.

Lemma iter_swap_perm a i j : iter_swap a i j ≡ₚ a.
Proof.
  unfold iter_swap.
  destruct (a !! i) as [x |] eqn:Hi; [| done].
  destruct (a !! j) as [y |] eqn:Hj; [| done].
  by apply insert_swap_perm.
Qed.

Lemma iter_swap_length a i j : length (iter_swap a i j) = length a.
Proof. apply Permutation_length, iter_swap_perm. Qed.

Lemma move_median_to_first_perm a r x y z :
  move_median_to_first comp a r x y z ≡ₚ a.
Proof.
  unfold move_median_to_first.
  repeat match goal with |- context [if ?c then _ else _] => destruct c end;
    apply iter_swap_perm.
Qed.

Lemma unguarded_partition_perm fuel a first last pivot :
  (unguarded_partition comp fuel a first last pivot).1 ≡ₚ a.
Proof.
  revert a first last. induction fuel as [| fuel IH]; intros a first last;
    simpl; [done |].
  destruct (_ <? _); [| done]. rewrite IH. apply iter_swap_perm.
Qed.

Lemma unguarded_partition_pivot_perm a first last :
  (unguarded_partition_pivot comp a first last).1 ≡ₚ a.
Proof.
  unfold unguarded_partition_pivot.
  rewrite unguarded_partition_perm. apply move_median_to_first_perm.
Qed.

(** Moving the free position from [h] to [s]. *)
Lemma move_hole_perm a (h s : nat) (x v : A) :
  a !! s = Some x -> is_Some (a !! h) ->
  <[s := v]> (<[h := x]> a) ≡ₚ <[h := v]> a.
Proof.
  intros Hs [y Hh].
  assert (Hlen : h < length a) by (by eapply lookup_lt_Some).
  destruct (decide (h = s)) as [-> | Hne]; [by rewrite list_insert_insert_eq |].
  rewrite <- (list_insert_insert_eq a h x v).
  apply insert_swap_perm.
  - by rewrite list_lookup_insert_eq.
  - by rewrite list_lookup_insert_ne.
Qed.

Lemma push_heap_perm fuel a first hole top value :
  is_Some (a !! (first + hole)) ->
  push_heap comp fuel a first hole top value ≡ₚ <[first + hole := value]> a.
Proof.
  revert a hole. induction fuel as [| fuel IH]; intros a hole Hh;
    cbn [push_heap]; [done |].
  destruct (top <? hole); [| done].
  destruct (a !! (first + (hole - 1) / 2)) as [p |] eqn:Hp; [| done].
  destruct (comp p value); [| done].
  rewrite IH.
  - by apply move_hole_perm.
  - apply lookup_lt_is_Some. rewrite length_insert.
    by eapply lookup_lt_Some.
Qed.

Lemma sift_down_perm fuel a first hole len value :
  is_Some (a !! (first + hole)) ->
  let r := sift_down comp fuel a first hole len in
  is_Some (r.1 !! (first + r.2)) /\
  <[first + r.2 := value]> r.1 ≡ₚ <[first + hole := value]> a.
Proof.
  revert a hole. induction fuel as [| fuel IH]; intros a hole Hh;
    cbn [sift_down]; [done |].
  destruct (hole <? (len - 1) / 2); [| done].
  match goal with |- context [a !! (first + ?c)] => set (child := c) end.
  destruct (a !! (first + child)) as [x |] eqn:Hx; [| done].
  destruct (IH (<[first + hole := x]> a) child) as [Hsome Hperm].
  { apply lookup_lt_is_Some. rewrite length_insert. by eapply lookup_lt_Some. }
  split; [done |]. rewrite Hperm. by apply move_hole_perm.
Qed.

Lemma adjust_heap_perm a first hole len value :
  is_Some (a !! (first + hole)) ->
  adjust_heap comp a first hole len value ≡ₚ <[first + hole := value]> a.
Proof.
  intros Hh. unfold adjust_heap.
  pose proof (sift_down_perm len a first hole len value Hh) as Hsift.
  destruct (sift_down comp len a first hole len) as [a1 hole1]; simpl in Hsift.
  destruct Hsift as [Hsome1 Hperm1].
  assert (Hsecond : forall P : list A * nat -> Prop,
            (forall a2 hole2, is_Some (a2 !! (first + hole2)) ->
               <[first + hole2 := value]> a2 ≡ₚ <[first + hole := value]> a ->
               P (a2, hole2)) ->
            P (if Nat.even len && (hole1 =? (len - 2) / 2)
               then match a1 !! (first + (2 * (hole1 + 1) - 1)) with
                    | Some x => (<[first + hole1 := x]> a1, 2 * (hole1 + 1) - 1)
                    | None => (a1, hole1)
                    end
               else (a1, hole1))).
  { intros P HP. destruct (Nat.even len && (hole1 =? (len - 2) / 2));
      [| by apply HP].
    destruct (a1 !! (first + (2 * (hole1 + 1) - 1))) as [x |] eqn:Hx;
      [| by apply HP].
    apply HP.
    - apply lookup_lt_is_Some. rewrite length_insert. by eapply lookup_lt_Some.
    - rewrite <- Hperm1. by apply move_hole_perm. }
  apply Hsecond. intros a2 hole2 Hsome2 Hperm2.
  by rewrite push_heap_perm.
Qed.

Lemma pop_heap_perm a first last result :
  pop_heap comp a first last result ≡ₚ a.
Proof.
  unfold pop_heap.
  destruct (a !! result) as [value |] eqn:Hr; [| done].
  destruct (a !! first) as [top |] eqn:Hf; [| done].
  rewrite adjust_heap_perm.
  - rewrite Nat.add_0_r. by apply insert_swap_perm.
  - rewrite Nat.add_0_r. apply lookup_lt_is_Some. rewrite length_insert.
    by eapply lookup_lt_Some.
Qed.

Lemma make_heap_from_perm a first len parent :
  make_heap_from comp a first len parent ≡ₚ a.
Proof.
  revert a. induction parent as [| parent IH]; intros a; simpl.
  - destruct (a !! (first + 0)) as [value |] eqn:Hv; [| done].
    rewrite adjust_heap_perm by (by exists value). by rewrite list_insert_id.
  - rewrite IH.
    destruct (a !! (first + S parent)) as [value |] eqn:Hv; [| done].
    rewrite adjust_heap_perm by (by exists value). by rewrite list_insert_id.
Qed.

Lemma sort_heap_perm fuel a first last : sort_heap comp fuel a first last ≡ₚ a.
Proof.
  revert a last. induction fuel as [| fuel IH]; intros a last; simpl; [done |].
  destruct (1 <? last - first); [| done]. rewrite IH. apply pop_heap_perm.
Qed.

Lemma partial_sort_perm a first last : partial_sort comp a first last ≡ₚ a.
Proof.
  unfold partial_sort, make_heap. rewrite sort_heap_perm.
  destruct (_ <? _); [done |]. apply make_heap_from_perm.
Qed.

Lemma introsort_loop_perm a first last depth_limit :
  introsort_loop comp a first last depth_limit ≡ₚ a.
Proof.
  revert a first last. induction depth_limit as [| d IH]; intros a first last;
    simpl; destruct (S_threshold <? last - first); try done.
  - apply partial_sort_perm.
  - pose proof (unguarded_partition_pivot_perm a first last) as Hp.
    destruct (unguarded_partition_pivot comp a first last) as [a1 cut].
    simpl in Hp. by rewrite !IH.
Qed.

Lemma unguarded_linear_insert_perm (val : A) (sorted : list A) :
  unguarded_linear_insert comp val sorted ≡ₚ val :: sorted.
Proof.
  induction sorted as [| next sorted IH]; simpl; [done |].
  destruct (comp val next); [| done]. rewrite IH. apply Permutation_swap.
Qed.

Lemma insertion_step_perm (sorted : list A) (val : A) :
  insertion_step comp sorted val ≡ₚ val :: sorted.
Proof.
  unfold insertion_step. destruct (last sorted) as [front |] eqn:Hl.
  - destruct (comp val front).
    + by rewrite Permutation_app_comm.
    + apply unguarded_linear_insert_perm.
  - apply last_None in Hl. by subst.
Qed.

Lemma insertion_sort_perm (sorted l : list A) :
  insertion_sort comp sorted l ≡ₚ sorted ++ l.
Proof.
  revert sorted. induction l as [| val l IH]; intros sorted; simpl.
  - by rewrite app_nil_r.
  - unfold insertion_sort in *. simpl. rewrite IH, insertion_step_perm.
    apply Permutation_middle.
Qed.

Lemma unguarded_insertion_sort_perm (sorted l : list A) :
  unguarded_insertion_sort comp sorted l ≡ₚ sorted ++ l.
Proof.
  revert sorted. induction l as [| val l IH]; intros sorted; simpl.
  - by rewrite app_nil_r.
  - unfold unguarded_insertion_sort in *. simpl.
    rewrite IH, unguarded_linear_insert_perm. apply Permutation_middle.
Qed.

Lemma final_insertion_sort_perm a : final_insertion_sort comp a ≡ₚ a.
Proof.
  unfold final_insertion_sort. destruct (S_threshold <? length a).
  - rewrite <- Permutation_rev, unguarded_insertion_sort_perm,
      insertion_sort_perm. simpl. by rewrite take_drop.
  - by rewrite <- Permutation_rev, insertion_sort_perm.
Qed.

Lemma libstdcxx_sort_perm a : libstdcxx_sort comp a ≡ₚ a.
Proof.
  destruct a as [| x a]; [done |]. unfold libstdcxx_sort.
  by rewrite final_insertion_sort_perm, introsort_loop_perm.
Qed.

(** The final pass sorts whatever the recursion leaves.  The sorted
    range is held with its last element first. *)
Definition sorted_backwards (s : list A) : Prop :=
  StronglySorted (fun x y => comp x y = false) s.

Context (Hswo : StrictWeakOrder comp).

Lemma unguarded_linear_insert_sorted (val : A) (s : list A) :
  sorted_backwards s -> sorted_backwards (unguarded_linear_insert comp val s).
Proof.
  destruct Hswo as [Hirr Htr Hinc].
  assert (Hasym : forall x y, comp x y = true -> comp y x = false).
  { intros x y Hxy. destruct (comp y x) eqn:Hyx; [| done].
    by rewrite <- (Hirr x), (Htr x y x Hxy Hyx). }
  unfold sorted_backwards.
  induction 1 as [| next s Hs IH Hnext]; simpl; [by repeat constructor |].
  destruct (comp val next) eqn:Hc.
  - constructor; [done |].
    rewrite unguarded_linear_insert_perm. constructor; [by apply Hasym | done].
  - constructor; [by constructor |]. constructor; [done |].
    eapply Forall_impl; [exact Hnext |]. intros z Hz. simpl in *. eauto.
Qed.

Lemma insertion_step_sorted (s : list A) (val : A) :
  sorted_backwards s -> sorted_backwards (insertion_step comp s val).
Proof.
  intros Hs. unfold insertion_step.
  destruct (last s) as [front |] eqn:Hl; [| by repeat constructor].
  destruct (comp val front) eqn:Hc; [| by apply unguarded_linear_insert_sorted].
  destruct Hswo as [Hirr Htr Hinc].
  apply last_Some in Hl as [s' ->].
  unfold sorted_backwards in *.
  apply StronglySorted_app in Hs as (Hall & Hs' & _).
  apply StronglySorted_app. split; [| split].
  3: by repeat constructor.
  2: { apply StronglySorted_app. split; [done |]. split; [done |].
       by repeat constructor. }
  - intros x y Hx ->%list_elem_of_singleton.
    apply elem_of_app in Hx as [Hx | ->%list_elem_of_singleton].
    + destruct (comp x val) eqn:Hxy; [| done].
      rewrite <- (Hall x front Hx ltac:(by left)). symmetry. by eapply Htr.
    + destruct (comp front val) eqn:Hfy; [| done].
      by rewrite <- (Hirr val), (Htr val front val Hc Hfy).
Qed.

Lemma final_insertion_sort_sorted a :
  StronglySorted (not_after comp) (final_insertion_sort comp a).
Proof.
  assert (Hins : forall s l, sorted_backwards s ->
            sorted_backwards (insertion_sort comp s l)).
  { intros s l. revert s. induction l as [| val l IH]; intros s Hs; [done |].
    apply (IH (insertion_step comp s val)). by apply insertion_step_sorted. }
  assert (Hung : forall s l, sorted_backwards s ->
            sorted_backwards (unguarded_insertion_sort comp s l)).
  { intros s l. revert s. induction l as [| val l IH]; intros s Hs; [done |].
    apply (IH (unguarded_linear_insert comp val s)).
    by apply unguarded_linear_insert_sorted. }
  assert (Hrev : forall s, sorted_backwards s ->
            StronglySorted (not_after comp) (rev s)).
  { unfold sorted_backwards. induction 1 as [| x s Hs IH Hx]; simpl;
      [constructor |].
    apply StronglySorted_app. split; [| split; [done | by repeat constructor]].
    intros y z Hy ->%list_elem_of_singleton.
    apply list_elem_of_In, in_rev, list_elem_of_In in Hy.
    rewrite Forall_forall in Hx. by apply Hx. }
  unfold final_insertion_sort. destruct (S_threshold <? length a);
    apply Hrev; [apply Hung |]; apply Hins; constructor.
Qed.

Lemma libstdcxx_sort_sorted a :
  StronglySorted (not_after comp) (libstdcxx_sort comp a).
Proof.
  destruct a as [| x a]; [constructor |]. apply final_insertion_sort_sorted.
Qed.

(** On ranges of at most sixteen elements the library's sort is the
    insertion sort alone, and that one keeps ties in input order: it
    is the stable sort above. *)
Fixpoint insert_backwards (x : A) (s : list A) : list A :=
  match s with
  | y :: s' => if comp y x then x :: s else y :: insert_backwards x s'
  | [] => [x]
  end.

Lemma insertion_step_unguarded (s : list A) (val : A) :
  sorted_backwards s ->
  insertion_step comp s val = unguarded_linear_insert comp val s.
Proof.
  destruct Hswo as [Hirr Htr Hinc].
  intros Hs. unfold insertion_step.
  destruct (last s) as [front |] eqn:Hl.
  2: { apply last_None in Hl as ->. done. }
  destruct (comp val front) eqn:Hc; [| done].
  apply last_Some in Hl as [s' ->].
  unfold sorted_backwards in Hs.
  apply StronglySorted_app in Hs as (Hall & _ & _).
  assert (Hbig : forall y, y ∈ s' -> comp val y = true).
  { intros y Hy. destruct (comp val y) eqn:Hvy; [done |].
    rewrite <- Hc. symmetry. apply (Hinc val y front Hvy).
    apply Hall; [done | by left]. }
  clear Hall. induction s' as [| y s' IH]; simpl.
  - by rewrite Hc.
  - rewrite Hbig by left. f_equal. rewrite <- IH; [by rewrite <- app_assoc |].
    intros z Hz. apply Hbig. by right.
Qed.

Lemma insert_backwards_commute (x y : A) (s : list A) :
  unguarded_linear_insert comp y (insert_backwards x s)
  = insert_backwards x (unguarded_linear_insert comp y s).
Proof.
  destruct Hswo as [Hirr Htr Hinc].
  induction s as [| z s IH]; simpl.
  - by destruct (comp y x).
  - destruct (comp z x) eqn:Hzx, (comp y z) eqn:Hyz; simpl; rewrite ?Hzx, ?Hyz.
    + by rewrite (Htr y z x Hyz Hzx).
    + by destruct (comp y x).
    + by rewrite IH.
    + by rewrite (Hinc y z x Hyz Hzx).
Qed.

Lemma insertion_sort_backwards (l : list A) :
  insertion_sort comp [] l = foldr insert_backwards [] l.
Proof.
  assert (Hsorted : forall l s, sorted_backwards s ->
            sorted_backwards
              (foldl (fun s val => unguarded_linear_insert comp val s) s l)).
  { intros l0. induction l0 as [| v l0 IH]; intros s Hs; [done |].
    apply IH. by apply unguarded_linear_insert_sorted. }
  assert (Hung : forall l s, sorted_backwards s ->
            insertion_sort comp s l
            = foldl (fun s val => unguarded_linear_insert comp val s) s l).
  { intros l0. induction l0 as [| v l0 IH]; intros s Hs; [done |].
    simpl. rewrite insertion_step_unguarded by done.
    apply IH. by apply unguarded_linear_insert_sorted. }
  assert (Hcomm : forall l x s,
            foldl (fun s val => unguarded_linear_insert comp val s)
              (insert_backwards x s) l
            = insert_backwards x
                (foldl (fun s val => unguarded_linear_insert comp val s) s l)).
  { intros l0. induction l0 as [| v l0 IH]; intros x s; [done |].
    simpl. by rewrite insert_backwards_commute, IH. }
  rewrite Hung by constructor. clear Hung Hsorted.
  induction l as [| x l IH]; [done |].
  simpl. rewrite <- IH. apply (Hcomm l x []).
Qed.

Lemma insert_backwards_sorted (x : A) (s : list A) :
  sorted_backwards s -> sorted_backwards (insert_backwards x s).
Proof.
  destruct Hswo as [Hirr Htr Hinc].
  unfold sorted_backwards.
  induction 1 as [| y s Hs IH Hy]; simpl; [by repeat constructor |].
  destruct (comp y x) eqn:Hyx.
  - constructor; [by constructor |]. constructor.
    + destruct (comp x y) eqn:Hxy; [| done].
      by rewrite <- (Hirr x), (Htr x y x Hxy Hyx).
    + rewrite Forall_forall in Hy. apply Forall_forall. intros z Hz.
      destruct (comp x z) eqn:Hxz; [| done].
      rewrite <- (Hy z Hz). symmetry. by eapply Htr.
  - constructor; [done |].
    assert (Hall : forall s0, Forall (fun z => comp y z = false) s0 ->
              Forall (fun z => comp y z = false) (insert_backwards x s0)).
    { intros s0 H0. induction H0 as [| z s0 Hz H0 IH0]; simpl;
        [by repeat constructor |].
      destruct (comp z x); repeat constructor; done. }
    by apply Hall.
Qed.

Lemma insert_backwards_rev (x : A) (s : list A) :
  sorted_backwards s ->
  rev (insert_backwards x s) = insert_before_ties comp x (rev s).
Proof.
  destruct Hswo as [Hirr Htr Hinc].
  assert (Hge : forall y l, comp y x = false ->
            insert_before_ties comp x (l ++ [y])
            = insert_before_ties comp x l ++ [y]).
  { intros y l Hyx. induction l as [| z l IH]; simpl; [by rewrite Hyx |].
    destruct (comp z x); [by rewrite IH | done]. }
  assert (Hlt : forall l, (forall z, z ∈ l -> comp z x = true) ->
            insert_before_ties comp x l = l ++ [x]).
  { intros l Hl. induction l as [| z l IH]; simpl; [done |].
    rewrite Hl by left. f_equal. apply IH. intros z' Hz'. apply Hl. by right. }
  unfold sorted_backwards.
  induction 1 as [| y s Hs IH Hy]; simpl; [done |].
  destruct (comp y x) eqn:Hyx; simpl.
  - rewrite Hlt; [done |].
    intros z Hz. apply elem_of_app in Hz as [Hz | ->%list_elem_of_singleton];
      [| done].
    apply list_elem_of_In, in_rev, list_elem_of_In in Hz.
    rewrite Forall_forall in Hy.
    destruct (comp z x) eqn:Hzx; [done |].
    rewrite <- Hyx. symmetry. apply (Hinc y z x); [by apply Hy | done].
  - by rewrite IH, Hge.
Qed.

Lemma libstdcxx_sort_small a :
  length a <= S_threshold ->
  libstdcxx_sort comp a = sort_keeping_ties comp a.
Proof.
  intros Hlen. unfold libstdcxx_sort. destruct a as [| x a]; [done |].
  assert (Hloop : forall d,
            introsort_loop comp (x :: a) 0 (length (x :: a)) d = x :: a).
  { intros d. apply Nat.ltb_ge in Hlen.
    destruct d; cbn [introsort_loop]; by rewrite Nat.sub_0_r, Hlen. }
  rewrite Hloop. unfold final_insertion_sort.
  apply Nat.ltb_ge in Hlen. rewrite Hlen.
  rewrite insertion_sort_backwards. unfold sort_keeping_ties.
  generalize (x :: a). clear Hlen Hloop. intros l.
  induction l as [| y l IH]; [done |].
  simpl. rewrite insert_backwards_rev, IH; [done |].
  clear IH. induction l as [| z l IH]; simpl; [constructor |].
  by apply insert_backwards_sorted.
Qed.
End LibstdcxxFacts.

Definition libstdcxx : StdSort.
Proof.
  refine {| std_sort := @libstdcxx_sort |}.
  - intros A comp l _. apply libstdcxx_sort_perm.
  - intros A comp l Hswo. by apply libstdcxx_sort_sorted.
Defined.

Local Close Scope nat_scope.

(** ** The vocabulary of the statements *)

(** [m'] is [m] after some lookups through [operator[]]: entries are only
    ever added, and only default-constructed ones. *)
Definition only_touched (m m' : BreakerMap) : Prop :=
  forall k, m' !! k = m !! k \/ (m !! k = None /\ m' !! k = Some Breaker.default).

Section Vocabulary.
Context {F : Type} `{FloatOps F} `{StdSort}.
Implicit Types (br : BreakerMap) (ls : list (Load.t F)) (P D : F).
Implicit Types (g : GridManager F) (draws : nat -> Z).

(** A load that is connected and whose breaker is not tripped. *)
Definition counted (br : BreakerMap) (l : Load.t F) : bool :=
  Load.isConnected l && negb (is_tripped br (Load.getName l)).

(** The sum of the demands of [ls], added to [D] in vector order. *)
Definition sum_demand (D : F) (ls : list (Load.t F)) : F :=
  foldl (fun acc l => f_add acc (Load.getRawDemand l)) D ls.

(** The name and the demand of the load a pointer refers to. *)
Definition name_at ls (i : nat) : string :=
  match ls !! i with Some l => Load.name l | None => "" end.

Definition demand_at ls (i : nat) : F :=
  match ls !! i with Some l => Load.demand l | None => f_zero end.

(** The loads [shed] disconnected, the breakers [ns] tripped and the
    demands [ds] subtracted, one after the other. *)
Definition disconnect_all (shed : list nat) ls : list (Load.t F) :=
  foldl (fun acc i => alter Load.disconnect i acc) ls shed.

Definition trip_all (ns : list string) br : BreakerMap :=
  foldl br_trip br ns.

Definition sub_all D (ds : list F) : F := foldl f_sub D ds.

(** Two vectors that differ in connectivity flags only. *)
Definition same_fixed ls ls' : Prop :=
  forall j, name_at ls' j = name_at ls j /\ demand_at ls' j = demand_at ls j /\
            priority_at ls' j = priority_at ls j.

(** How far the loop got: the loads in [shed] were shed, in this order,
    and the loop left with [rest] still to visit. *)
Record stops_at P D ls (cands shed rest : list nat) : Prop := {
  stop_split : cands = shed ++ rest;
  stop_first : cands <> [] -> shed <> [];
  stop_goes_on : forall k, (0 < k < length shed)%nat ->
    f_ge P (sub_all D (demand_at ls <$> take k shed)) = false;
  stop_break : rest <> [] ->
    f_ge P (sub_all D (demand_at ls <$> shed)) = true
}.

(** The value of [totalDemand] when the loop has gone through [pre]. *)
Definition demand_after P D ls (pre : list nat) : F :=
  (restore_walk P pre ls D).1.2.

(** The totals the two loops of a cycle compute, and the sources and the
    registry they leave. *)
Definition cycle_power draws g : F :=
  (source_pass draws 0%nat (sources g) (breakers g) f_zero).2.

Definition cycle_sources draws g : list (Source.t F) :=
  (source_pass draws 0%nat (sources g) (breakers g) f_zero).1.1.

Definition cycle_breakers draws g : BreakerMap :=
  (load_pass (loads g)
     (source_pass draws 0%nat (sources g) (breakers g) f_zero).1.2 f_zero).1.

Definition cycle_demand draws g : F :=
  (load_pass (loads g)
     (source_pass draws 0%nat (sources g) (breakers g) f_zero).1.2 f_zero).2.

(** No load is both connected and breaker-tripped. *)
Definition no_contradiction g : Prop :=
  forall l, l ∈ loads g -> Load.connected l = true ->
            is_tripped (breakers g) (Load.name l) = false.

(** Every faulted name has a tripped breaker. *)
Definition faults_tripped g : Prop :=
  forall k, k ∈ faults g -> is_tripped (breakers g) k = true.

End Vocabulary.

Section MoreVocabulary.
Context {F : Type} `{FloatOps F} `{StdSort}.
Implicit Types (br : BreakerMap) (ls : list (Load.t F)) (P D : F).
Implicit Types (g : GridManager F) (draws : nat -> Z).

(** A source that is connected and whose breaker is not tripped. *)
Definition powered (br : BreakerMap) (s : Source.t F) : bool :=
  Source.isConnected s && negb (is_tripped br (Source.getName s)).

(** The sum of the outputs of [srcs], added to [P] in vector order. *)
Definition sum_power (P : F) (srcs : list (Source.t F)) : F :=
  foldl (fun acc s => f_add acc (Source.getPowerOutput s)) P srcs.

(** The connectivity flag of the load a pointer refers to. *)
Definition connected_at ls (i : nat) : bool :=
  match ls !! i with Some l => Load.connected l | None => false end.

(** [s'] is [s] after its [simulate()] has drawn [v] from [std::rand()]. *)
Definition resampled (s s' : Source.t F) (v : Z) : Prop :=
  Source.dyn s = Source.SolarSource /\ Source.status s = true /\
  s' = Source.mk Source.SolarSource (Source.name s) true
         (f_of_int (20 + Z.rem v 30)) (Source.renewable s).

(** A source whose [simulate()] draws a random number in a cycle: a
    [SolarSource] that is connected and whose breaker is not tripped. *)
Definition live_solar (br : BreakerMap) (s : Source.t F) : bool :=
  match Source.dyn s with
  | Source.SolarSource =>
      Source.status s && negb (is_tripped br (Source.name s))
  | Source.PowerSource => false
  end.

(** The demand of the loads a cycle counts: connected, breaker not
    tripped. *)
Definition live_demand (br : BreakerMap) ls : F :=
  sum_demand f_zero (filter (fun l => counted br l = true) ls).

(** The line [showBreakers] prints for the entry of [k]. *)
Definition status_line (br : BreakerMap) (k : string) : string :=
  k +:+ ": " +:+ (if is_tripped br k then "TRIPPED" else "OK").

(** What every command keeps of a load and of a source. *)
Definition load_kept (l l' : Load.t F) : Prop :=
  Load.name l' = Load.name l /\ Load.demand l' = Load.demand l /\
  Load.priority l' = Load.priority l.

Definition source_kept (s s' : Source.t F) : Prop :=
  Source.name s' = Source.name s /\ Source.status s' = Source.status s /\
  Source.dyn s' = Source.dyn s /\ Source.renewable s' = Source.renewable s /\
  (Source.dyn s = Source.PowerSource -> s' = s).

(** The commands that neither inject a fault nor reconnect load [i] by
    hand. *)
Definition leaves_alone (i : nat) (c : @command F) : bool :=
  match c with
  | InjectFault _ => false
  | ReconnectLoad j => negb (j =? i)%nat
  | _ => true
  end.

(** Every registered component and every fault has a breaker; every
    breaker bears the name it is registered under, but for the one a
    fault at the empty name creates; and there is no other breaker. *)
Record registry_ok g : Prop := {
  reg_loads : forall k, k ∈ (Load.name <$> loads g) -> is_Some (breakers g !! k);
  reg_sources : forall k, k ∈ (Source.name <$> sources g) ->
    is_Some (breakers g !! k);
  reg_faults : forall k, k ∈ faults g -> is_Some (breakers g !! k);
  reg_ids : forall k b, breakers g !! k = Some b ->
    Breaker.id b = k \/ (k = "" /\ Breaker.id b = "unknown");
  reg_keys : forall k, is_Some (breakers g !! k) ->
    k = "" \/ k ∈ (Load.name <$> loads g) \/ k ∈ (Source.name <$> sources g)
}.
End MoreVocabulary.

(** ** Concrete grids, on exact arithmetic *)

(** A sequence of values for [std::rand()]. *)
Definition draws0 : nat -> Z := fun _ => 7.

(** The components [main] registers at lines 257-261, the solar farm
    apart. *)
Definition hydro : Source.t Z := Source.new_power "HydroStation" 60 false.

Definition factory : Load.t Z := Load.new "Factory-A" 30 2.

Definition house : Load.t Z := Load.new "House-B" 15 1.

Definition shop : Load.t Z := Load.new "Shop-C" 10 3.

(** The grid of the specification's scenarios. *)
Definition demo_grid : GridManager Z :=
  addLoad (addLoad (addLoad (addSource draws0 empty_grid hydro).1 factory) house) shop.

(** The start-up grid with a fault injected at load 0 ("L0"): the breaker
    of Factory-A is tripped, the load stays connected. *)
Definition faulted_load_grid : GridManager Z :=
  inject_at demo_grid "Factory-A".

(** A weak source and three loads, the least important of which has had a
    fault injected. *)
Definition small_grid : GridManager Z :=
  inject_at
    (addLoad
       (addLoad
          (addLoad (addSource draws0 empty_grid (Source.new_power "Gen" 8 false)).1
             (Load.new "A" 10 5))
          (Load.new "B" 20 3))
       (Load.new "C" 5 1))
    "A".

(** The start-up grid after a fault at source 0 ("S0") and one cycle:
    with no power left, all three loads have been shed. *)
Definition blackout_grid : GridManager Z :=
  (simulate draws0 (inject_at demo_grid "HydroStation")).1.

(** The start-up of [main] followed by seventeen loads of 10 kW, all of
    priority 5, added through choice 7. *)
Definition tied_grid : GridManager Z :=
  foldl addLoad (@main_setup Z _ libstdcxx draws0 draws0)
    ((fun i => Load.new ("N" +:+ decimal i) 10 5) <$> seq 0 17).

(** Twenty loads of 10 kW with the priorities 1 to 20, on a source of
    100 kW. *)
Definition ranked_grid : GridManager Z :=
  foldl addLoad
    (addSource draws0 empty_grid (Source.new_power "Gen" 100 false)).1
    ((fun i => Load.new ("R" +:+ decimal i) 10 (Z.of_nat i)) <$> seq 1 20).

(** The demo grid with a mall of 40 kW added, and House-B, Shop-C and
    the mall switched off by the operator. *)
Definition three_off_grid : GridManager Z :=
  let g := addLoad demo_grid (Load.new "Mall-D" 40 2) in
  mkGrid (sources g)
    [factory; Load.disconnect house; Load.disconnect shop;
     Load.disconnect (Load.new "Mall-D" 40 2)]
    (breakers g) (faults g).

(** A load registered before any source of the same name. *)
Definition shared_name_grid : GridManager Z :=
  addLoad empty_grid (Load.new "X" 10 1).

(** The start-up grid with House-B switched off by the operator. *)
Definition house_off_grid : GridManager Z :=
  mkGrid (sources demo_grid) (<[1%nat := Load.disconnect house]> (loads demo_grid))
         (breakers demo_grid) (faults demo_grid).

(** The grid [main] builds before it shows the menu, with [v] the output
    of the solar farm. *)
Definition startup_grid (v : Z) : GridManager Z :=
  mkGrid [Source.mk Source.SolarSource "SolarFarm-A" true v true; hydro]
         [factory; house; shop]
         (foldl br_emplace ∅
            ["SolarFarm-A"; "HydroStation"; "Factory-A"; "House-B"; "Shop-C"])
         ∅.

(** The sum of the magnitudes of the demands, and the demand of the
    loads a cycle counts as an exact integer.  While the first stays
    below 2^24, no sum or difference of demands is rounded. *)
Definition abs_demand (ls : list (Load.t Z)) : Z :=
  foldr (fun l acc => Z.abs (Load.demand l) + acc) 0 ls.

Definition exact_live (br : BreakerMap) (ls : list (Load.t Z)) : Z :=
  foldr (fun l acc => (if counted br l then Load.demand l else 0) + acc) 0 ls.

(** Gen at 16777215 kW, a load of 2^24 kW and two of 1 kW. *)
Definition rounding_grid : GridManager Z :=
  addLoad
    (addLoad
       (addLoad
          (addSource draws0 empty_grid
             (Source.new_power "Gen" 16777215 false)).1
          (Load.new "L0" 16777216 1))
       (Load.new "L1" 1 2))
    (Load.new "L2" 1 3).

(** * Properties *)

(** ** The breaker registry *)

Section BreakerFacts.
Implicit Types (m : BreakerMap) (k n : string).

Lemma br_get_touch m n k : br_get (br_touch m n) k = br_get m k.
Proof.
  unfold br_get, br_touch.
  destruct (m !! n) eqn:Hn; [done |].
  destruct (decide (n = k)) as [-> | Hne].
  - by rewrite lookup_insert_eq, Hn.
  - by rewrite lookup_insert_ne.
Qed.

Lemma is_tripped_touch m n k : is_tripped (br_touch m n) k = is_tripped m k.
Proof. unfold is_tripped. by rewrite br_get_touch. Qed.

Lemma br_touch_present m n b : m !! n = Some b -> br_touch m n = m.
Proof. unfold br_touch. by intros ->. Qed.

Lemma br_touch_lookup_some m n k b :
  m !! k = Some b -> br_touch m n !! k = Some b.
Proof.
  intros Hk. unfold br_touch. destruct (m !! n) eqn:Hn; [done |].
  rewrite lookup_insert_ne; [done | congruence].
Qed.

Lemma br_get_trip_eq m n : br_get (br_trip m n) n = Breaker.trip (br_get m n).
Proof. unfold br_get at 1, br_trip. by rewrite lookup_insert_eq. Qed.

Lemma br_get_trip_ne m n k : n ≠ k -> br_get (br_trip m n) k = br_get m k.
Proof.
  intros Hne. unfold br_trip. unfold br_get at 1.
  rewrite lookup_insert_ne by done. apply br_get_touch.
Qed.

Lemma is_tripped_trip_eq m n : is_tripped (br_trip m n) n = true.
Proof. unfold is_tripped. by rewrite br_get_trip_eq. Qed.

Lemma is_tripped_trip_ne m n k :
  n ≠ k -> is_tripped (br_trip m n) k = is_tripped m k.
Proof. intros. unfold is_tripped. by rewrite br_get_trip_ne. Qed.

Lemma is_tripped_trip_mono m n k :
  is_tripped m k = true -> is_tripped (br_trip m n) k = true.
Proof.
  intros Hk. destruct (decide (n = k)) as [-> | Hne].
  - apply is_tripped_trip_eq.
  - by rewrite is_tripped_trip_ne.
Qed.

Lemma br_get_id_trip m n k :
  Breaker.id (br_get (br_trip m n) k) = Breaker.id (br_get m k).
Proof.
  destruct (decide (n = k)) as [-> | Hne].
  - by rewrite br_get_trip_eq.
  - by rewrite br_get_trip_ne.
Qed.

Lemma br_get_reset_eq m n : br_get (br_reset m n) n = Breaker.reset (br_get m n).
Proof. unfold br_get at 1, br_reset. by rewrite lookup_insert_eq. Qed.

Lemma br_get_reset_ne m n k : n ≠ k -> br_get (br_reset m n) k = br_get m k.
Proof.
  intros Hne. unfold br_reset. unfold br_get at 1.
  rewrite lookup_insert_ne by done. apply br_get_touch.
Qed.

Lemma is_tripped_emplace m n k :
  is_tripped (br_emplace m n) k = is_tripped m k.
Proof.
  unfold is_tripped, br_get, br_emplace.
  destruct (m !! n) eqn:Hn; [done |].
  destruct (decide (n = k)) as [-> | Hne].
  - by rewrite lookup_insert_eq, Hn.
  - by rewrite lookup_insert_ne.
Qed.

Lemma br_emplace_present m n b : m !! n = Some b -> br_emplace m n = m.
Proof. unfold br_emplace. by intros ->. Qed.

Lemma br_emplace_absent m n :
  m !! n = None -> br_emplace m n = <[n := Breaker.make n]> m.
Proof. unfold br_emplace. by intros ->. Qed.

(** A present entry stays present, under the same key, when another is
    tripped; what it holds is read with [br_get]. *)
Lemma br_trip_lookup m n k b :
  m !! k = Some b -> br_trip m n !! k = Some (br_get (br_trip m n) k).
Proof.
  intros Hk. unfold br_get.
  destruct (br_trip m n !! k) eqn:Hl; [done |].
  unfold br_trip in Hl. destruct (decide (n = k)) as [-> | Hne].
  - by rewrite lookup_insert_eq in Hl.
  - rewrite lookup_insert_ne in Hl by done.
    by rewrite (br_touch_lookup_some _ _ _ _ Hk) in Hl.
Qed.
End BreakerFacts.

Section Touched.
Implicit Types (m : BreakerMap) (k n : string).

Lemma only_touched_refl m : only_touched m m.
Proof. intros k. by left. Qed.

Lemma only_touched_trans m1 m2 m3 :
  only_touched m1 m2 -> only_touched m2 m3 -> only_touched m1 m3.
Proof.
  intros H12 H23 k.
  destruct (H12 k) as [E12 | [N1 E2]], (H23 k) as [E23 | [N2 E3]];
    try (left; congruence); try (right; split; congruence).
Qed.

Lemma only_touched_touch m n : only_touched m (br_touch m n).
Proof.
  intros k. unfold br_touch. destruct (m !! n) eqn:Hn; [by left |].
  destruct (decide (n = k)) as [-> | Hne].
  - right. by rewrite lookup_insert_eq.
  - left. by rewrite lookup_insert_ne.
Qed.

Lemma only_touched_get m m' k : only_touched m m' -> br_get m' k = br_get m k.
Proof.
  intros Ht. unfold br_get.
  by destruct (Ht k) as [-> | [-> ->]].
Qed.

Lemma only_touched_tripped m m' k :
  only_touched m m' -> is_tripped m' k = is_tripped m k.
Proof. intros Ht. unfold is_tripped. by rewrite (only_touched_get m m'). Qed.

Lemma only_touched_lookup m m' k b :
  only_touched m m' -> m !! k = Some b -> m' !! k = Some b.
Proof. intros Ht Hk. destruct (Ht k) as [-> | [? _]]; congruence. Qed.
End Touched.

(** ** The two aggregation loops *)

Section Passes.
Context {F : Type} `{FloatOps F}.
Implicit Types (br : BreakerMap) (ls : list (Load.t F)) (P D : F).
Implicit Types (g : GridManager F) (draws : nat -> Z).

Lemma source_pass_touched draws k srcs br P :
  only_touched br (source_pass draws k srcs br P).1.2.
Proof.
  revert k br P. induction srcs as [| src rest IH]; intros k br P; simpl.
  - apply only_touched_refl.
  - destruct (is_tripped br (Source.getName src)).
    + specialize (IH k (br_touch br (Source.getName src)) P).
      destruct (source_pass draws k rest _ P) as [[rest' br2] P2]; simpl in *.
      eapply only_touched_trans; [apply only_touched_touch | done].
    + destruct (Source.simulate draws k src) as [src' k'].
      match goal with |- context [source_pass draws k' rest ?b ?p] =>
        specialize (IH k' b p); destruct (source_pass draws k' rest b p) as [[rest' br2] P2]
      end; simpl in *.
      eapply only_touched_trans; [apply only_touched_touch | done].
Qed.

Lemma load_pass_touched ls br D : only_touched br (load_pass ls br D).1.
Proof.
  revert br D. induction ls as [| l rest IH]; intros br D; simpl.
  - apply only_touched_refl.
  - destruct (is_tripped br (Load.getName l));
      (eapply only_touched_trans; [apply only_touched_touch | apply IH]).
Qed.

Lemma collect_disconnected_touched i ls br :
  only_touched br (collect_disconnected i ls br).2.
Proof.
  revert i br. induction ls as [| l rest IH]; intros i br; simpl.
  - apply only_touched_refl.
  - destruct (Load.isConnected l); [apply IH |].
    specialize (IH (S i) (br_touch br (Load.getName l))).
    destruct (collect_disconnected (S i) rest _) as [ptrs br2]; simpl in *.
    destruct (is_tripped br (Load.getName l)); simpl;
      (eapply only_touched_trans; [apply only_touched_touch | done]).
Qed.

Lemma load_pass_sum ls br br0 D :
  only_touched br0 br ->
  (load_pass ls br D).2 = sum_demand D (filter (fun l => counted br0 l = true) ls).
Proof.
  revert br D. induction ls as [| l rest IH]; intros br D Ht; simpl; [done |].
  assert (Ht' : only_touched br0 (br_touch br (Load.getName l)))
    by (eapply only_touched_trans; [done | apply only_touched_touch]).
  rewrite filter_cons, (only_touched_tripped br0 br _ Ht).
  assert (Hcnt : counted br0 l =
                 Load.isConnected l && negb (is_tripped br0 (Load.getName l)))
    by done.
  destruct (is_tripped br0 (Load.getName l)), (Load.isConnected l);
    simpl in Hcnt; case_decide; try congruence; simpl; by apply IH.
Qed.

Lemma source_simulate_name draws k (s : Source.t F) :
  Source.name (Source.simulate draws k s).1 = Source.name s.
Proof.
  unfold Source.simulate. destruct (Source.dyn s); [done |].
  by destruct (Source.status s).
Qed.

Lemma source_pass_names draws k srcs br P :
  Source.name <$> (source_pass draws k srcs br P).1.1 = Source.name <$> srcs.
Proof.
  revert k br P. induction srcs as [| src rest IH]; intros k br P; simpl; [done |].
  destruct (is_tripped br (Source.getName src)).
  - specialize (IH k (br_touch br (Source.getName src)) P).
    destruct (source_pass draws k rest _ P) as [[rest' br2] P2]; simpl in *.
    by f_equal.
  - pose proof (source_simulate_name draws k src) as Hn.
    destruct (Source.simulate draws k src) as [src' k']; simpl in Hn.
    match goal with |- context [source_pass draws k' rest ?b ?p] =>
      specialize (IH k' b p); destruct (source_pass draws k' rest b p)
        as [[rest' br2] P2]
    end; simpl in *.
    by f_equal.
Qed.

(** A source whose breaker is tripped is passed over: it is not
    simulated and adds nothing to the total. *)
Lemma source_pass_snoc_tripped draws k srcs src br P :
  is_tripped br (Source.name src) = true ->
  source_pass draws k (srcs ++ [src]) br P =
    ((source_pass draws k srcs br P).1.1 ++ [src],
     br_touch (source_pass draws k srcs br P).1.2 (Source.name src),
     (source_pass draws k srcs br P).2).
Proof.
  revert k br P. induction srcs as [| s rest IH]; intros k br P Htr; simpl.
  - unfold Source.getName. by rewrite Htr.
  - assert (Htr' : is_tripped (br_touch br (Source.getName s)) (Source.name src) = true)
      by (by rewrite is_tripped_touch).
    destruct (is_tripped br (Source.getName s)).
    + rewrite (IH k _ P Htr').
      by destruct (source_pass draws k rest _ P) as [[rest' br2] P2].
    + destruct (Source.simulate draws k s) as [s' k'].
      match goal with |- context [source_pass draws k' rest ?b ?p] =>
        rewrite (IH k' b p Htr'); destruct (source_pass draws k' rest b p)
          as [[rest' br2] P2]
      end.
      done.
Qed.

Lemma load_pass_snoc_tripped (ls : list (Load.t F)) l br D :
  is_tripped br (Load.name l) = true ->
  (load_pass (ls ++ [l]) br D).2 = (load_pass ls br D).2.
Proof.
  revert br D. induction ls as [| l0 rest IH]; intros br D Htr; simpl.
  - unfold Load.getName. by rewrite Htr.
  - assert (Htr' : is_tripped (br_touch br (Load.getName l0)) (Load.name l) = true)
      by (by rewrite is_tripped_touch).
    destruct (is_tripped br (Load.getName l0)); by apply IH.
Qed.

End Passes.

(** ** The candidate lists *)

Lemma StronglySorted_weaken {A} (R1 R2 : A -> A -> Prop) (l : list A) :
  (forall x y, R1 x y -> R2 x y) -> StronglySorted R1 l -> StronglySorted R2 l.
Proof.
  intros Himp Hs. induction Hs as [| a l Hl IH Hall]; constructor; [done |].
  eapply Forall_impl; [exact Hall | by intros y; apply Himp].
Qed.

Lemma sort_determined (S1 S2 : StdSort) {A} (comp : A -> A -> bool) (l : list A) :
  StrictWeakOrder comp ->
  (forall x y, x ∈ l -> y ∈ l -> comp x y = false -> comp y x = false -> x = y) ->
  @std_sort S1 A comp l = @std_sort S2 A comp l.
Proof.
  intros Hswo Hanti.
  apply (StronglySorted_unique_strong (not_after comp)).
  - intros x y Hx Hy Hxy Hyx. unfold not_after in *.
    rewrite (std_sort_perm (StdSort := S1)) in Hx by done.
    rewrite (std_sort_perm (StdSort := S2)) in Hy by done.
    by apply Hanti.
  - by apply std_sort_sorted.
  - by apply std_sort_sorted.
  - by rewrite !std_sort_perm.
Qed.

Section Candidates.
Context {F : Type} `{FloatOps F} `{StdSort}.
Implicit Types (br : BreakerMap) (ls : list (Load.t F)) (P D : F).
Implicit Types (g : GridManager F) (draws : nat -> Z).

Lemma shed_comp_swo ls : StrictWeakOrder (shed_comp ls).
Proof.
  unfold shed_comp. split.
  - intros x. apply Z.ltb_irrefl.
  - intros x y z ?%Z.ltb_lt ?%Z.ltb_lt. apply Z.ltb_lt. lia.
  - intros x y z ?%Z.ltb_ge ?%Z.ltb_ge. apply Z.ltb_ge. lia.
Qed.

Lemma restore_comp_swo ls : StrictWeakOrder (restore_comp ls).
Proof.
  unfold restore_comp. split.
  - intros x. apply Z.ltb_irrefl.
  - intros x y z ?%Z.ltb_lt ?%Z.ltb_lt. apply Z.ltb_lt. lia.
  - intros x y z ?%Z.ltb_ge ?%Z.ltb_ge. apply Z.ltb_ge. lia.
Qed.

Lemma collect_connected_spec i0 ls j :
  j ∈ collect_connected i0 ls <->
  (i0 <= j)%nat /\ exists l, ls !! (j - i0)%nat = Some l /\ Load.connected l = true.
Proof.
  revert i0. induction ls as [| l rest IH]; intros i0; simpl.
  - split; [by intros ?%elem_of_nil | by intros [_ [l [? _]]]].
  - assert (Hrest : j ∈ collect_connected (S i0) rest <->
              (i0 < j)%nat /\
              exists l', rest !! (j - S i0)%nat = Some l' /\ Load.connected l' = true).
    { rewrite IH. split; intros [? ?]; (split; [lia | done]). }
    unfold Load.isConnected. destruct (Load.connected l) eqn:Hc.
    + rewrite elem_of_cons, Hrest. split.
      * intros [-> | [Hlt [l' [Hl' Hc']]]].
        -- split; [lia |]. exists l. by rewrite Nat.sub_diag.
        -- split; [lia |]. exists l'. split; [| done].
           by replace (j - i0)%nat with (S (j - S i0)) by lia.
      * intros [Hle [l' [Hl' Hc']]].
        destruct (decide (j = i0)) as [-> | Hne]; [by left | right].
        split; [lia |]. exists l'. split; [| done].
        by replace (j - i0)%nat with (S (j - S i0)) in Hl' by lia.
    + rewrite Hrest. split.
      * intros [Hlt [l' [Hl' Hc']]]. split; [lia |]. exists l'. split; [| done].
        by replace (j - i0)%nat with (S (j - S i0)) by lia.
      * intros [Hle [l' [Hl' Hc']]].
        destruct (decide (j = i0)) as [-> | Hne].
        { rewrite Nat.sub_diag in Hl'. simpl in Hl'. congruence. }
        split; [lia |]. exists l'. split; [| done].
        by replace (j - i0)%nat with (S (j - S i0)) in Hl' by lia.
Qed.

Lemma collect_connected_NoDup i0 ls : NoDup (collect_connected i0 ls).
Proof.
  revert i0. induction ls as [| l rest IH]; intros i0; simpl; [constructor |].
  destruct (Load.isConnected l); [| apply IH].
  constructor; [| apply IH].
  rewrite collect_connected_spec. lia.
Qed.

Lemma collect_disconnected_spec i0 ls br j :
  j ∈ (collect_disconnected i0 ls br).1 <->
  (i0 <= j)%nat /\
  exists l, ls !! (j - i0)%nat = Some l /\ Load.connected l = false /\
            is_tripped br (Load.name l) = false.
Proof.
  revert i0 br. induction ls as [| l rest IH]; intros i0 br; simpl.
  - split; [by intros ?%elem_of_nil | by intros [_ [l [? _]]]].
  - assert (Hrest : forall br', only_touched br br' ->
              j ∈ (collect_disconnected (S i0) rest br').1 <->
              (i0 < j)%nat /\
              exists l', rest !! (j - S i0)%nat = Some l' /\
                         Load.connected l' = false /\
                         is_tripped br (Load.name l') = false).
    { intros br' Ht. rewrite IH. split; intros [? [l' (? & ? & Htr)]];
        (split; [lia |]); exists l'; (split; [done |]); (split; [done |]).
      - by rewrite <- (only_touched_tripped br br').
      - by rewrite (only_touched_tripped br br'). }
    assert (Htail : forall P : Prop,
              ((i0 < j)%nat /\ P) -> (i0 <= j)%nat /\ (j - i0)%nat = S (j - S i0))
      by (intros P [? _]; lia).
    unfold Load.isConnected, Load.getName.
    destruct (Load.connected l) eqn:Hc.
    + rewrite (Hrest br (only_touched_refl br)). split.
      * intros Hj. destruct (Htail _ Hj) as [Hle Heq].
        destruct Hj as [_ [l' ?]]. split; [done |]. exists l'. by rewrite Heq.
      * intros [Hle [l' (Hl' & Hc' & Htr)]].
        destruct (decide (j = i0)) as [-> | Hne].
        { rewrite Nat.sub_diag in Hl'. simpl in Hl'. congruence. }
        split; [lia |]. exists l'.
        by replace (j - i0)%nat with (S (j - S i0)) in Hl' by lia.
    + specialize (Hrest _ (only_touched_touch br (Load.name l))).
      destruct (collect_disconnected (S i0) rest (br_touch br (Load.name l)))
        as [ptrs br2]; simpl in Hrest.
      destruct (is_tripped br (Load.name l)) eqn:Htr; simpl.
      * rewrite Hrest. split.
        -- intros Hj. destruct (Htail _ Hj) as [Hle Heq].
           destruct Hj as [_ [l' ?]]. split; [done |]. exists l'. by rewrite Heq.
        -- intros [Hle [l' (Hl' & Hc' & Htr')]].
           destruct (decide (j = i0)) as [-> | Hne].
           { rewrite Nat.sub_diag in Hl'. simpl in Hl'. congruence. }
           split; [lia |]. exists l'.
           by replace (j - i0)%nat with (S (j - S i0)) in Hl' by lia.
      * rewrite elem_of_cons, Hrest. split.
        -- intros [-> | Hj].
           { split; [lia |]. exists l. by rewrite Nat.sub_diag. }
           destruct (Htail _ Hj) as [Hle Heq].
           destruct Hj as [_ [l' ?]]. split; [done |]. exists l'. by rewrite Heq.
        -- intros [Hle [l' (Hl' & Hc' & Htr')]].
           destruct (decide (j = i0)) as [-> | Hne]; [by left | right].
           split; [lia |]. exists l'.
           by replace (j - i0)%nat with (S (j - S i0)) in Hl' by lia.
Qed.

Lemma collect_disconnected_NoDup i0 ls br :
  NoDup (collect_disconnected i0 ls br).1.
Proof.
  revert i0 br. induction ls as [| l rest IH]; intros i0 br; simpl; [constructor |].
  destruct (Load.isConnected l); [apply IH |].
  pose proof (IH (S i0) (br_touch br (Load.getName l))) as Hnd.
  pose proof (collect_disconnected_spec (S i0) rest
                (br_touch br (Load.getName l)) i0) as Hin.
  destruct (collect_disconnected (S i0) rest _) as [ptrs br2]; simpl in *.
  destruct (is_tripped br (Load.getName l)); simpl; [done |].
  constructor; [| done]. rewrite Hin. lia.
Qed.

(** The pointers sorted for shedding: all connected loads, each once. *)
Lemma shed_candidates_elem ls j :
  j ∈ shed_candidates ls <->
  exists l, ls !! j = Some l /\ Load.connected l = true.
Proof.
  unfold shed_candidates.
  rewrite (std_sort_perm _ _ _ (shed_comp_swo ls)), collect_connected_spec.
  rewrite Nat.sub_0_r. split; [by intros [_ ?] | intros ?; split; [lia | done]].
Qed.

Lemma shed_candidates_NoDup ls : NoDup (shed_candidates ls).
Proof.
  unfold shed_candidates.
  rewrite (std_sort_perm _ _ _ (shed_comp_swo ls)).
  apply collect_connected_NoDup.
Qed.

Lemma shed_candidates_sorted ls :
  StronglySorted (fun i j => priority_at ls j <= priority_at ls i)
    (shed_candidates ls).
Proof.
  eapply StronglySorted_weaken; [| apply std_sort_sorted, shed_comp_swo ].
  intros i j. unfold not_after, shed_comp. by intros ?%Z.ltb_ge.
Qed.

Lemma restore_candidates_elem ls br j :
  j ∈ restore_candidates ls br <->
  exists l, ls !! j = Some l /\ Load.connected l = false /\
            is_tripped br (Load.name l) = false.
Proof.
  unfold restore_candidates.
  rewrite (std_sort_perm _ _ _ (restore_comp_swo ls)), collect_disconnected_spec.
  rewrite Nat.sub_0_r. split; [by intros [_ ?] | intros ?; split; [lia | done]].
Qed.

Lemma restore_candidates_NoDup ls br : NoDup (restore_candidates ls br).
Proof.
  unfold restore_candidates.
  rewrite (std_sort_perm _ _ _ (restore_comp_swo ls)).
  apply collect_disconnected_NoDup.
Qed.

Lemma restore_candidates_sorted ls br :
  StronglySorted (fun i j => priority_at ls i <= priority_at ls j)
    (restore_candidates ls br).
Proof.
  eapply StronglySorted_weaken; [| apply std_sort_sorted, restore_comp_swo ].
  intros i j. unfold not_after, restore_comp. by intros ?%Z.ltb_ge.
Qed.

End Candidates.

(** ** The shedding loop *)

Section Shedding.
Context {F : Type} `{FloatOps F}.
Implicit Types (br : BreakerMap) (ls : list (Load.t F)) (P D : F).
Implicit Types (g : GridManager F) (draws : nat -> Z).

Lemma same_fixed_insert ls i l l' :
  ls !! i = Some l ->
  Load.name l' = Load.name l -> Load.demand l' = Load.demand l ->
  Load.priority l' = Load.priority l ->
  same_fixed ls (<[i := l']> ls).
Proof.
  intros Hi Hn Hd Hp j. unfold name_at, demand_at, priority_at.
  destruct (decide (i = j)) as [<- | Hne].
  - rewrite list_lookup_insert_eq by (by eapply lookup_lt_Some).
    by rewrite Hi.
  - by rewrite list_lookup_insert_ne.
Qed.

Lemma insert_as_alter (f : Load.t F -> Load.t F) ls i l :
  ls !! i = Some l -> <[i := f l]> ls = alter f i ls.
Proof.
  intros Hi. apply list_eq. intros j.
  destruct (decide (i = j)) as [<- | Hne].
  - rewrite list_lookup_insert_eq by (by eapply lookup_lt_Some).
    by rewrite list_lookup_alter_eq, Hi.
  - by rewrite list_lookup_insert_ne, list_lookup_alter_ne.
Qed.

Lemma disconnect_all_lookup shed ls j :
  disconnect_all shed ls !! j =
  if decide (j ∈ shed) then Load.disconnect <$> ls !! j else ls !! j.
Proof.
  revert ls. induction shed as [| i shed IH]; intros ls.
  - destruct (decide (j ∈ [])) as [Hin | _]; [by apply elem_of_nil in Hin | done].
  - change (disconnect_all (i :: shed) ls)
      with (disconnect_all shed (alter Load.disconnect i ls)).
    rewrite IH.
    destruct (decide (j ∈ shed)) as [Hin | Hin],
             (decide (j ∈ i :: shed)) as [Hin' | Hin'],
             (decide (i = j)) as [<- | Hne];
      rewrite ?list_lookup_alter_eq, ?list_lookup_alter_ne by done;
      try done.
    + by destruct (ls !! i).
    + exfalso. apply Hin'. by right.
    + exfalso. apply Hin'. by right.
    + apply elem_of_cons in Hin' as [-> | ?]; done.
    + exfalso. apply Hin'. by left.
Qed.

Lemma trip_all_in ns br k : k ∈ ns -> is_tripped (trip_all ns br) k = true.
Proof.
  revert br. induction ns as [| n ns IH]; intros br Hin; simpl.
  - by apply elem_of_nil in Hin.
  - destruct (decide (k ∈ ns)) as [Hk | Hk]; [by apply IH |].
    apply elem_of_cons in Hin as [-> | ?]; [| done].
    clear IH Hk. revert br. induction ns as [| n' ns IH]; intros br; simpl.
    + apply is_tripped_trip_eq.
    + unfold trip_all in IH.
      destruct (decide (n' = n)) as [-> | Hne]; [apply IH |].
      assert (Hmono : forall ns' br', is_tripped br' n = true ->
                is_tripped (foldl br_trip br' ns') n = true).
      { clear. induction ns' as [| a ns' IH']; intros br' Hb; simpl; [done |].
        by apply IH', is_tripped_trip_mono. }
      by apply Hmono, is_tripped_trip_mono, is_tripped_trip_eq.
Qed.

Lemma trip_all_mono ns br k :
  is_tripped br k = true -> is_tripped (trip_all ns br) k = true.
Proof.
  revert br. induction ns as [| n ns IH]; intros br Hb; simpl; [done |].
  by apply IH, is_tripped_trip_mono.
Qed.

Lemma trip_all_notin ns br k :
  k ∉ ns -> br_get (trip_all ns br) k = br_get br k.
Proof.
  revert br. induction ns as [| n ns IH]; intros br Hk; [done |].
  apply not_elem_of_cons in Hk as [Hne Hk].
  change (trip_all (n :: ns) br) with (trip_all ns (br_trip br n)).
  rewrite IH by done. by apply br_get_trip_ne.
Qed.

Lemma trip_all_id ns br k :
  Breaker.id (br_get (trip_all ns br) k) = Breaker.id (br_get br k).
Proof.
  revert br. induction ns as [| n ns IH]; intros br; [done |].
  change (trip_all (n :: ns) br) with (trip_all ns (br_trip br n)).
  by rewrite IH, br_get_id_trip.
Qed.

Lemma trip_all_lookup ns br k b :
  br !! k = Some b -> trip_all ns br !! k = Some (br_get (trip_all ns br) k).
Proof.
  revert br b. induction ns as [| n ns IH]; intros br b Hk.
  - unfold br_get. simpl. by rewrite Hk.
  - change (trip_all (n :: ns) br) with (trip_all ns (br_trip br n)).
    eapply IH. by eapply br_trip_lookup.
Qed.

Lemma shed_walk_spec P cands ls br D :
  (forall i, i ∈ cands -> (i < length ls)%nat) ->
  exists shed rest,
    stops_at P D ls cands shed rest /\
    shed_walk P cands ls br D =
      (disconnect_all shed ls, trip_all (name_at ls <$> shed) br,
       sub_all D (demand_at ls <$> shed), name_at ls <$> shed).
Proof.
  revert ls br D. induction cands as [| i cands IH]; intros ls br D Hrange.
  - exists [], []. split; [| done].
    split; [done | done | simpl; intros; lia | done].
  - destruct (lookup_lt_is_Some_2 ls i) as [l Hl]; [apply Hrange; by left |].
    simpl. rewrite Hl.
    assert (Hn : name_at ls i = Load.name l) by (unfold name_at; by rewrite Hl).
    assert (Hd : demand_at ls i = Load.demand l) by (unfold demand_at; by rewrite Hl).
    destruct (f_ge P (f_sub D (Load.getRawDemand l))) eqn:Hge.
    + exists [i], cands. split.
      * split; [done | done | simpl; intros; lia |].
        intros _. simpl. by rewrite Hd.
      * simpl. by rewrite Hn, Hd, (insert_as_alter Load.disconnect ls i l).
    + set (ls1 := <[i := Load.disconnect l]> ls).
      assert (Hfix : same_fixed ls ls1) by (by eapply same_fixed_insert).
      destruct (IH ls1 (br_trip br (Load.getName l)) (f_sub D (Load.getRawDemand l)))
        as (shed & rest & Hstop & Heq).
      { intros j Hj. unfold ls1. rewrite length_insert. apply Hrange. by right. }
      assert (Hns : name_at ls1 <$> shed = name_at ls <$> shed)
        by (apply list_fmap_ext; intros ? j _; apply Hfix).
      assert (Hds : forall s, demand_at ls1 <$> s = demand_at ls <$> s)
        by (intros s; apply list_fmap_ext; intros ? j _; apply Hfix).
      exists (i :: shed), rest. split.
      * destruct Hstop as [Hsplit Hfirst Hgo Hbrk]. split.
        -- by rewrite Hsplit.
        -- done.
        -- intros k Hk. destruct k as [| k]; [lia |]. simpl. rewrite Hd.
           destruct k as [| k]; [by rewrite take_0 |].
           rewrite <- Hds. apply Hgo. simpl in Hk. lia.
        -- intros Hrest. simpl. rewrite Hd, <- Hds. by apply Hbrk.
      * rewrite Heq. simpl. rewrite Hn, Hd, Hns, Hds.
        unfold ls1. by rewrite (insert_as_alter Load.disconnect ls i l).
Qed.

End Shedding.

(** ** The reconnection loop *)

Section Restore.
Context {F : Type} `{FloatOps F}.
Implicit Types (br : BreakerMap) (ls : list (Load.t F)) (P D : F).
Implicit Types (g : GridManager F) (draws : nat -> Z).

Lemma restore_walk_app P pre post ls D :
  restore_walk P (pre ++ post) ls D =
  let '(ls1, D1, log1) := restore_walk P pre ls D in
  let '(ls2, D2, log2) := restore_walk P post ls1 D1 in
  (ls2, D2, log1 ++ log2).
Proof.
  revert ls D. induction pre as [| i pre IH]; intros ls D; simpl.
  - by destruct (restore_walk P post ls D) as [[ls2 D2] log2].
  - destruct (ls !! i) as [l |]; [| apply IH].
    destruct (f_ge P (f_add D (Load.getRawDemand l))); [| apply IH].
    rewrite IH.
    destruct (restore_walk P pre _ _) as [[ls1 D1] log1].
    by destruct (restore_walk P post ls1 D1) as [[ls2 D2] log2].
Qed.

(** Each load is left as it was or, if it is a candidate, reconnected. *)
Lemma restore_walk_lookup P cands ls D j l' :
  (restore_walk P cands ls D).1.1 !! j = Some l' ->
  exists l, ls !! j = Some l /\
            (l' = l \/ (l' = Load.reconnect l /\ j ∈ cands)).
Proof.
  revert ls D. induction cands as [| i cands IH]; intros ls D; simpl.
  - intros Hj. exists l'. by split; [| left].
  - destruct (ls !! i) as [l |] eqn:Hi.
    2: { intros Hj. destruct (IH _ _ Hj) as (l0 & ? & [? | [? ?]]);
           exists l0; (split; [done |]); [by left | right; split; [done | by right]]. }
    destruct (f_ge P (f_add D (Load.getRawDemand l))).
    2: { intros Hj. destruct (IH _ _ Hj) as (l0 & ? & [? | [? ?]]);
           exists l0; (split; [done |]); [by left | right; split; [done | by right]]. }
    specialize (IH (<[i := Load.reconnect l]> ls) (f_add D (Load.getRawDemand l))).
    destruct (restore_walk P cands _ _) as [[ls2 D2] log]; simpl in *.
    intros Hj. destruct (IH Hj) as (l0 & Hl0 & Hcase).
    destruct (decide (i = j)) as [<- | Hne].
    + rewrite list_lookup_insert_eq in Hl0 by (by eapply lookup_lt_Some).
      injection Hl0 as <-. exists l. split; [done |]. right.
      split; [| by left].
      destruct Hcase as [-> | [-> _]]; [done | by destruct l].
    + rewrite list_lookup_insert_ne in Hl0 by done.
      exists l0. split; [done |].
      destruct Hcase as [? | [? ?]]; [by left | right; split; [done | by right]].
Qed.

Lemma restore_walk_other P cands ls D j :
  j ∉ cands -> (restore_walk P cands ls D).1.1 !! j = ls !! j.
Proof.
  revert ls D. induction cands as [| i cands IH]; intros ls D Hj; simpl; [done |].
  apply not_elem_of_cons in Hj as [Hne Hj].
  destruct (ls !! i) as [l |] eqn:Hi; [| by apply IH].
  destruct (f_ge P (f_add D (Load.getRawDemand l))); [| by apply IH].
  specialize (IH (<[i := Load.reconnect l]> ls) (f_add D (Load.getRawDemand l)) Hj).
  destruct (restore_walk P cands _ _) as [[ls2 D2] log]; simpl in *.
  rewrite IH. by apply list_lookup_insert_ne.
Qed.

(** The decision taken for the candidate that follows [pre]. *)
Lemma restore_walk_at P pre i post ls D l :
  NoDup (pre ++ i :: post) ->
  ls !! i = Some l ->
  (restore_walk P (pre ++ i :: post) ls D).1.1 !! i =
    Some (if f_ge P (f_add (demand_after P D ls pre) (Load.demand l))
          then Load.reconnect l else l).
Proof.
  intros Hnd Hi.
  apply NoDup_app in Hnd as (_ & Hpre & Hpost).
  apply NoDup_cons in Hpost as [Hpost _].
  assert (Hpre' : i ∉ pre) by (intros ?; eapply Hpre; [done | by left]).
  rewrite restore_walk_app. unfold demand_after.
  pose proof (restore_walk_other P pre ls D i Hpre') as Hi1.
  destruct (restore_walk P pre ls D) as [[ls1 D1] log1]; simpl in *.
  rewrite Hi in Hi1. rewrite Hi1. unfold Load.getRawDemand.
  destruct (f_ge P (f_add D1 (Load.demand l))).
  - pose proof (restore_walk_other P post (<[i := Load.reconnect l]> ls1)
                  (f_add D1 (Load.demand l)) i Hpost) as Hi2.
    destruct (restore_walk P post _ _) as [[ls2 D2] log2]; simpl in *.
    rewrite Hi2. apply list_lookup_insert_eq. by eapply lookup_lt_Some.
  - pose proof (restore_walk_other P post ls1 D1 i Hpost) as Hi2.
    destruct (restore_walk P post ls1 D1) as [[ls2 D2] log2]; simpl in *.
    by rewrite Hi2.
Qed.

(** The demand is counted for exactly the candidates that fit. *)
Lemma demand_after_snoc P pre i ls D l :
  i ∉ pre ->
  ls !! i = Some l ->
  demand_after P D ls (pre ++ [i]) =
    if f_ge P (f_add (demand_after P D ls pre) (Load.demand l))
    then f_add (demand_after P D ls pre) (Load.demand l)
    else demand_after P D ls pre.
Proof.
  intros Hpre Hi. unfold demand_after. rewrite restore_walk_app.
  pose proof (restore_walk_other P pre ls D i Hpre) as Hi1.
  destruct (restore_walk P pre ls D) as [[ls1 D1] log1]; simpl in *.
  rewrite Hi in Hi1. rewrite Hi1. unfold Load.getRawDemand.
  by destruct (f_ge P (f_add D1 (Load.demand l))).
Qed.

End Restore.

(** ** One cycle, branch by branch *)

Section Cycle.
Context {F : Type} `{FloatOps F} `{StdSort}.
Implicit Types (br : BreakerMap) (ls : list (Load.t F)) (P D : F).
Implicit Types (g : GridManager F) (draws : nat -> Z).

Lemma cycle_breakers_touched draws g :
  only_touched (breakers g) (cycle_breakers draws g).
Proof.
  unfold cycle_breakers.
  eapply only_touched_trans; [apply source_pass_touched | apply load_pass_touched].
Qed.

Lemma simulate_totals draws g :
  totalPower (simulate draws g).2 = cycle_power draws g /\
  totalDemand (simulate draws g).2 = cycle_demand draws g.
Proof.
  unfold simulate, cycle_power, cycle_demand.
  destruct (source_pass draws 0%nat (sources g) (breakers g) f_zero)
    as [[srcs1 br1] P]; simpl.
  destruct (load_pass (loads g) br1 f_zero) as [br2 D]; simpl.
  destruct (f_lt P D).
  - by destruct (shed_walk P _ (loads g) br2 D) as [[[ls3 br3] D3] log].
  - by destruct (restore_walk P _ (loads g) D) as [[ls3 D3] log].
Qed.

Lemma simulate_faults draws g : faults (simulate draws g).1 = faults g.
Proof.
  unfold simulate.
  destruct (source_pass draws 0%nat (sources g) (breakers g) f_zero)
    as [[srcs1 br1] P].
  destruct (load_pass (loads g) br1 f_zero) as [br2 D].
  destruct (f_lt P D).
  - by destruct (shed_walk P _ (loads g) br2 D) as [[[ls3 br3] D3] log].
  - by destruct (restore_walk P _ (loads g) D) as [[ls3 D3] log].
Qed.

Lemma simulate_deficit draws g :
  f_lt (cycle_power draws g) (cycle_demand draws g) = true ->
  forall ls3 br3 D3 log,
    shed_walk (cycle_power draws g) (shed_candidates (loads g)) (loads g)
      (cycle_breakers draws g) (cycle_demand draws g) = (ls3, br3, D3, log) ->
    simulate draws g =
      (mkGrid (cycle_sources draws g) ls3 br3 (faults g),
       mkReport (cycle_power draws g) (cycle_demand draws g) log []
         (fault_order (faults g)) D3).
Proof.
  unfold simulate, cycle_power, cycle_demand, cycle_breakers, cycle_sources.
  destruct (source_pass draws 0%nat (sources g) (breakers g) f_zero)
    as [[srcs1 br1] P]; simpl.
  destruct (load_pass (loads g) br1 f_zero) as [br2 D]; simpl.
  intros -> ls3 br3 D3 log ->. done.
Qed.

Lemma simulate_surplus draws g :
  f_lt (cycle_power draws g) (cycle_demand draws g) = false ->
  forall ls3 D3 log,
    restore_walk (cycle_power draws g)
      (restore_candidates (loads g) (cycle_breakers draws g)) (loads g)
      (cycle_demand draws g) = (ls3, D3, log) ->
    simulate draws g =
      (mkGrid (cycle_sources draws g) ls3
         (collect_disconnected 0%nat (loads g) (cycle_breakers draws g)).2
         (faults g),
       mkReport (cycle_power draws g) (cycle_demand draws g) [] log
         (fault_order (faults g)) D3).
Proof.
  unfold simulate, cycle_power, cycle_demand, cycle_breakers, cycle_sources.
  destruct (source_pass draws 0%nat (sources g) (breakers g) f_zero)
    as [[srcs1 br1] P]; simpl.
  destruct (load_pass (loads g) br1 f_zero) as [br2 D]; simpl.
  intros -> ls3 D3 log ->. done.
Qed.

(** The registry after a cycle that took the surplus branch holds what
    it held before. *)
Lemma surplus_breakers_touched draws g :
  only_touched (breakers g)
    (collect_disconnected 0%nat (loads g) (cycle_breakers draws g)).2.
Proof.
  eapply only_touched_trans;
    [apply cycle_breakers_touched | apply collect_disconnected_touched].
Qed.

(** The loads and the registry after a cycle, in both branches. *)
Lemma simulate_shape draws g :
  let g' := (simulate draws g).1 in
  (exists shed,
     (forall i, i ∈ shed ->
        exists l, loads g !! i = Some l /\ Load.connected l = true) /\
     loads g' = disconnect_all shed (loads g) /\
     breakers g' = trip_all (name_at (loads g) <$> shed) (cycle_breakers draws g))
  \/
  (f_lt (cycle_power draws g) (cycle_demand draws g) = false /\
   loads g' = (restore_walk (cycle_power draws g)
                 (restore_candidates (loads g) (cycle_breakers draws g))
                 (loads g) (cycle_demand draws g)).1.1 /\
   breakers g' = (collect_disconnected 0%nat (loads g) (cycle_breakers draws g)).2).
Proof.
  intros g'. subst g'.
  destruct (f_lt (cycle_power draws g) (cycle_demand draws g)) eqn:Hlt.
  - left.
    destruct (shed_walk_spec (cycle_power draws g) (shed_candidates (loads g))
                (loads g) (cycle_breakers draws g) (cycle_demand draws g))
      as (shed & rest & Hstop & Hwalk).
    { intros i [l [Hl _]]%shed_candidates_elem. by eapply lookup_lt_Some. }
    rewrite (simulate_deficit draws g Hlt _ _ _ _ Hwalk). simpl.
    exists shed. split; [| done].
    intros i Hi. apply shed_candidates_elem.
    rewrite (stop_split _ _ _ _ _ _ Hstop). apply elem_of_app. by left.
  - right. split; [done |].
    destruct (restore_walk (cycle_power draws g)
                (restore_candidates (loads g) (cycle_breakers draws g))
                (loads g) (cycle_demand draws g)) as [[ls3 D3] log] eqn:Hwalk.
    by rewrite (simulate_surplus draws g Hlt _ _ _ Hwalk).
Qed.

Lemma simulate_keeps_tripped draws g k :
  is_tripped (breakers g) k = true ->
  is_tripped (breakers (simulate draws g).1) k = true.
Proof.
  intros Hk.
  destruct (simulate_shape draws g) as [(shed & _ & _ & ->) | (_ & _ & ->)].
  - apply trip_all_mono.
    by rewrite (only_touched_tripped _ _ _ (cycle_breakers_touched draws g)).
  - by rewrite (only_touched_tripped _ _ _ (surplus_breakers_touched draws g)).
Qed.

(** An entry of the registry survives a cycle under its key and with its
    id; it is the same entry if it was tripped, or if no load bears its
    name. *)
Lemma simulate_keeps_entry draws g k b :
  breakers g !! k = Some b ->
  exists b', breakers (simulate draws g).1 !! k = Some b' /\
             Breaker.id b' = Breaker.id b /\
             (Breaker.tripped b = true -> b' = b) /\
             ((forall l, l ∈ loads g -> Load.name l <> k) -> b' = b).
Proof.
  intros Hk.
  pose proof (only_touched_lookup _ _ _ _ (cycle_breakers_touched draws g) Hk) as Hk2.
  assert (Hget : br_get (cycle_breakers draws g) k = b)
    by (unfold br_get; by rewrite Hk2).
  destruct (simulate_shape draws g) as [(shed & Hshed & _ & ->) | (_ & _ & ->)].
  - eexists. split; [by eapply trip_all_lookup |].
    pose proof (trip_all_id (name_at (loads g) <$> shed) (cycle_breakers draws g) k)
      as Hid.
    rewrite Hget in Hid. split; [done |]. split.
    + intros Htr.
      pose proof (trip_all_mono (name_at (loads g) <$> shed)
                    (cycle_breakers draws g) k) as Hmono.
      unfold is_tripped, Breaker.isTripped in Hmono. rewrite Hget in Hmono.
      specialize (Hmono Htr).
      destruct (br_get (trip_all _ _) k) as [i' t'], b as [i t]; simpl in *.
      congruence.
    + intros Hfree. rewrite trip_all_notin; [done |].
      intros (i & Hi & Hin)%list_elem_of_fmap.
      destruct (Hshed i Hin) as (l & Hl & _).
      apply (Hfree l); [by eapply list_elem_of_lookup_2 |].
      unfold name_at in Hi. by rewrite Hl in Hi.
  - exists b. split; [| done].
    by eapply only_touched_lookup; [apply collect_disconnected_touched |].
Qed.

Lemma simulate_no_contradiction draws g :
  NoDup (Load.name <$> loads g) ->
  no_contradiction g -> no_contradiction (simulate draws g).1.
Proof.
  intros Hnd Hinv l' [i Hi]%list_elem_of_lookup_1 Hc.
  destruct (simulate_shape draws g) as [(shed & Hshed & Hls & Hbr) | (_ & Hls & Hbr)];
    rewrite Hls in Hi; rewrite Hbr.
  - rewrite disconnect_all_lookup in Hi.
    destruct (decide (i ∈ shed)) as [Hin | Hout].
    { destruct (loads g !! i) as [l |]; simpl in Hi; [| done].
      injection Hi as <-. done. }
    unfold is_tripped. rewrite trip_all_notin.
    + rewrite (only_touched_get _ _ _ (cycle_breakers_touched draws g)).
      apply Hinv; [by eapply list_elem_of_lookup_2 | done].
    + intros (j & Hj & Hjin)%list_elem_of_fmap.
      destruct (Hshed j Hjin) as (lj & Hlj & _).
      unfold name_at in Hj. rewrite Hlj in Hj.
      assert (i = j); [| by subst].
      eapply NoDup_lookup; [exact Hnd | |]; rewrite list_lookup_fmap.
      * by rewrite Hi.
      * rewrite Hlj. simpl. by rewrite Hj.
  - apply restore_walk_lookup in Hi as (l & Hl & Hcase).
    rewrite (only_touched_tripped _ _ _ (surplus_breakers_touched draws g)).
    destruct Hcase as [-> | [-> Hin]].
    + apply Hinv; [by eapply list_elem_of_lookup_2 | done].
    + apply restore_candidates_elem in Hin as (l0 & Hl0 & _ & Htr).
      rewrite Hl in Hl0. injection Hl0 as <-.
      by rewrite (only_touched_tripped _ _ _ (cycle_breakers_touched draws g)) in Htr.
Qed.

(** A load that a cycle finds disconnected and leaves connected was a
    candidate of the surplus branch and passed the capacity test. *)
Lemma simulate_reconnected draws g i l l' :
  loads g !! i = Some l -> Load.connected l = false ->
  loads (simulate draws g).1 !! i = Some l' -> Load.connected l' = true ->
  f_lt (cycle_power draws g) (cycle_demand draws g) = false /\
  exists pre post,
    restore_candidates (loads g) (cycle_breakers draws g) = pre ++ i :: post /\
    f_ge (cycle_power draws g)
      (f_add (demand_after (cycle_power draws g) (cycle_demand draws g)
                (loads g) pre) (Load.demand l)) = true.
Proof.
  intros Hl Hc Hl' Hc'.
  destruct (simulate_shape draws g) as [(shed & _ & Hls & _) | (Hlt & Hls & _)];
    rewrite Hls in Hl'.
  - rewrite disconnect_all_lookup, Hl in Hl'.
    destruct (decide (i ∈ shed)); simpl in Hl'; injection Hl' as <-;
      simpl in *; congruence.
  - split; [done |].
    pose proof Hl' as Hlook.
    apply restore_walk_lookup in Hlook as (l0 & Hl0 & Hcase).
    rewrite Hl in Hl0. injection Hl0 as <-.
    destruct Hcase as [-> | [-> Hin]]; [congruence |].
    destruct (list_elem_of_split _ _ Hin) as (pre & post & Hsplit).
    exists pre, post. split; [done |].
    pose proof (restore_candidates_NoDup (loads g) (cycle_breakers draws g)) as Hnd.
    rewrite Hsplit in Hnd, Hl'.
    rewrite (restore_walk_at _ pre i post (loads g) _ l Hnd Hl) in Hl'.
    destruct (f_ge _ _); [done |].
    injection Hl' as Heq. rewrite <- Heq in Hc'. simpl in Hc'. congruence.
Qed.

End Cycle.

(** ** When the sort does not matter *)

Section Determined.
Context {F : Type} `{FloatOps F}.
Implicit Types (br : BreakerMap) (ls : list (Load.t F)) (P D : F).
Implicit Types (g : GridManager F) (draws : nat -> Z).

Lemma priority_at_inj ls i j li lj :
  NoDup (Load.priority <$> ls) ->
  ls !! i = Some li -> ls !! j = Some lj ->
  priority_at ls i = priority_at ls j -> i = j.
Proof.
  intros Hnd Hi Hj Heq. unfold priority_at in Heq. rewrite Hi, Hj in Heq.
  eapply NoDup_lookup; [exact Hnd | |]; rewrite list_lookup_fmap.
  - by rewrite Hi.
  - rewrite Hj. simpl. unfold Load.getPriority in Heq. by rewrite Heq.
Qed.

Lemma shed_candidates_determined (S1 S2 : StdSort) ls :
  NoDup (Load.priority <$> ls) ->
  @shed_candidates F S1 ls = @shed_candidates F S2 ls.
Proof.
  intros Hnd. unfold shed_candidates.
  apply sort_determined; [apply shed_comp_swo |].
  intros x y Hx Hy Hxy Hyx.
  apply collect_connected_spec in Hx as (_ & lx & Hlx & _).
  apply collect_connected_spec in Hy as (_ & ly & Hly & _).
  rewrite Nat.sub_0_r in Hlx, Hly.
  unfold shed_comp in *. apply Z.ltb_ge in Hxy, Hyx.
  eapply priority_at_inj; [done.. | lia].
Qed.

Lemma restore_candidates_determined (S1 S2 : StdSort) ls br :
  NoDup (Load.priority <$> ls) ->
  @restore_candidates F S1 ls br = @restore_candidates F S2 ls br.
Proof.
  intros Hnd. unfold restore_candidates.
  apply sort_determined; [apply restore_comp_swo |].
  intros x y Hx Hy Hxy Hyx.
  apply collect_disconnected_spec in Hx as (_ & lx & Hlx & _).
  apply collect_disconnected_spec in Hy as (_ & ly & Hly & _).
  rewrite Nat.sub_0_r in Hlx, Hly.
  unfold restore_comp in *. apply Z.ltb_ge in Hxy, Hyx.
  eapply priority_at_inj; [done.. | lia].
Qed.

(** With pairwise distinct priorities the two sorts of a cycle have one
    possible result each. *)
Lemma simulate_determined (S1 S2 : StdSort) draws g :
  NoDup (Load.priority <$> loads g) ->
  @simulate F _ S1 draws g = @simulate F _ S2 draws g.
Proof.
  intros Hnd. unfold simulate.
  destruct (source_pass draws 0%nat (sources g) (breakers g) f_zero)
    as [[srcs1 br1] P].
  destruct (load_pass (loads g) br1 f_zero) as [br2 D].
  by rewrite (shed_candidates_determined S1 S2),
             (restore_candidates_determined S1 S2).
Qed.

(** A grid of at most sixteen loads never takes the sort of GCC's library
    past its insertion sort: that build runs the cycle as the stable
    sort does, ties included. *)
Lemma collect_connected_length i ls :
  (length (collect_connected i ls) <= length ls)%nat.
Proof.
  revert i. induction ls as [| l ls IH]; intros i; simpl; [done |].
  destruct (Load.isConnected l); simpl; specialize (IH (S i)); lia.
Qed.

Lemma collect_disconnected_length i ls br :
  (length (collect_disconnected i ls br).1 <= length ls)%nat.
Proof.
  revert i br. induction ls as [| l ls IH]; intros i br; simpl; [done |].
  destruct (Load.isConnected l).
  - specialize (IH (S i) br). lia.
  - specialize (IH (S i) (br_touch br (Load.getName l))).
    destruct (collect_disconnected (S i) ls (br_touch br (Load.getName l)))
      as [ptrs br2].
    destruct (is_tripped br (Load.getName l)); simpl in *; lia.
Qed.

Lemma simulate_libstdcxx_small draws g :
  (length (loads g) <= 16)%nat ->
  @simulate F _ libstdcxx draws g = @simulate F _ keeping_sort draws g.
Proof.
  intros Hlen. unfold simulate.
  destruct (source_pass draws 0%nat (sources g) (breakers g) f_zero)
    as [[srcs1 br1] P].
  destruct (load_pass (loads g) br1 f_zero) as [br2 D].
  assert (Hshed : @shed_candidates F libstdcxx (loads g)
                  = @shed_candidates F keeping_sort (loads g)).
  { unfold shed_candidates. simpl.
    apply libstdcxx_sort_small; [apply shed_comp_swo |].
    pose proof (collect_connected_length 0 (loads g)).
    unfold S_threshold. lia. }
  assert (Hrestore : @restore_candidates F libstdcxx (loads g) br2
                     = @restore_candidates F keeping_sort (loads g) br2).
  { unfold restore_candidates. simpl.
    apply libstdcxx_sort_small; [apply restore_comp_swo |].
    pose proof (collect_disconnected_length 0 (loads g) br2).
    unfold S_threshold. lia. }
  by rewrite Hshed, Hrestore.
Qed.

End Determined.

(** ** Indices *)

Lemma fault_order_elem (X : gset string) (n : string) :
  n ∈ fault_order X <-> n ∈ X.
Proof.
  unfold fault_order. by rewrite merge_sort_Permutation, elem_of_elements.
Qed.

Lemma fault_order_length (X : gset string) : length (fault_order X) = size X.
Proof. unfold fault_order. by rewrite merge_sort_Permutation. Qed.

Lemma vec_at_in_range {A} (v : list A) (i : Z) :
  0 <= i < Z.of_nat (length v) ->
  exists x, v !! Z.to_nat i = Some x /\ vec_at v i = Some x.
Proof.
  intros Hi. destruct (lookup_lt_is_Some_2 v (Z.to_nat i)) as [x Hx]; [lia |].
  exists x. split; [done |]. unfold vec_at.
  destruct (0 <=? i) eqn:H0; [| apply Z.leb_gt in H0; lia].
  destruct (i <? Z.of_nat (length v)) eqn:H1; [done | apply Z.ltb_ge in H1; lia].
Qed.

Lemma vec_at_out_of_range {A} (v : list A) (i : Z) :
  i < 0 \/ Z.of_nat (length v) <= i -> vec_at v i = None.
Proof.
  intros Hi. unfold vec_at.
  destruct (0 <=? i) eqn:H0; [| done].
  destruct (i <? Z.of_nat (length v)) eqn:H1; [| done].
  apply Z.leb_le in H0. apply Z.ltb_lt in H1. lia.
Qed.

(** ** Reachable states *)

Section Reach.
Context {F : Type} `{FloatOps F} `{StdSort}.
Implicit Types (br : BreakerMap) (ls : list (Load.t F)) (P D : F).
Implicit Types (g : GridManager F) (draws : nat -> Z).

Lemma reachable_simulate draws g : reachable g -> reachable (simulate draws g).1.
Proof. intros Hg. by apply (reach_step g (RunCycle draws)). Qed.

Lemma reachable_addLoad g l : reachable g -> reachable (addLoad g l).
Proof. intros Hg. by apply (reach_step g (AddLoad l)). Qed.

Lemma reachable_addSource draws g src :
  reachable g -> reachable (addSource draws g src).1.
Proof. intros Hg. by apply (reach_step g (AddSource draws src)). Qed.

Lemma reachable_inject_load g i l :
  loads g !! i = Some l -> reachable g -> reachable (inject_at g (Load.name l)).
Proof.
  intros Hl Hg. apply (reach_step g (InjectFault (SelLoad (Z.of_nat i)))); [done |].
  simpl. unfold vec_at. rewrite Nat2Z.id, Hl.
  apply lookup_lt_Some in Hl.
  destruct (0 <=? Z.of_nat i) eqn:Hlo; [| apply Z.leb_gt in Hlo; lia].
  destruct (Z.of_nat i <? Z.of_nat (length (loads g))) eqn:Hhi;
    [done | apply Z.ltb_ge in Hhi; lia].
Qed.

Lemma reachable_inject_source g i s :
  sources g !! i = Some s -> reachable g -> reachable (inject_at g (Source.name s)).
Proof.
  intros Hs Hg. apply (reach_step g (InjectFault (SelSource (Z.of_nat i)))); [done |].
  simpl. unfold vec_at. rewrite Nat2Z.id, Hs.
  apply lookup_lt_Some in Hs.
  destruct (0 <=? Z.of_nat i) eqn:Hlo; [| apply Z.leb_gt in Hlo; lia].
  destruct (Z.of_nat i <? Z.of_nat (length (sources g))) eqn:Hhi;
    [done | apply Z.ltb_ge in Hhi; lia].
Qed.

Lemma faults_tripped_simulate draws g :
  faults_tripped g -> faults_tripped (simulate draws g).1.
Proof.
  intros Hinv k Hk. rewrite simulate_faults in Hk.
  by apply simulate_keeps_tripped, Hinv.
Qed.

Lemma faults_tripped_inject g n : faults_tripped g -> faults_tripped (inject_at g n).
Proof.
  intros Hinv k Hk. simpl in *.
  apply elem_of_union in Hk as [Hk | ->%elem_of_singleton].
  - by apply is_tripped_trip_mono, Hinv.
  - apply is_tripped_trip_eq.
Qed.

Lemma faults_tripped_clear g n : faults_tripped g -> faults_tripped (clear_fault g n).
Proof.
  intros Hinv k Hk. simpl in *.
  apply elem_of_difference in Hk as [Hk Hne%not_elem_of_singleton].
  unfold is_tripped. rewrite br_get_reset_ne by done. by apply Hinv.
Qed.

Lemma faults_tripped_run g c g' :
  faults_tripped g -> run g c = Done g' -> faults_tripped g'.
Proof.
  intros Hinv Hrun. destruct c; simpl in Hrun.
  - injection Hrun as <-. by apply faults_tripped_simulate.
  - unfold injectManualFault in Hrun. destruct sel as [i | i |].
    + destruct (vec_at (loads g) i); [| done]. injection Hrun as <-.
      by apply faults_tripped_inject.
    + destruct (vec_at (sources g) i); [| done]. injection Hrun as <-.
      by apply faults_tripped_inject.
    + injection Hrun as <-. by apply faults_tripped_inject.
  - unfold resolveManualFault_steps in Hrun.
    destruct (vec_at (fault_order (faults g)) index); [| done].
    injection Hrun as <-.
    by apply faults_tripped_simulate, faults_tripped_clear.
  - unfold disconnectLoad in Hrun. destruct (loads g !! index); [| done].
    by injection Hrun as <-.
  - unfold reconnectLoad in Hrun. destruct (loads g !! index); [| done].
    by injection Hrun as <-.
  - injection Hrun as <-. intros k Hk. simpl in *.
    rewrite is_tripped_emplace. by apply Hinv.
  - injection Hrun as <-. apply faults_tripped_simulate.
    intros k Hk. simpl in *. rewrite is_tripped_emplace. by apply Hinv.
Qed.

Lemma reachable_faults_tripped g : reachable g -> faults_tripped g.
Proof.
  induction 1 as [| g c g' _ IH Hrun].
  - intros k Hk. by apply elem_of_empty in Hk.
  - by eapply faults_tripped_run.
Qed.

End Reach.

Lemma demo_grid_reachable : reachable demo_grid.
Proof.
  unfold demo_grid.
  by repeat (apply reachable_addLoad || apply reachable_addSource
             || apply reach_start).
Qed.

(** * The claims *)

Section Claim1.
Context {F : Type} `{FloatOps F} `{StdSort}.
Implicit Types (br : BreakerMap) (ls : list (Load.t F)) (P D : F).
Implicit Types (g : GridManager F) (draws : nat -> Z).

(** C1 (as amended).  In a cycle that enters the deficit branch
    ([totalPower < totalDemand]) the shedding candidates are the connected
    loads, each once, in an order of non-increasing priority value; how
    loads of equal priority are ordered is left to [std::sort].  The
    engine walks this list: there is a prefix [shed] of it, non-empty
    whenever there is a candidate, whose loads are disconnected (the
    flag [connected] is false afterwards, name, demand and priority are
    kept) and whose breakers are tripped, every other load and breaker
    being left as it was; the demands of [shed] are subtracted from
    [totalDemand] one by one, the test [totalPower >= totalDemand] fails
    after each load of [shed] but the last, and holds after the last one
    unless the list is exhausted. *)
Theorem C1_deficit_sheds_by_priority draws g :
  let g' := (simulate draws g).1 in
  let r := (simulate draws g).2 in
  let cands := shed_candidates (loads g) in
  f_lt (totalPower r) (totalDemand r) = true ->
  (forall i, i ∈ cands <->
     exists l, loads g !! i = Some l /\ Load.connected l = true) /\
  NoDup cands /\
  StronglySorted
    (fun i j => priority_at (loads g) j <= priority_at (loads g) i) cands /\
  exists shed rest,
    stops_at (totalPower r) (totalDemand r) (loads g) cands shed rest /\
    (forall i, loads g' !! i =
       if decide (i ∈ shed)
       then (fun l => Load.mk (Load.name l) (Load.demand l) false
                        (Load.priority l)) <$> loads g !! i
       else loads g !! i) /\
    (forall i, i ∈ shed ->
       is_tripped (breakers g') (name_at (loads g) i) = true) /\
    (forall k, k ∉ name_at (loads g) <$> shed ->
       br_get (breakers g') k = br_get (breakers g) k) /\
    finalDemand r = sub_all (totalDemand r) (demand_at (loads g) <$> shed) /\
    trippedLoads r = name_at (loads g) <$> shed.
Proof.
  intros g' r cands Hlt.
  destruct (simulate_totals draws g) as [HP HD].
  fold r in HP, HD. rewrite HP, HD in *.
  split; [apply shed_candidates_elem |].
  split; [apply shed_candidates_NoDup |].
  split; [apply shed_candidates_sorted |].
  destruct (shed_walk_spec (cycle_power draws g) cands (loads g)
              (cycle_breakers draws g) (cycle_demand draws g))
    as (shed & rest & Hstop & Hwalk).
  { intros i [l [Hl _]]%shed_candidates_elem. by eapply lookup_lt_Some. }
  pose proof (simulate_deficit draws g Hlt _ _ _ _ Hwalk) as Hsim.
  exists shed, rest. subst g' r. rewrite Hsim. simpl.
  split; [done |].
  split; [apply disconnect_all_lookup |].
  split.
  { intros i Hi. apply trip_all_in. by apply list_elem_of_fmap_2. }
  split; [| done].
  intros k Hk. rewrite trip_all_notin by done.
  apply only_touched_get, cycle_breakers_touched.
Qed.

End Claim1.

(** C1, as stated, fails: the program sorts with [std::sort], which
    does not keep loads of equal priority in registration order.  On
    [tied_grid], with the sort of GCC's library, a cycle sheds fourteen
    of the seventeen loads of priority 5, beginning with N7 and N16; the
    three it leaves connected are the three registered first, N0, N1 and
    N2, which the claim has shed first.  The stable order the claim
    describes begins with N0. *)
Lemma C1_counterexample :
  let g := tied_grid in
  let r := (@simulate Z _ libstdcxx draws0 g).2 in
  let g' := (@simulate Z _ libstdcxx draws0 g).1 in
  f_lt (totalPower r) (totalDemand r) = true /\
  Load.priority <$> loads g =
    [2; 1; 3; 5; 5; 5; 5; 5; 5; 5; 5; 5; 5; 5; 5; 5; 5; 5; 5; 5] /\
  name_at (loads g) <$> @shed_candidates Z keeping_sort (loads g) =
    ["N0"; "N1"; "N2"; "N3"; "N4"; "N5"; "N6"; "N7"; "N8"; "N9"; "N10";
     "N11"; "N12"; "N13"; "N14"; "N15"; "N16";
     "Shop-C"; "Factory-A"; "House-B"] /\
  name_at (loads g) <$> @shed_candidates Z libstdcxx (loads g) =
    ["N7"; "N16"; "N15"; "N14"; "N13"; "N12"; "N11"; "N10"; "N9"; "N8";
     "N6"; "N5"; "N4"; "N3"; "N2"; "N1"; "N0";
     "Shop-C"; "Factory-A"; "House-B"] /\
  trippedLoads r =
    ["N7"; "N16"; "N15"; "N14"; "N13"; "N12"; "N11"; "N10"; "N9"; "N8";
     "N6"; "N5"; "N4"; "N3"] /\
  Load.name <$> filter (fun l => Load.connected l = true) (loads g') =
    ["Factory-A"; "House-B"; "Shop-C"; "N0"; "N1"; "N2"].
Proof. repeat split; vm_compute; reflexivity. Qed.

Lemma C1_witness :
  let g := inject_at demo_grid "HydroStation" in
  let r := (simulate draws0 g).2 in
  let g' := (simulate draws0 g).1 in
  f_lt (totalPower r) (totalDemand r) = true /\
  NoDup (shed_candidates (loads g)) /\
  trippedLoads r = ["Shop-C"; "Factory-A"; "House-B"] /\
  loads g' =
    [Load.mk "Factory-A" 30 false 2; Load.mk "House-B" 15 false 1;
     Load.mk "Shop-C" 10 false 3].
Proof.
  assert (Hlt : f_lt (totalPower (simulate draws0 (inject_at demo_grid "HydroStation")).2)
                  (totalDemand (simulate draws0 (inject_at demo_grid "HydroStation")).2)
                = true) by (vm_compute; reflexivity).
  split; [exact Hlt |].
  split; [exact (proj1 (proj2 (C1_deficit_sheds_by_priority draws0
                         (inject_at demo_grid "HydroStation") Hlt))) |].
  split; vm_compute; reflexivity.
Defined.

Section Claim2.
Context {F : Type} `{FloatOps F} `{StdSort}.
Implicit Types (br : BreakerMap) (ls : list (Load.t F)) (P D : F).
Implicit Types (g : GridManager F) (draws : nat -> Z).

(** C2.  In a cycle that enters the surplus/balanced branch (the test
    [totalPower < totalDemand] fails) the reconnection candidates are the
    loads that are disconnected and whose breaker is not tripped, each
    once, in an order of non-decreasing priority value.  A candidate [i]
    that follows the candidates [pre] is reconnected exactly when
    [totalPower >= totalDemand + demand] holds for the value [totalDemand]
    has at that point, and only then is its demand added; a candidate
    that does not fit stays disconnected whatever happens later in the
    pass.  The value [totalDemand] has before the first candidate is the
    demand the cycle reports.  A reconnected load has the flag
    [connected] true and its name, demand and priority as before; loads
    that are not candidates are left as they were. *)
Theorem C2_surplus_reconnects_by_priority draws g :
  let g' := (simulate draws g).1 in
  let r := (simulate draws g).2 in
  let cands := restore_candidates (loads g) (cycle_breakers draws g) in
  f_lt (totalPower r) (totalDemand r) = false ->
  (forall i, i ∈ cands <->
     exists l, loads g !! i = Some l /\ Load.connected l = false /\
               is_tripped (breakers g) (Load.name l) = false) /\
  NoDup cands /\
  StronglySorted
    (fun i j => priority_at (loads g) i <= priority_at (loads g) j) cands /\
  (forall pre i post l,
     cands = pre ++ i :: post ->
     loads g !! i = Some l ->
     let D := demand_after (totalPower r) (totalDemand r) (loads g) pre in
     let fits := f_ge (totalPower r) (f_add D (Load.demand l)) in
     loads g' !! i =
       Some (if fits
             then Load.mk (Load.name l) (Load.demand l) true (Load.priority l)
             else l) /\
     demand_after (totalPower r) (totalDemand r) (loads g) (pre ++ [i]) =
       (if fits then f_add D (Load.demand l) else D)) /\
  demand_after (totalPower r) (totalDemand r) (loads g) [] = totalDemand r /\
  (forall j, j ∉ cands -> loads g' !! j = loads g !! j) /\
  finalDemand r = demand_after (totalPower r) (totalDemand r) (loads g) cands.
Proof.
  intros g' r cands Hlt.
  destruct (simulate_totals draws g) as [HP HD].
  fold r in HP, HD. rewrite HP, HD in *.
  pose proof (restore_candidates_NoDup (loads g) (cycle_breakers draws g)) as Hnd.
  fold cands in Hnd.
  assert (Hsim : simulate draws g =
            (mkGrid (cycle_sources draws g)
               (restore_walk (cycle_power draws g) cands (loads g)
                  (cycle_demand draws g)).1.1
               (collect_disconnected 0%nat (loads g) (cycle_breakers draws g)).2
               (faults g),
             mkReport (cycle_power draws g) (cycle_demand draws g) []
               (restore_walk (cycle_power draws g) cands (loads g)
                  (cycle_demand draws g)).2
               (fault_order (faults g))
               (restore_walk (cycle_power draws g) cands (loads g)
                  (cycle_demand draws g)).1.2)).
  { apply (simulate_surplus draws g Hlt).
    by destruct (restore_walk _ _ _ _) as [[? ?] ?]. }
  subst g' r. rewrite Hsim. simpl.
  split.
  { intros i. unfold cands. rewrite restore_candidates_elem.
    split; intros (l & ? & ? & Htr); exists l; (split; [done |]); (split; [done |]).
    - by rewrite <- (only_touched_tripped _ _ _ (cycle_breakers_touched draws g)).
    - by rewrite (only_touched_tripped _ _ _ (cycle_breakers_touched draws g)). }
  split; [done |].
  split; [apply restore_candidates_sorted |].
  split.
  { intros pre i post l Hsplit Hl. rewrite Hsplit in Hnd |- *. split.
    - by apply (restore_walk_at (cycle_power draws g) pre i post (loads g)
                  (cycle_demand draws g) l).
    - apply demand_after_snoc; [| done].
      apply NoDup_app in Hnd as (_ & Hpre & _).
      intros ?. eapply Hpre; [done | by left]. }
  split; [done |].
  split; [| done].
  intros j Hj. by apply restore_walk_other.
Qed.

End Claim2.

Lemma C2_witness :
  let g := three_off_grid in
  let r := (simulate draws0 g).2 in
  let g' := (simulate draws0 g).1 in
  f_lt (totalPower r) (totalDemand r) = false /\
  restore_candidates (loads g) (cycle_breakers draws0 g) = [1; 3; 2]%nat /\
  loads g' !! 1%nat = Some (Load.mk "House-B" 15 true 1) /\
  loads g' !! 3%nat = Some (Load.mk "Mall-D" 40 false 2) /\
  loads g' !! 2%nat = Some (Load.mk "Shop-C" 10 true 3) /\
  totalDemand r = 30 /\ finalDemand r = 55.
Proof.
  intros g r g'. subst r g'.
  assert (Hlt : f_lt (totalPower (simulate draws0 g).2)
                  (totalDemand (simulate draws0 g).2) = false)
    by (vm_compute; reflexivity).
  assert (Hc : restore_candidates (loads g) (cycle_breakers draws0 g)
               = [1; 3; 2]%nat) by (vm_compute; reflexivity).
  destruct (C2_surplus_reconnects_by_priority draws0 g Hlt)
    as (_ & _ & _ & Hstep & _ & _ & _).
  split; [exact Hlt |]. split; [exact Hc |].
  split; [| split; [| split]].
  - rewrite (proj1 (Hstep [] 1%nat [3; 2]%nat (Load.disconnect house) Hc eq_refl)).
    vm_compute; reflexivity.
  - rewrite (proj1 (Hstep [1%nat] 3%nat [2%nat]
                      (Load.disconnect (Load.new "Mall-D" 40 2)) Hc eq_refl)).
    vm_compute; reflexivity.
  - rewrite (proj1 (Hstep [1; 3]%nat 2%nat []
                      (Load.disconnect shop) Hc eq_refl)).
    vm_compute; reflexivity.
  - split; vm_compute; reflexivity.
Defined.

Section Claim3.
Context {F : Type} `{FloatOps F} `{StdSort}.
Implicit Types (br : BreakerMap) (ls : list (Load.t F)) (P D : F).
Implicit Types (g : GridManager F) (draws : nat -> Z).

(** C3 (as amended).  A cycle run from a state whose loads bear pairwise
    distinct names and in which no load is both connected and
    breaker-tripped ends in a state in which no load is both connected
    and breaker-tripped. *)
Theorem C3_cycle_preserves_no_contradiction draws g :
  NoDup (Load.name <$> loads g) ->
  (forall l, l ∈ loads g -> Load.connected l = true ->
             is_tripped (breakers g) (Load.name l) = false) ->
  forall l, l ∈ loads (simulate draws g).1 -> Load.connected l = true ->
            is_tripped (breakers (simulate draws g).1) (Load.name l) = false.
Proof. intros Hnd Hinv. by apply simulate_no_contradiction. Qed.

End Claim3.

(** C3, as stated, fails: with a fault injected at a connected load, a
    cycle in the surplus branch leaves that load connected and its
    breaker tripped. *)
Lemma C3_counterexample :
  reachable faulted_load_grid /\
  exists l, l ∈ loads (simulate draws0 faulted_load_grid).1 /\
            Load.connected l = true /\
            is_tripped (breakers (simulate draws0 faulted_load_grid).1)
              (Load.name l) = true.
Proof.
  split.
  - apply (reachable_inject_load demo_grid 0 factory);
      [reflexivity | apply demo_grid_reachable].
  - exists factory. split; [| split].
    + vm_compute. by left.
    + reflexivity.
    + by vm_compute.
Qed.

Lemma C3_witness :
  NoDup (Load.name <$> loads demo_grid) /\
  forall l, l ∈ loads (simulate draws0 demo_grid).1 -> Load.connected l = true ->
            is_tripped (breakers (simulate draws0 demo_grid).1) (Load.name l) = false.
Proof.
  assert (Hnd : NoDup (Load.name <$> loads demo_grid)).
  { by apply (bool_decide_unpack _). }
  split; [exact Hnd |].
  apply (C3_cycle_preserves_no_contradiction draws0 demo_grid Hnd).
  intros l Hl _. vm_compute in Hl.
  repeat (apply elem_of_cons in Hl as [-> | Hl]; [by vm_compute |]).
  by apply elem_of_nil in Hl.
Defined.

Section Claim4.
Context {F : Type} `{FloatOps F} `{StdSort}.
Implicit Types (br : BreakerMap) (ls : list (Load.t F)) (P D : F).
Implicit Types (g : GridManager F) (draws : nat -> Z).

(** C4 (as amended).  The [totalDemand] a cycle reports is the sum of the
    demands, taken in registration order, of the loads that are connected
    and breaker-untripped when the cycle starts; what the cycle then
    sheds or reconnects is not reflected in the reported value. *)
Theorem C4_reported_demand_is_entry_sum draws g :
  totalDemand (simulate draws g).2 =
  sum_demand f_zero (filter (fun l => counted (breakers g) l = true) (loads g)).
Proof.
  destruct (simulate_totals draws g) as [_ ->].
  unfold cycle_demand. apply load_pass_sum, source_pass_touched.
Qed.

End Claim4.

(** C4, as stated, fails: in [small_grid] the cycle reports a demand of
    25 and ends with its running total at -5, while the loads left
    connected and untripped demand 5. *)
Lemma C4_counterexample :
  let g' := (simulate draws0 small_grid).1 in
  let r := (simulate draws0 small_grid).2 in
  reachable small_grid /\
  totalDemand r = 25 /\
  finalDemand r = -5 /\
  sum_demand 0 (filter (fun l => counted (breakers g') l = true) (loads g')) = 5.
Proof.
  split; [| by vm_compute].
  apply (reachable_inject_load _ 0 (Load.new "A" 10 5)); [reflexivity |].
  by repeat (apply reachable_addLoad || apply reachable_addSource
             || apply reach_start).
Qed.

(** C5.  In every reachable state each name in the fault set has a
    tripped breaker.  The converse fails: after automatic shedding the
    breaker of a shed load is tripped and its name is in no fault set. *)
Theorem C5_faulted_implies_tripped :
  (forall (F : Type) (ops : FloatOps F) (srt : StdSort) (g : GridManager F)
          (k : string),
      reachable g -> k ∈ faults g -> is_tripped (breakers g) k = true) /\
  (exists k : string,
      reachable blackout_grid /\
      k ∈ trippedLoads (simulate draws0 (inject_at demo_grid "HydroStation")).2 /\
      is_tripped (breakers blackout_grid) k = true /\
      (k ∉ faults blackout_grid)).
Proof.
  split.
  - intros F ops srt g k Hg Hk. by apply (reachable_faults_tripped g).
  - exists "Shop-C". split; [| split; [| split]].
    + apply reachable_simulate.
      apply (reachable_inject_source demo_grid 0 hydro);
        [reflexivity | apply demo_grid_reachable].
    + vm_compute. by left.
    + by vm_compute.
    + unfold blackout_grid. rewrite simulate_faults. simpl.
      rewrite elem_of_union, elem_of_singleton.
      intros [Hin | Heq]; [| done].
      replace (faults demo_grid) with (∅ : gset string) in Hin by reflexivity.
      by apply not_elem_of_empty in Hin.
Qed.

Section Claim6.
Context {F : Type} `{FloatOps F} `{StdSort}.
Implicit Types (br : BreakerMap) (ls : list (Load.t F)) (P D : F).
Implicit Types (g : GridManager F) (draws : nat -> Z).

(** C6 (a defect of the code).  For an index within the fault set's
    iteration order, fault resolution picks the name [n] at that
    position, resets its breaker and erases it from the fault set,
    touching no load, no source and no other breaker; then it prints the
    erased element through the invalidated iterator (line 219), for which
    no value is defined, and so the call has no defined behaviour: the
    cycle of line 220 is not reached by any run that has one.  The
    statements other than line 219 do what the claim says: they end in a
    cycle on the state with the fault cleared, and a load that was
    disconnected is connected afterwards only if that cycle took the
    surplus branch and admitted it under the capacity test. *)
Theorem C6_resolution_reads_the_erased_fault draws g index :
  0 <= index < Z.of_nat (size (faults g)) ->
  exists n,
    fault_order (faults g) !! Z.to_nat index = Some n /\
    n ∈ faults g /\
    faults (clear_fault g n) = faults g ∖ {[n]} /\
    is_tripped (breakers (clear_fault g n)) n = false /\
    (forall k, k <> n ->
       br_get (breakers (clear_fault g n)) k = br_get (breakers g) k) /\
    loads (clear_fault g n) = loads g /\
    sources (clear_fault g n) = sources g /\
    read_erased n = None /\
    resolveManualFault draws g index = Undefined /\
    resolveManualFault_steps draws g index =
      Done (simulate draws (clear_fault g n)) /\
    (n ∉ faults (simulate draws (clear_fault g n)).1) /\
    forall i l l',
      loads g !! i = Some l -> Load.connected l = false ->
      loads (simulate draws (clear_fault g n)).1 !! i = Some l' ->
      Load.connected l' = true ->
      let r := (simulate draws (clear_fault g n)).2 in
      f_lt (totalPower r) (totalDemand r) = false /\
      exists pre post,
        restore_candidates (loads g) (cycle_breakers draws (clear_fault g n)) =
          pre ++ i :: post /\
        f_ge (totalPower r)
          (f_add (demand_after (totalPower r) (totalDemand r) (loads g) pre)
             (Load.demand l)) = true.
Proof.
  intros Hi. rewrite <- fault_order_length in Hi.
  destruct (vec_at_in_range _ _ Hi) as (n & Hn & Hvec).
  exists n. split; [done |].
  split; [by eapply fault_order_elem, list_elem_of_lookup_2 |].
  split; [done |].
  split; [simpl; unfold is_tripped; by rewrite br_get_reset_eq |].
  split; [intros k Hk; simpl; by apply br_get_reset_ne |].
  split; [done |]. split; [done |]. split; [done |].
  split; [unfold resolveManualFault; by rewrite Hvec |].
  split; [unfold resolveManualFault_steps; by rewrite Hvec |].
  split.
  { rewrite simulate_faults. simpl. rewrite elem_of_difference, elem_of_singleton.
    by intros [_ ?]. }
  intros i l l' Hl Hc Hl' Hc' r. subst r.
  destruct (simulate_totals draws (clear_fault g n)) as [-> ->].
  by apply (simulate_reconnected draws (clear_fault g n) i l l').
Qed.

End Claim6.

(** The failing input: a fault injected at the first load of the demo
    grid and resolved at index 0. *)
Lemma C6_failing_input :
  0 <= 0 < Z.of_nat (size (faults faulted_load_grid)) /\
  fault_order (faults faulted_load_grid) = ["Factory-A"] /\
  resolveManualFault draws0 faulted_load_grid 0 = Undefined.
Proof.
  assert (Hi : 0 <= 0 < Z.of_nat (size (faults faulted_load_grid)))
    by (by vm_compute).
  split; [exact Hi |]. split; [vm_compute; reflexivity |].
  destruct (C6_resolution_reads_the_erased_fault draws0 faulted_load_grid 0 Hi)
    as (n & _ & _ & _ & _ & _ & _ & _ & _ & Hres & _).
  exact Hres.
Defined.

Section Claim7.
Context {F : Type} `{FloatOps F} `{StdSort}.
Implicit Types (br : BreakerMap) (ls : list (Load.t F)) (P D : F).
Implicit Types (g : GridManager F) (draws : nat -> Z).

(** C7.  [addSource] appends the source, creates a breaker for its name
    if there is none, and then runs a cycle on the result; [addLoad]
    appends the load and creates a breaker for its name if there is
    none, and nothing else: the sources, the registered loads with their
    connectivity, every other breaker and the fault set stay as they
    were, and no cycle runs. *)
Theorem C7_registration g :
  (forall draws src,
     addSource draws g src = simulate draws (register_source g src) /\
     sources (register_source g src) = sources g ++ [src] /\
     loads (register_source g src) = loads g /\
     faults (register_source g src) = faults g /\
     (breakers g !! Source.name src = None ->
        breakers (register_source g src) =
          <[Source.name src := Breaker.mk (Source.name src) false]> (breakers g)) /\
     (is_Some (breakers g !! Source.name src) ->
        breakers (register_source g src) = breakers g) /\
     Source.name <$> sources (addSource draws g src).1 =
       (Source.name <$> sources g) ++ [Source.name src]) /\
  (forall l,
     sources (addLoad g l) = sources g /\
     loads (addLoad g l) = loads g ++ [l] /\
     faults (addLoad g l) = faults g /\
     (breakers g !! Load.name l = None ->
        breakers (addLoad g l) =
          <[Load.name l := Breaker.mk (Load.name l) false]> (breakers g)) /\
     (is_Some (breakers g !! Load.name l) -> breakers (addLoad g l) = breakers g) /\
     (forall k, k <> Load.name l -> breakers (addLoad g l) !! k = breakers g !! k)).
Proof.
  split.
  - intros draws src.
    split; [done |]. split; [done |]. split; [done |]. split; [done |].
    split; [by apply br_emplace_absent |].
    split; [by intros [b Hb]; eapply br_emplace_present |].
    unfold addSource, simulate.
    pose proof (source_pass_names draws 0%nat (sources (register_source g src))
                  (breakers (register_source g src)) f_zero) as Hn.
    destruct (source_pass draws 0%nat _ _ f_zero) as [[srcs1 br1] P]; simpl in Hn.
    destruct (load_pass _ br1 f_zero) as [br2 D].
    rewrite fmap_app in Hn. simpl in Hn.
    destruct (f_lt P D).
    + by destruct (shed_walk P _ _ br2 D) as [[[ls3 br3] D3] log].
    + by destruct (restore_walk P _ _ D) as [[ls3 D3] log].
  - intros l.
    split; [done |]. split; [done |]. split; [done |].
    split; [by apply br_emplace_absent |].
    split; [by intros [b Hb]; eapply br_emplace_present |].
    intros k Hk. simpl. unfold br_emplace, Load.getName.
    destruct (breakers g !! Load.name l); [done |].
    by rewrite lookup_insert_ne.
Qed.

End Claim7.

Section Claim8.
Context {F : Type} `{FloatOps F} `{StdSort}.
Implicit Types (br : BreakerMap) (ls : list (Load.t F)) (P D : F).
Implicit Types (g : GridManager F) (draws : nat -> Z).

(** C8 (as amended).  For an index within [loads], manual disconnect and
    manual reconnect set the connectivity flag of that load, to false and
    to true, whatever it was, and change nothing else: no other load, no
    source, no breaker, no fault entry.  The code checks no index: for an
    index outside [loads], and for fault resolution at an index outside
    the fault set, no error is reported and the call has no defined
    behaviour. *)
Theorem C8_manual_switching g index :
  (forall l, loads g !! index = Some l ->
     disconnectLoad g index =
       Done (mkGrid (sources g)
               (<[index := Load.mk (Load.name l) (Load.demand l) false
                             (Load.priority l)]> (loads g))
               (breakers g) (faults g)) /\
     reconnectLoad g index =
       Done (mkGrid (sources g)
               (<[index := Load.mk (Load.name l) (Load.demand l) true
                             (Load.priority l)]> (loads g))
               (breakers g) (faults g))) /\
  ((length (loads g) <= index)%nat ->
     disconnectLoad g index = Undefined /\ reconnectLoad g index = Undefined) /\
  (forall draws i, i < 0 \/ Z.of_nat (size (faults g)) <= i ->
     resolveManualFault draws g i = Undefined).
Proof.
  split; [| split].
  - intros l Hl. unfold disconnectLoad, reconnectLoad. by rewrite Hl.
  - intros Hge. unfold disconnectLoad, reconnectLoad.
    by rewrite (lookup_ge_None_2 _ _ Hge).
  - intros draws i Hi. unfold resolveManualFault.
    rewrite vec_at_out_of_range; [done |]. by rewrite fault_order_length.
Qed.

End Claim8.

(** C8, as stated, fails: an index past the last load, or past the last
    fault, is not answered with an error that leaves the state as it was;
    the access is unchecked. *)
Lemma C8_counterexample :
  length (loads demo_grid) = 3%nat /\
  disconnectLoad demo_grid 3 = Undefined /\
  reconnectLoad demo_grid 3 = Undefined /\
  size (faults demo_grid) = 0%nat /\
  resolveManualFault draws0 demo_grid 0 = Undefined /\
  disconnectLoad demo_grid 3 <> Rejected demo_grid.
Proof.
  assert (Hd : disconnectLoad demo_grid 3 = Undefined) by (by vm_compute).
  split; [by vm_compute |]. split; [exact Hd |].
  split; [by vm_compute |]. split; [by vm_compute |].
  split; [by vm_compute |]. by rewrite Hd.
Qed.

Section Claim9.
Context {F : Type} `{FloatOps F} `{StdSort}.
Implicit Types (br : BreakerMap) (ls : list (Load.t F)) (P D : F).
Implicit Types (g : GridManager F) (draws : nat -> Z).

(** C9.  A cycle resets no breaker: a breaker that is tripped before the
    cycle is tripped after it.  The same holds for every operator command
    but fault resolution. *)
Theorem C9_cycle_never_resets g k :
  is_tripped (breakers g) k = true ->
  (forall draws, is_tripped (breakers (simulate draws g).1) k = true) /\
  (forall c g', is_resolve c = false -> run g c = Done g' ->
                is_tripped (breakers g') k = true).
Proof.
  intros Hk. split; [intros draws; by apply simulate_keeps_tripped |].
  intros c g' Hc Hrun. destruct c; simpl in Hrun; try done.
  - injection Hrun as <-. by apply simulate_keeps_tripped.
  - unfold injectManualFault in Hrun. destruct sel as [i | i |].
    + destruct (vec_at (loads g) i); [| done]. injection Hrun as <-.
      by apply is_tripped_trip_mono.
    + destruct (vec_at (sources g) i); [| done]. injection Hrun as <-.
      by apply is_tripped_trip_mono.
    + injection Hrun as <-. by apply is_tripped_trip_mono.
  - unfold disconnectLoad in Hrun. destruct (loads g !! index); [| done].
    by injection Hrun as <-.
  - unfold reconnectLoad in Hrun. destruct (loads g !! index); [| done].
    by injection Hrun as <-.
  - injection Hrun as <-. simpl. by rewrite is_tripped_emplace.
  - injection Hrun as <-. apply simulate_keeps_tripped. simpl.
    by rewrite is_tripped_emplace.
Qed.

End Claim9.

Lemma C9_witness :
  is_tripped (breakers faulted_load_grid) "Factory-A" = true /\
  is_tripped (breakers (simulate draws0 faulted_load_grid).1) "Factory-A" = true.
Proof.
  split; [reflexivity |].
  apply (C9_cycle_never_resets faulted_load_grid "Factory-A"). reflexivity.
Defined.

Section Claim10.
Context {F : Type} `{FloatOps F} `{StdSort}.
Implicit Types (br : BreakerMap) (ls : list (Load.t F)) (P D : F).
Implicit Types (g : GridManager F) (draws : nat -> Z).

(** C10 (as amended).  When the name of a component being registered
    already has a breaker entry [b], the insertion does nothing:
    [addLoad] leaves the whole registry as it was, and so does
    [addSource] up to the cycle it then runs.  Through that cycle the
    entry keeps its id and is never reset: a tripped entry is the same
    afterwards, and so is any entry whose name no load bears.  A
    component registered under a tripped name is left out of the
    totals: the new source is not simulated and adds no power, the new
    load adds no demand. *)
Theorem C10_collision_keeps_breaker g n b :
  breakers g !! n = Some b ->
  (forall l, Load.name l = n -> breakers (addLoad g l) = breakers g) /\
  (forall src, Source.name src = n ->
     breakers (register_source g src) = breakers g /\
     forall draws, exists b',
       breakers (addSource draws g src).1 !! n = Some b' /\
       Breaker.id b' = Breaker.id b /\
       (Breaker.tripped b = true -> b' = b) /\
       ((forall l, l ∈ loads g -> Load.name l <> n) -> b' = b)) /\
  (Breaker.tripped b = true ->
     (forall src draws, Source.name src = n ->
        totalPower (addSource draws g src).2 = totalPower (simulate draws g).2 /\
        sources (addSource draws g src).1 = sources (simulate draws g).1 ++ [src]) /\
     (forall l draws, Load.name l = n ->
        totalDemand (simulate draws (addLoad g l)).2 =
        totalDemand (simulate draws g).2)).
Proof.
  intros Hb.
  assert (Hreg : forall src, Source.name src = n ->
            breakers (register_source g src) = breakers g).
  { intros src <-. simpl. by eapply br_emplace_present. }
  assert (Hadd : forall l, Load.name l = n -> breakers (addLoad g l) = breakers g).
  { intros l <-. simpl. by eapply br_emplace_present. }
  split; [done |]. split.
  - intros src Hsrc. split; [by apply Hreg |].
    intros draws. unfold addSource.
    apply (simulate_keeps_entry draws (register_source g src) n b).
    by rewrite Hreg.
  - intros Htr.
    assert (Htrn : is_tripped (breakers g) n = true)
      by (unfold is_tripped, br_get; by rewrite Hb).
    split.
    + intros src draws Hsrc. unfold addSource, simulate.
      rewrite (Hreg src Hsrc). simpl sources. simpl loads. simpl faults.
      rewrite source_pass_snoc_tripped by (by rewrite Hsrc).
      pose proof (source_pass_touched draws 0%nat (sources g) (breakers g) f_zero)
        as Ht.
      destruct (source_pass draws 0%nat (sources g) (breakers g) f_zero)
        as [[srcs1 br1] P]; simpl in *.
      rewrite (br_touch_present br1 (Source.name src) b)
        by (eapply only_touched_lookup; [done | by rewrite Hsrc]).
      destruct (load_pass (loads g) br1 f_zero) as [br2 D].
      destruct (f_lt P D).
      * by destruct (shed_walk P _ _ br2 D) as [[[ls3 br3] D3] log].
      * by destruct (restore_walk P _ _ D) as [[ls3 D3] log].
    + intros l draws Hl.
      destruct (simulate_totals draws (addLoad g l)) as [_ ->].
      destruct (simulate_totals draws g) as [_ ->].
      unfold cycle_demand. rewrite (Hadd l Hl). simpl sources. simpl loads.
      apply load_pass_snoc_tripped.
      rewrite (only_touched_tripped _ _ _ (source_pass_touched _ _ _ _ _)).
      by rewrite Hl.
Qed.

End Claim10.

(** C10, as stated, fails for [addSource]: the cycle it runs sheds the
    load that shares the new source's name and so trips the breaker that
    was there before the registration. *)
Lemma C10_counterexample :
  reachable shared_name_grid /\
  breakers shared_name_grid !! "X" = Some (Breaker.mk "X" false) /\
  breakers (addSource draws0 shared_name_grid (Source.new_power "X" 5 false)).1
    !! "X" = Some (Breaker.mk "X" true).
Proof.
  split; [apply reachable_addLoad, reach_start |].
  split; by vm_compute.
Qed.

Lemma C10_witness :
  breakers faulted_load_grid !! "Factory-A" = Some (Breaker.mk "Factory-A" true) /\
  forall l : Load.t Z,
    Load.name l = "Factory-A" ->
    breakers (addLoad faulted_load_grid l) = breakers faulted_load_grid.
Proof.
  assert (Hb : breakers faulted_load_grid !! "Factory-A" =
               Some (Breaker.mk "Factory-A" true)) by (vm_compute; reflexivity).
  split; [exact Hb |].
  exact (proj1 (C10_collision_keeps_breaker faulted_load_grid "Factory-A" _ Hb)).
Defined.

(** * Further properties *)

Section Extra1.
Context {F : Type} `{FloatOps F} `{StdSort}.
Implicit Types (br : BreakerMap) (ls : list (Load.t F)) (P D : F).
Implicit Types (g : GridManager F) (draws : nat -> Z).

(** X1.  When the priority values of the registered loads are pairwise
    distinct, a cycle does the same whichever implementation of
    [std::sort] the program is built with: the order of shedding and of
    reconnection is then fixed by the priorities alone. *)
Theorem X1_distinct_priorities_fix_the_cycle (S1 S2 : StdSort) draws g :
  NoDup (Load.priority <$> loads g) ->
  @simulate F _ S1 draws g = @simulate F _ S2 draws g.
Proof. apply simulate_determined. Qed.

End Extra1.

Lemma X1_witness :
  let g := ranked_grid in
  NoDup (Load.priority <$> loads g) /\
  @simulate Z _ libstdcxx draws0 g = @simulate Z _ keeping_sort draws0 g /\
  length (@shed_candidates Z libstdcxx (loads g)) = 20%nat /\
  trippedLoads (@simulate Z _ libstdcxx draws0 g).2 =
    ["R20"; "R19"; "R18"; "R17"; "R16"; "R15"; "R14"; "R13"; "R12"; "R11"].
Proof.
  intros g.
  assert (Hnd : NoDup (Load.priority <$> loads g))
    by (apply (bool_decide_unpack _); vm_compute; exact I).
  split; [exact Hnd |].
  split; [exact (X1_distinct_priorities_fix_the_cycle libstdcxx keeping_sort
                   draws0 g Hnd) |].
  split; vm_compute; reflexivity.
Defined.

(** The first scenario of the specification: with HydroStation at
    60 kW and the loads Factory-A (30 kW, priority 2), House-B (15 kW,
    priority 1) and Shop-C (10 kW, priority 3) all connected, a cycle
    reports a demand of 55 against a supply of 60, sheds nothing and
    leaves every load connected, whatever [std::sort] and [std::rand]
    do. *)
Lemma scenario_no_shedding (S : StdSort) (draws : nat -> Z) :
  let g' := (@simulate Z _ S draws demo_grid).1 in
  let r := (@simulate Z _ S draws demo_grid).2 in
  totalPower r = 60 /\ totalDemand r = 55 /\
  trippedLoads r = [] /\ reconnectedLoads r = [] /\
  loads g' = loads demo_grid /\
  Load.connected <$> loads g' = [true; true; true].
Proof.
  rewrite (simulate_determined S keeping_sort draws demo_grid)
    by (by apply (bool_decide_unpack _)).
  by vm_compute.
Qed.

(** The second scenario of the specification: the same grid after a
    fault at HydroStation.  The supply is 0 against a demand of 55; the
    loads are shed in the order Shop-C (3), Factory-A (2), House-B (1),
    and all three end up disconnected with their breakers tripped,
    whatever [std::sort] and [std::rand] do. *)
Lemma scenario_blackout (S : StdSort) (draws : nat -> Z) :
  let g := inject_at demo_grid "HydroStation" in
  let g' := (@simulate Z _ S draws g).1 in
  let r := (@simulate Z _ S draws g).2 in
  totalPower r = 0 /\ totalDemand r = 55 /\
  trippedLoads r = ["Shop-C"; "Factory-A"; "House-B"] /\
  Load.connected <$> loads g' = [false; false; false] /\
  (fun l => is_tripped (breakers g') (Load.name l)) <$> loads g' =
    [true; true; true].
Proof.
  cbv zeta.
  rewrite (simulate_determined S keeping_sort draws
             (inject_at demo_grid "HydroStation"))
    by (by apply (bool_decide_unpack _)).
  by vm_compute.
Qed.

(** ** Tokens and indices *)

Lemma digit_of_digit_char (d : N) :
  (d < 10)%N -> digit_of (digit_char d) = Some (Z.of_N d).
Proof.
  intros Hd. unfold digit_of, digit_char.
  rewrite N_ascii_embedding by lia.
  destruct (48 <=? 48 + d)%N eqn:Hlo; [| apply N.leb_gt in Hlo; lia].
  destruct (48 + d <=? 57)%N eqn:Hhi; [| apply N.leb_gt in Hhi; lia].
  simpl. f_equal. lia.
Qed.

Lemma digit_char_plain (d : N) :
  (d < 10)%N ->
  is_space (digit_char d) = false /\
  Ascii.eqb (digit_char d) "-" = false /\
  Ascii.eqb (digit_char d) "+" = false.
Proof.
  intros Hd.
  assert (Hcases : (d = 0 \/ d = 1 \/ d = 2 \/ d = 3 \/ d = 4 \/ d = 5 \/
                    d = 6 \/ d = 7 \/ d = 8 \/ d = 9)%N) by lia.
  repeat (destruct Hcases as [-> | Hcases]; [by vm_compute |]).
  subst d. by vm_compute.
Qed.

(** The printed digits end the string they are put in front of. *)
Lemma decimal_go_head fuel n d acc :
  (d < 10)%N ->
  exists d' rest, (d' < 10)%N /\
    decimal_go fuel n (String (digit_char d) acc) = String (digit_char d') rest.
Proof.
  revert n d acc. induction fuel as [| fuel IH]; intros n d acc Hd; simpl.
  - by exists d, acc.
  - destruct (n / 10 =? 0)%N.
    + exists (n mod 10)%N. eexists. split; [| done].
      apply N.mod_lt. lia.
    + apply IH. apply N.mod_lt. lia.
Qed.

Lemma decimal_head n :
  exists d rest, (d < 10)%N /\ decimal n = String (digit_char d) rest.
Proof.
  unfold decimal. simpl.
  assert (Hd : (N.of_nat n mod 10 < 10)%N) by (apply N.mod_lt; lia).
  destruct (N.of_nat n / 10 =? 0)%N.
  - by exists (N.of_nat n mod 10)%N, "".
  - by apply decimal_go_head.
Qed.

(** Reading back what was printed. *)
Lemma read_decimal_go fuel n acc a seen :
  (N.to_nat n < fuel)%nat ->
  exists p, read_digits (decimal_go fuel n acc) a seen =
            read_digits acc (a * p + Z.of_N n) true.
Proof.
  revert n acc a seen. induction fuel as [| fuel IH]; intros n acc a seen Hn;
    [lia |].
  assert (Hmod : (n mod 10 < 10)%N) by (apply N.mod_lt; lia).
  pose proof (N.div_mod n 10 ltac:(lia)) as Hdm.
  assert (Hlt : (n / 10 = 0 \/ n / 10 < n)%N).
  { destruct (N.eq_dec n 0%N) as [-> | Hn0]; [by left | right].
    apply N.div_lt; lia. }
  simpl. destruct (n / 10 =? 0)%N eqn:Hq.
  - apply N.eqb_eq in Hq. simpl. rewrite digit_of_digit_char by done.
    exists 10. f_equal. rewrite Hq in Hdm.
    generalize dependent (n mod 10)%N. intros r ? ?. lia.
  - apply N.eqb_neq in Hq.
    destruct (IH (n / 10)%N (String (digit_char (n mod 10)) acc) a seen)
      as [p Hp]; [lia |].
    rewrite Hp. simpl. rewrite digit_of_digit_char by done.
    exists (10 * p). f_equal.
    generalize dependent (n mod 10)%N. generalize dependent (n / 10)%N.
    intros q ? ? ? r ? ?. nia.
Qed.

Lemma stoi_decimal (n : nat) :
  Z.of_nat n <= INT_MAX -> stoi (decimal n) = inl (Z.of_nat n).
Proof.
  intros Hmax.
  destruct (decimal_head n) as (d & rest & Hd & Hhead).
  destruct (digit_char_plain d Hd) as (Hsp & Hminus & Hplus).
  destruct (read_decimal_go (S n) (N.of_nat n) "" 0 false ltac:(lia)) as [p Hp].
  fold (decimal n) in Hp. simpl in Hp.
  assert (Hread : read_digits (decimal n) 0 false = Some (Z.of_nat n))
    by (rewrite Hp; f_equal; lia).
  assert (Hlo : (INT_MIN <=? Z.of_nat n) = true)
    by (apply Z.leb_le; unfold INT_MIN; lia).
  assert (Hhi : (Z.of_nat n <=? INT_MAX) = true) by (by apply Z.leb_le).
  unfold stoi. rewrite Hhead. simpl. rewrite Hsp, Hminus, Hplus.
  rewrite <- Hhead, Hread. by rewrite Hlo, Hhi.
Qed.

Lemma vec_at_of_nat {A} (v : list A) (i : nat) : vec_at v (Z.of_nat i) = v !! i.
Proof.
  unfold vec_at. rewrite Nat2Z.id.
  destruct (0 <=? Z.of_nat i) eqn:Hlo; [| apply Z.leb_gt in Hlo; lia].
  destruct (Z.of_nat i <? Z.of_nat (length v)) eqn:Hhi; [done |].
  apply Z.ltb_ge in Hhi. symmetry. apply lookup_ge_None. lia.
Qed.

Section Selectors.
Context {F : Type} `{FloatOps F} `{StdSort}.
Implicit Types (g : GridManager F).

(** X2.  The labels the fault menu prints select what they stand
    before.  For every position [i] that fits an [int], typing the label
    [L<i>] printed before load [i] faults that load, and typing [S<i>]
    faults source [i]; when [i] is past the end of the vector the token
    is accepted all the same and the vector is indexed out of range. *)
Theorem X2_menu_label_selects_its_component g (i : nat) :
  Z.of_nat i <= INT_MAX ->
  (forall l, loads g !! i = Some l ->
     load_labels g !! i = Some ("L" +:+ decimal i)) /\
  (forall s, sources g !! i = Some s ->
     source_labels g !! i = Some ("S" +:+ decimal i)) /\
  injectManualFault_input g ("L" +:+ decimal i) =
    Returns (match loads g !! i with
             | Some l => Done (inject_at g (Load.name l))
             | None => Undefined
             end) /\
  injectManualFault_input g ("S" +:+ decimal i) =
    Returns (match sources g !! i with
             | Some s => Done (inject_at g (Source.name s))
             | None => Undefined
             end).
Proof.
  intros Hmax.
  split; [| split; [| split]].
  - intros l Hl. unfold load_labels. by rewrite list_lookup_imap, Hl.
  - intros s Hs. unfold source_labels. by rewrite list_lookup_imap, Hs.
  - unfold injectManualFault_input, read_selector.
    change ("L" +:+ decimal i) with (String "L" (decimal i)).
    simpl. rewrite (stoi_decimal i Hmax). simpl.
    by rewrite vec_at_of_nat.
  - unfold injectManualFault_input, read_selector.
    change ("S" +:+ decimal i) with (String "S" (decimal i)).
    simpl. rewrite (stoi_decimal i Hmax). simpl.
    by rewrite vec_at_of_nat.
Qed.
End Selectors.

Lemma X2_witness :
  Z.of_nat 2 <= INT_MAX /\
  injectManualFault_input demo_grid "L2" = Returns (Done (inject_at demo_grid "Shop-C")).
Proof.
  assert (Hmax : Z.of_nat 2 <= INT_MAX) by (by vm_compute).
  split; [exact Hmax |].
  exact (proj1 (proj2 (proj2 (X2_menu_label_selects_its_component demo_grid 2 Hmax)))).
Defined.

(** ** The sources through a cycle *)

Section SourcesFacts.
Context {F : Type} `{FloatOps F}.
Implicit Types (br : BreakerMap) (P : F) (draws : nat -> Z).

Lemma source_simulate_cases draws k (s : Source.t F) :
  let s' := (Source.simulate draws k s).1 in
  Source.name s' = Source.name s /\ Source.status s' = Source.status s /\
  Source.dyn s' = Source.dyn s /\ Source.renewable s' = Source.renewable s /\
  (s' = s \/ resampled s s' (draws k)).
Proof.
  unfold Source.simulate, resampled.
  destruct (Source.dyn s) eqn:Hdyn; simpl; [by repeat split; try left |].
  destruct (Source.status s) eqn:Hst; simpl; [| by repeat split; try left].
  repeat split; try done. by right.
Qed.

Lemma source_pass_length draws k srcs br P :
  length (source_pass draws k srcs br P).1.1 = length srcs.
Proof.
  pose proof (source_pass_names draws k srcs br P) as Hn.
  apply (f_equal length) in Hn. by rewrite !length_fmap in Hn.
Qed.

(** What the loop does to the source at position [i]. *)
Lemma source_pass_lookup draws k srcs br br0 P i s :
  only_touched br0 br ->
  srcs !! i = Some s ->
  exists s', (source_pass draws k srcs br P).1.1 !! i = Some s' /\
    Source.name s' = Source.name s /\ Source.status s' = Source.status s /\
    Source.dyn s' = Source.dyn s /\ Source.renewable s' = Source.renewable s /\
    (s' = s \/
     (is_tripped br0 (Source.name s) = false /\ exists j, resampled s s' (draws j))).
Proof.
  revert k br P i. induction srcs as [| src rest IH]; intros k br P i Ht Hi;
    [done |].
  assert (Ht' : only_touched br0 (br_touch br (Source.getName src)))
    by (eapply only_touched_trans; [done | apply only_touched_touch]).
  simpl. rewrite (only_touched_tripped br0 br _ Ht).
  destruct (is_tripped br0 (Source.getName src)) eqn:Htr.
  - specialize (IH k (br_touch br (Source.getName src)) P).
    destruct (source_pass draws k rest _ P) as [[rest' br2] P2]; simpl in *.
    destruct i as [| i]; simpl in *.
    + injection Hi as <-. exists src. repeat split; try done. by left.
    + by apply IH.
  - pose proof (source_simulate_cases draws k src) as Hsim.
    destruct (Source.simulate draws k src) as [src' k']; simpl in Hsim.
    match goal with |- context [source_pass draws k' rest ?b ?p] =>
      specialize (IH k' b p); destruct (source_pass draws k' rest b p)
        as [[rest' br2] P2]
    end; simpl in *.
    destruct i as [| i]; simpl in *.
    + injection Hi as <-. exists src'.
      destruct Hsim as (? & ? & ? & ? & Hcase). repeat split; try done.
      destruct Hcase as [? | ?]; [by left | right]. split; [done |]. by exists k.
    + by apply IH.
Qed.

(** The power the loop adds up, said over the sources it leaves. *)
Lemma source_pass_sum draws k srcs br br0 P :
  only_touched br0 br ->
  (source_pass draws k srcs br P).2 =
  sum_power P (filter (fun s => powered br0 s = true)
                 (source_pass draws k srcs br P).1.1).
Proof.
  revert k br P. induction srcs as [| src rest IH]; intros k br P Ht; [done |].
  assert (Ht' : only_touched br0 (br_touch br (Source.getName src)))
    by (eapply only_touched_trans; [done | apply only_touched_touch]).
  simpl. rewrite (only_touched_tripped br0 br _ Ht).
  destruct (is_tripped br0 (Source.getName src)) eqn:Htr.
  - specialize (IH k (br_touch br (Source.getName src)) P Ht').
    destruct (source_pass draws k rest _ P) as [[rest' br2] P2]; simpl in *.
    rewrite filter_cons.
    destruct (decide (powered br0 src = true)) as [Hp | _]; [| done].
    unfold powered in Hp. rewrite Htr in Hp. by rewrite andb_false_r in Hp.
  - pose proof (source_simulate_cases draws k src) as Hsim.
    destruct (Source.simulate draws k src) as [src' k']; simpl in Hsim.
    destruct Hsim as (Hn & Hs & _).
    match goal with |- context [source_pass draws k' rest ?b ?p] =>
      specialize (IH k' b p Ht'); destruct (source_pass draws k' rest b p)
        as [[rest' br2] P2]
    end; simpl in *.
    rewrite filter_cons.
    assert (Hpow : powered br0 src' = Source.isConnected src').
    { unfold powered, Source.getName. rewrite Hn.
      unfold Source.getName in Htr. rewrite Htr. apply andb_true_r. }
    destruct (decide (powered br0 src' = true)) as [Hp | Hp];
      rewrite Hpow in Hp.
    + rewrite Hp in IH. by rewrite IH.
    + apply not_true_is_false in Hp. rewrite Hp in IH. by rewrite IH.
Qed.
End SourcesFacts.

(** ** What a cycle and a command keep *)

Section Frames.
Context {F : Type} `{FloatOps F} `{StdSort}.
Implicit Types (br : BreakerMap) (ls : list (Load.t F)) (P D : F).
Implicit Types (g : GridManager F) (draws : nat -> Z).

Lemma simulate_sources draws g :
  sources (simulate draws g).1 = cycle_sources draws g.
Proof.
  unfold simulate, cycle_sources.
  destruct (source_pass draws 0%nat (sources g) (breakers g) f_zero)
    as [[srcs1 br1] P].
  destruct (load_pass (loads g) br1 f_zero) as [br2 D].
  destruct (f_lt P D).
  - by destruct (shed_walk P _ (loads g) br2 D) as [[[ls3 br3] D3] log].
  - by destruct (restore_walk P _ (loads g) D) as [[ls3 D3] log].
Qed.

Lemma disconnect_all_length shed ls : length (disconnect_all shed ls) = length ls.
Proof.
  revert ls. induction shed as [| i shed IH]; intros ls; [done |].
  change (disconnect_all (i :: shed) ls)
    with (disconnect_all shed (alter Load.disconnect i ls)).
  by rewrite IH, length_alter.
Qed.

Lemma restore_walk_length P cands ls D :
  length (restore_walk P cands ls D).1.1 = length ls.
Proof.
  revert ls D. induction cands as [| i cands IH]; intros ls D; simpl; [done |].
  destruct (ls !! i) as [l |] eqn:Hi; [| by apply IH].
  destruct (f_ge P (f_add D (Load.getRawDemand l))); [| by apply IH].
  specialize (IH (<[i := Load.reconnect l]> ls) (f_add D (Load.getRawDemand l))).
  destruct (restore_walk P cands _ _) as [[ls2 D2] log]; simpl in *.
  by rewrite IH, length_insert.
Qed.

(** A cycle leaves each load where it is, as it is or with the
    connectivity flag switched. *)
Lemma simulate_load_lookup draws g i l :
  loads g !! i = Some l ->
  exists l', loads (simulate draws g).1 !! i = Some l' /\
    (l' = l \/ l' = Load.disconnect l \/ l' = Load.reconnect l).
Proof.
  intros Hl.
  destruct (simulate_shape draws g) as [(shed & _ & -> & _) | (_ & -> & _)].
  - rewrite disconnect_all_lookup, Hl.
    destruct (decide (i ∈ shed)); simpl; eauto.
  - destruct (lookup_lt_is_Some_2
                (restore_walk (cycle_power draws g)
                   (restore_candidates (loads g) (cycle_breakers draws g))
                   (loads g) (cycle_demand draws g)).1.1 i) as [l' Hl'].
    { rewrite restore_walk_length. by eapply lookup_lt_Some. }
    exists l'. split; [done |].
    apply restore_walk_lookup in Hl' as (l0 & Hl0 & Hcase).
    rewrite Hl in Hl0. injection Hl0 as <-.
    destruct Hcase as [-> | [-> _]]; eauto.
Qed.

Lemma simulate_loads_length draws g :
  length (loads (simulate draws g).1) = length (loads g).
Proof.
  destruct (simulate_shape draws g) as [(shed & _ & -> & _) | (_ & -> & _)].
  - apply disconnect_all_length.
  - apply restore_walk_length.
Qed.

Lemma simulate_load_names draws g :
  Load.name <$> loads (simulate draws g).1 = Load.name <$> loads g.
Proof.
  apply list_eq. intros i. rewrite !list_lookup_fmap.
  destruct (loads g !! i) as [l |] eqn:Hl.
  - destruct (simulate_load_lookup draws g i l Hl) as (l' & -> & Hcase).
    by destruct Hcase as [-> | [-> | ->]].
  - rewrite (lookup_ge_None_2 (loads (simulate draws g).1) i); [done |].
    rewrite simulate_loads_length. by apply lookup_ge_None.
Qed.

Lemma simulate_source_names draws g :
  Source.name <$> sources (simulate draws g).1 = Source.name <$> sources g.
Proof. rewrite simulate_sources. apply source_pass_names. Qed.

Lemma br_reset_lookup (m : BreakerMap) n k b :
  m !! k = Some b -> br_reset m n !! k = Some (br_get (br_reset m n) k).
Proof.
  intros Hk. unfold br_get.
  destruct (br_reset m n !! k) eqn:Hl; [done |].
  unfold br_reset in Hl. destruct (decide (n = k)) as [-> | Hne].
  - by rewrite lookup_insert_eq in Hl.
  - rewrite lookup_insert_ne in Hl by done.
    by rewrite (br_touch_lookup_some _ _ _ _ Hk) in Hl.
Qed.

Lemma br_get_id_reset (m : BreakerMap) n k :
  Breaker.id (br_get (br_reset m n) k) = Breaker.id (br_get m k).
Proof.
  destruct (decide (n = k)) as [-> | Hne].
  - by rewrite br_get_reset_eq.
  - by rewrite br_get_reset_ne.
Qed.

Lemma br_get_lookup (m : BreakerMap) k b : m !! k = Some b -> br_get m k = b.
Proof. unfold br_get. by intros ->. Qed.

Lemma simulate_keeps draws g :
  (forall i l, loads g !! i = Some l ->
     exists l', loads (simulate draws g).1 !! i = Some l' /\ load_kept l l') /\
  (forall i s, sources g !! i = Some s ->
     exists s', sources (simulate draws g).1 !! i = Some s' /\ source_kept s s') /\
  (forall k b, breakers g !! k = Some b ->
     exists b', breakers (simulate draws g).1 !! k = Some b' /\
                Breaker.id b' = Breaker.id b).
Proof.
  split; [| split].
  - intros i l Hl.
    destruct (simulate_load_lookup draws g i l Hl) as (l' & Hl' & Hcase).
    exists l'. split; [done |]. by destruct Hcase as [-> | [-> | ->]].
  - intros i s Hs. rewrite simulate_sources. unfold cycle_sources.
    destruct (source_pass_lookup draws 0%nat (sources g) (breakers g)
                (breakers g) f_zero i s (only_touched_refl _) Hs)
      as (s' & Hs' & Hn & Hst & Hd & Hr & Hcase).
    exists s'. split; [done |]. repeat split; try done.
    intros Hdyn. destruct Hcase as [? | (_ & j & Hre & _)]; [done |]. congruence.
  - intros k b Hk.
    destruct (simulate_keeps_entry draws g k b Hk) as (b' & Hb' & Hid & _).
    by exists b'.
Qed.

Lemma run_keeps g c g' :
  run g c = Done g' ->
  (forall i l, loads g !! i = Some l ->
     exists l', loads g' !! i = Some l' /\ load_kept l l') /\
  (forall i s, sources g !! i = Some s ->
     exists s', sources g' !! i = Some s' /\ source_kept s s') /\
  (forall k b, breakers g !! k = Some b ->
     exists b', breakers g' !! k = Some b' /\ Breaker.id b' = Breaker.id b).
Proof.
  assert (Hsame : forall g0 : GridManager F,
    (forall i l, loads g0 !! i = Some l ->
       exists l', loads g0 !! i = Some l' /\ load_kept l l') /\
    (forall i s, sources g0 !! i = Some s ->
       exists s', sources g0 !! i = Some s' /\ source_kept s s')).
  { intros g0. split; intros i x Hx; by exists x. }
  assert (Hinj : forall n k b, breakers g !! k = Some b ->
    exists b', breakers (inject_at g n) !! k = Some b' /\
               Breaker.id b' = Breaker.id b).
  { intros n k b Hk. eexists. split; [by eapply br_trip_lookup |].
    simpl. by rewrite br_get_id_trip, (br_get_lookup _ _ _ Hk). }
  assert (Hemp : forall n k b, breakers g !! k = Some b ->
    exists b', br_emplace (breakers g) n !! k = Some b' /\
               Breaker.id b' = Breaker.id b).
  { intros n k b Hk. exists b. split; [| done]. unfold br_emplace.
    destruct (breakers g !! n) eqn:Hn; [done |].
    rewrite lookup_insert_ne; [done | congruence]. }
  intros Hrun. destruct c; simpl in Hrun.
  - injection Hrun as <-. apply simulate_keeps.
  - unfold injectManualFault in Hrun.
    assert (Hg' : exists n, g' = inject_at g n).
    { destruct sel as [i | i |].
      - destruct (vec_at (loads g) i); [| done]. injection Hrun as <-. eauto.
      - destruct (vec_at (sources g) i); [| done]. injection Hrun as <-. eauto.
      - injection Hrun as <-. eauto. }
    destruct Hg' as [n ->]. destruct (Hsame g) as [Hl Hs].
    split; [exact Hl |]. split; [exact Hs |]. apply Hinj.
  - unfold resolveManualFault_steps in Hrun.
    destruct (vec_at (fault_order (faults g)) index) as [n |]; [| done].
    injection Hrun as <-.
    destruct (simulate_keeps draws (clear_fault g n)) as (Hl & Hs & Hb).
    split; [exact Hl |]. split; [exact Hs |].
    intros k b Hk.
    destruct (Hb k (br_get (br_reset (breakers g) n) k)) as (b' & Hb' & Hid).
    { simpl. by eapply br_reset_lookup. }
    exists b'. split; [done |].
    by rewrite Hid, br_get_id_reset, (br_get_lookup _ _ _ Hk).
  - unfold disconnectLoad in Hrun.
    destruct (loads g !! index) as [l0 |] eqn:Hl0; [| done].
    injection Hrun as <-. simpl.
    split; [| split; [apply (Hsame g) | by eauto]].
    intros i l Hl. destruct (decide (index = i)) as [<- | Hne].
    + rewrite list_lookup_insert_eq by (by eapply lookup_lt_Some).
      rewrite Hl0 in Hl. injection Hl as <-. by eexists.
    + rewrite list_lookup_insert_ne by done. by exists l.
  - unfold reconnectLoad in Hrun.
    destruct (loads g !! index) as [l0 |] eqn:Hl0; [| done].
    injection Hrun as <-. simpl.
    split; [| split; [apply (Hsame g) | by eauto]].
    intros i l Hl. destruct (decide (index = i)) as [<- | Hne].
    + rewrite list_lookup_insert_eq by (by eapply lookup_lt_Some).
      rewrite Hl0 in Hl. injection Hl as <-. by eexists.
    + rewrite list_lookup_insert_ne by done. by exists l.
  - injection Hrun as <-. simpl.
    split; [| split; [apply (Hsame g) | apply Hemp]].
    intros i l0 Hl0. exists l0. split; [by apply lookup_app_l_Some | done].
  - injection Hrun as <-. unfold addSource.
    destruct (simulate_keeps draws (register_source g src)) as (Hl & Hs & Hb).
    split; [exact Hl |]. split.
    + intros i s Hs0. apply Hs. simpl. by apply lookup_app_l_Some.
    + intros k b Hk. destruct (Hemp (Source.getName src) k b Hk) as (b1 & Hb1 & Hid1).
      destruct (Hb k b1 Hb1) as (b' & Hb' & Hid').
      exists b'. split; [done | congruence].
Qed.
End Frames.

(** ** Shedding and reconnection, seen from the loads *)

Section LoadsThroughCycles.
Context {F : Type} `{FloatOps F} `{StdSort}.
Implicit Types (br : BreakerMap) (ls : list (Load.t F)) (P D : F).
Implicit Types (g : GridManager F) (draws : nat -> Z).

Lemma disconnect_off (l : Load.t F) :
  Load.connected l = false -> Load.disconnect l = l.
Proof. destruct l; simpl. by intros ->. Qed.

(** A disconnected load behind a tripped breaker is out of a cycle's
    reach. *)
Lemma simulate_tripped_off draws g i l :
  loads g !! i = Some l -> Load.connected l = false ->
  is_tripped (breakers g) (Load.name l) = true ->
  loads (simulate draws g).1 !! i = Some l /\
  is_tripped (breakers (simulate draws g).1) (Load.name l) = true.
Proof.
  intros Hl Hc Htr. split; [| by apply simulate_keeps_tripped].
  destruct (simulate_shape draws g) as [(shed & _ & -> & _) | (_ & -> & _)].
  - rewrite disconnect_all_lookup, Hl.
    destruct (decide (i ∈ shed)); simpl; [| done]. by rewrite disconnect_off.
  - rewrite restore_walk_other; [done |].
    intros (l0 & Hl0 & _ & Hun)%restore_candidates_elem.
    rewrite Hl in Hl0. injection Hl0 as <-.
    rewrite (only_touched_tripped _ _ _ (cycle_breakers_touched draws g)) in Hun.
    congruence.
Qed.

Lemma cycles_tripped_off ds g i l :
  loads g !! i = Some l -> Load.connected l = false ->
  is_tripped (breakers g) (Load.name l) = true ->
  loads (cycles ds g) !! i = Some l /\
  is_tripped (breakers (cycles ds g)) (Load.name l) = true.
Proof.
  revert g. induction ds as [| d ds IH]; intros g Hl Hc Htr; [done |].
  destruct (simulate_tripped_off d g i l Hl Hc Htr) as [Hl' Htr'].
  by apply (IH (simulate d g).1).
Qed.

(** The deficit branch, with the prefix of the candidates it sheds. *)
Lemma simulate_deficit_shape draws g :
  f_lt (cycle_power draws g) (cycle_demand draws g) = true ->
  exists shed rest,
    shed_candidates (loads g) = shed ++ rest /\
    loads (simulate draws g).1 = disconnect_all shed (loads g).
Proof.
  intros Hlt.
  destruct (shed_walk_spec (cycle_power draws g) (shed_candidates (loads g))
              (loads g) (cycle_breakers draws g) (cycle_demand draws g))
    as (shed & rest & Hstop & Hwalk).
  { intros i [l [Hl _]]%shed_candidates_elem. by eapply lookup_lt_Some. }
  rewrite (simulate_deficit draws g Hlt _ _ _ _ Hwalk). simpl.
  exists shed, rest. split; [| done]. apply Hstop.
Qed.

(** A load that a cycle finds connected and leaves disconnected was
    shed: the cycle was in deficit and the load is in the shed prefix. *)
Lemma simulate_disconnected draws g i l l' :
  loads g !! i = Some l -> Load.connected l = true ->
  loads (simulate draws g).1 !! i = Some l' -> Load.connected l' = false ->
  exists shed rest,
    shed_candidates (loads g) = shed ++ rest /\
    loads (simulate draws g).1 = disconnect_all shed (loads g) /\
    i ∈ shed.
Proof.
  intros Hl Hc Hl' Hc'.
  destruct (f_lt (cycle_power draws g) (cycle_demand draws g)) eqn:Hlt.
  - destruct (simulate_deficit_shape draws g Hlt) as (shed & rest & Hsplit & Hls).
    exists shed, rest. split; [done |]. split; [done |].
    rewrite Hls, disconnect_all_lookup, Hl in Hl'.
    destruct (decide (i ∈ shed)); [done |].
    injection Hl' as <-. congruence.
  - exfalso.
    destruct (restore_walk (cycle_power draws g)
                (restore_candidates (loads g) (cycle_breakers draws g))
                (loads g) (cycle_demand draws g)) as [[ls3 D3] log] eqn:Hw.
    rewrite (simulate_surplus draws g Hlt _ _ _ Hw) in Hl'. simpl in Hl'.
    replace ls3 with (restore_walk (cycle_power draws g)
                (restore_candidates (loads g) (cycle_breakers draws g))
                (loads g) (cycle_demand draws g)).1.1 in Hl' by (by rewrite Hw).
    apply restore_walk_lookup in Hl' as (l0 & Hl0 & Hcase).
    rewrite Hl in Hl0. injection Hl0 as <-.
    destruct Hcase as [-> | [-> _]]; simpl in *; congruence.
Qed.

(** The running demand after the reconnection loop, and the test it
    passed last. *)
Lemma restore_walk_total P cands ls D :
  NoDup cands ->
  (forall i, i ∈ cands -> connected_at ls i = false) ->
  let res := restore_walk P cands ls D in
  let adm := filter (fun i => connected_at res.1.1 i = true) cands in
  res.1.2 = foldl f_add D (demand_at ls <$> adm) /\
  (adm <> [] -> f_ge P res.1.2 = true) /\
  res.2 = name_at ls <$> adm.
Proof.
  revert ls D. induction cands as [| i cands IH]; intros ls D Hnd Hoff; simpl.
  { by split; [| split]. }
  apply NoDup_cons in Hnd as [Hi Hnd].
  assert (Hoff' : forall j, j ∈ cands -> connected_at ls j = false)
    by (intros j Hj; apply Hoff; by right).
  destruct (ls !! i) as [l |] eqn:Hl.
  2: { specialize (IH ls D Hnd Hoff').
       pose proof (restore_walk_other P cands ls D i Hi) as Hother.
       rewrite filter_cons.
       destruct (decide (connected_at (restore_walk P cands ls D).1.1 i = true))
         as [Hcon | _]; [| exact IH].
       unfold connected_at in Hcon. by rewrite Hother, Hl in Hcon. }
  assert (Hd : demand_at ls i = Load.demand l) by (unfold demand_at; by rewrite Hl).
  assert (Hn : name_at ls i = Load.name l) by (unfold name_at; by rewrite Hl).
  unfold Load.getRawDemand, Load.getName.
  destruct (f_ge P (f_add D (Load.demand l))) eqn:Hge.
  - set (ls1 := <[i := Load.reconnect l]> ls).
    assert (Hfix : same_fixed ls ls1) by (by eapply same_fixed_insert).
    assert (Hoff1 : forall j, j ∈ cands -> connected_at ls1 j = false).
    { intros j Hj. unfold connected_at, ls1.
      rewrite list_lookup_insert_ne by (intros ->; done). by apply Hoff'. }
    specialize (IH ls1 (f_add D (Load.demand l)) Hnd Hoff1).
    pose proof (restore_walk_other P cands ls1 (f_add D (Load.demand l)) i Hi)
      as Hother.
    destruct (restore_walk P cands ls1 (f_add D (Load.demand l)))
      as [[ls2 D2] log] eqn:Hw; simpl in *.
    destruct IH as (HD & Hlast & Hlog).
    assert (Hds : forall s, demand_at ls1 <$> s = demand_at ls <$> s)
      by (intros s; apply list_fmap_ext; intros ? j _; apply Hfix).
    assert (Hns : forall s, name_at ls1 <$> s = name_at ls <$> s)
      by (intros s; apply list_fmap_ext; intros ? j _; apply Hfix).
    rewrite filter_cons.
    destruct (decide (connected_at ls2 i = true)) as [_ | Hcon].
    2: { exfalso. apply Hcon. unfold connected_at. rewrite Hother. unfold ls1.
         by rewrite list_lookup_insert_eq by (by eapply lookup_lt_Some). }
    simpl. rewrite Hd, Hn, <- Hds, <- Hns. split; [done |]. split; [| by f_equal].
    intros _.
    destruct (filter (fun j => connected_at ls2 j = true) cands) as [| a adm] eqn:Hf.
    + simpl in HD. by rewrite HD.
    + by apply Hlast.
  - specialize (IH ls D Hnd Hoff').
    pose proof (restore_walk_other P cands ls D i Hi) as Hother.
    rewrite filter_cons.
    destruct (decide (connected_at (restore_walk P cands ls D).1.1 i = true))
      as [Hcon | _]; [| exact IH].
    unfold connected_at in Hcon. rewrite Hother in Hcon.
    specialize (Hoff i ltac:(by left)). unfold connected_at in Hoff. congruence.
Qed.
End LoadsThroughCycles.

(** ** The registry in reachable states *)

Section Registry.
Context {F : Type} `{FloatOps F} `{StdSort}.
Implicit Types (br m : BreakerMap) (ls : list (Load.t F)) (P D : F).
Implicit Types (g : GridManager F) (draws : nat -> Z).

Lemma source_pass_present draws k srcs br P :
  (forall n, n ∈ (Source.name <$> srcs) -> is_Some (br !! n)) ->
  (source_pass draws k srcs br P).1.2 = br.
Proof.
  revert k P. induction srcs as [| src rest IH]; intros k P Hpres; simpl; [done |].
  destruct (Hpres (Source.name src)) as [b Hb]; [by left |].
  rewrite (br_touch_present br (Source.getName src) b Hb).
  assert (Hrest : forall n, n ∈ (Source.name <$> rest) -> is_Some (br !! n))
    by (intros n Hn; apply Hpres; by right).
  destruct (is_tripped br (Source.getName src)).
  - specialize (IH k P Hrest).
    by destruct (source_pass draws k rest br P) as [[rest' br2] P2].
  - destruct (Source.simulate draws k src) as [src' k'].
    match goal with |- context [source_pass draws k' rest br ?p] =>
      specialize (IH k' p Hrest); destruct (source_pass draws k' rest br p)
        as [[rest' br2] P2]
    end.
    done.
Qed.

Lemma load_pass_present ls br D :
  (forall n, n ∈ (Load.name <$> ls) -> is_Some (br !! n)) ->
  (load_pass ls br D).1 = br.
Proof.
  revert D. induction ls as [| l rest IH]; intros D Hpres; simpl; [done |].
  destruct (Hpres (Load.name l)) as [b Hb]; [by left |].
  rewrite (br_touch_present br (Load.getName l) b Hb).
  assert (Hrest : forall n, n ∈ (Load.name <$> rest) -> is_Some (br !! n))
    by (intros n Hn; apply Hpres; by right).
  destruct (is_tripped br (Load.getName l)); by apply IH.
Qed.

Lemma collect_disconnected_present i ls br :
  (forall n, n ∈ (Load.name <$> ls) -> is_Some (br !! n)) ->
  (collect_disconnected i ls br).2 = br.
Proof.
  revert i. induction ls as [| l rest IH]; intros i Hpres; simpl; [done |].
  destruct (Hpres (Load.name l)) as [b Hb]; [by left |].
  assert (Hrest : forall n, n ∈ (Load.name <$> rest) -> is_Some (br !! n))
    by (intros n Hn; apply Hpres; by right).
  destruct (Load.isConnected l); [by apply IH |].
  rewrite (br_touch_present br (Load.getName l) b Hb).
  specialize (IH (S i) Hrest).
  destruct (collect_disconnected (S i) rest br) as [ptrs br2]; simpl in *.
  by destruct (is_tripped br (Load.getName l)).
Qed.

Lemma br_trip_present m n b :
  m !! n = Some b -> br_trip m n = <[n := Breaker.trip b]> m.
Proof.
  intros Hn. unfold br_trip.
  by rewrite (br_touch_present m n b Hn), (br_get_lookup m n b Hn).
Qed.

Lemma br_reset_present m n b :
  m !! n = Some b -> br_reset m n = <[n := Breaker.reset b]> m.
Proof.
  intros Hn. unfold br_reset.
  by rewrite (br_touch_present m n b Hn), (br_get_lookup m n b Hn).
Qed.

(** Tripping present entries adds none. *)
Lemma trip_all_origin ns m k b' :
  (forall n, n ∈ ns -> is_Some (m !! n)) ->
  trip_all ns m !! k = Some b' ->
  exists b, m !! k = Some b /\ Breaker.id b' = Breaker.id b.
Proof.
  revert m. induction ns as [| n ns IH]; intros m Hpres Hk.
  { by exists b'. }
  change (trip_all (n :: ns) m) with (trip_all ns (br_trip m n)) in Hk.
  destruct (Hpres n) as [bn Hbn]; [by left |].
  destruct (IH (br_trip m n)) as (b1 & Hb1 & Hid); [| done |].
  { intros n' Hn'. destruct (Hpres n') as [b0 Hb0]; [by right |].
    rewrite (br_trip_lookup m n n' b0 Hb0). by eexists. }
  rewrite (br_trip_present m n bn Hbn) in Hb1.
  destruct (decide (n = k)) as [-> | Hne].
  - rewrite lookup_insert_eq in Hb1. injection Hb1 as <-.
    exists bn. by split.
  - rewrite lookup_insert_ne in Hb1 by done. exists b1. by split.
Qed.

Lemma cycle_breakers_ok draws g :
  registry_ok g -> cycle_breakers draws g = breakers g.
Proof.
  intros Hok. unfold cycle_breakers.
  rewrite source_pass_present by apply Hok.
  apply load_pass_present, Hok.
Qed.

(** In a reachable state a cycle creates no breaker. *)
Lemma simulate_entry_origin draws g k b' :
  registry_ok g ->
  breakers (simulate draws g).1 !! k = Some b' ->
  exists b, breakers g !! k = Some b /\ Breaker.id b' = Breaker.id b.
Proof.
  intros Hok Hk.
  destruct (simulate_shape draws g) as [(shed & Hshed & _ & Hbr) | (_ & _ & Hbr)];
    rewrite Hbr, (cycle_breakers_ok draws g Hok) in Hk.
  - apply trip_all_origin in Hk; [done |].
    intros n (i & -> & Hi)%list_elem_of_fmap.
    destruct (Hshed i Hi) as (l & Hl & _).
    apply Hok. unfold name_at. rewrite Hl.
    apply list_elem_of_fmap. exists l. split; [done |].
    by eapply list_elem_of_lookup_2.
  - rewrite collect_disconnected_present in Hk by apply Hok. by exists b'.
Qed.

Lemma registry_ok_simulate draws g :
  registry_ok g -> registry_ok (simulate draws g).1.
Proof.
  intros Hok.
  assert (Hkeep : forall k, is_Some (breakers g !! k) ->
            is_Some (breakers (simulate draws g).1 !! k)).
  { intros k [b Hb].
    destruct (simulate_keeps_entry draws g k b Hb) as (b' & Hb' & _). by exists b'. }
  split.
  - intros k Hk. rewrite simulate_load_names in Hk.
    by apply Hkeep, (reg_loads g Hok).
  - intros k Hk. rewrite simulate_source_names in Hk.
    by apply Hkeep, (reg_sources g Hok).
  - intros k Hk. rewrite simulate_faults in Hk.
    by apply Hkeep, (reg_faults g Hok).
  - intros k b' Hk.
    destruct (simulate_entry_origin draws g k b' Hok Hk) as (b & Hb & ->).
    by apply (reg_ids g Hok).
  - intros k [b' Hk].
    destruct (simulate_entry_origin draws g k b' Hok Hk) as (b & Hb & _).
    rewrite simulate_load_names, simulate_source_names.
    apply (reg_keys g Hok). by exists b.
Qed.

Lemma registry_ok_inject g n :
  registry_ok g ->
  n = "" \/ n ∈ (Load.name <$> loads g) \/ n ∈ (Source.name <$> sources g) ->
  registry_ok (inject_at g n).
Proof.
  intros Hok Hn.
  assert (Hkeep : forall k, is_Some (breakers g !! k) ->
            is_Some (br_trip (breakers g) n !! k)).
  { intros k [b Hb]. rewrite (br_trip_lookup _ n k b Hb). by eexists. }
  assert (Hnew : is_Some (br_trip (breakers g) n !! n)).
  { unfold br_trip. rewrite lookup_insert_eq. by eexists. }
  split; simpl.
  - intros k Hk. by apply Hkeep, (reg_loads g Hok).
  - intros k Hk. by apply Hkeep, (reg_sources g Hok).
  - intros k [Hk | ->%elem_of_singleton]%elem_of_union; [| done].
    by apply Hkeep, (reg_faults g Hok).
  - intros k b' Hk. unfold br_trip in Hk.
    destruct (decide (n = k)) as [<- | Hne].
    + rewrite lookup_insert_eq in Hk. injection Hk as <-. simpl.
      unfold br_get. destruct (breakers g !! n) as [b |] eqn:Hb.
      * by eapply (reg_ids g Hok).
      * right. split; [| done].
        destruct Hn as [-> | [Hn | Hn]]; [done | |].
        -- apply (reg_loads g Hok) in Hn. rewrite Hb in Hn. by destruct Hn.
        -- apply (reg_sources g Hok) in Hn. rewrite Hb in Hn. by destruct Hn.
    + rewrite lookup_insert_ne in Hk by done.
      unfold br_touch in Hk. destruct (breakers g !! n) eqn:Hb.
      * by eapply (reg_ids g Hok).
      * rewrite lookup_insert_ne in Hk by done. by eapply (reg_ids g Hok).
  - intros k [b' Hk]. unfold br_trip in Hk.
    destruct (decide (n = k)) as [<- | Hne]; [done |].
    rewrite lookup_insert_ne in Hk by done.
    apply (reg_keys g Hok). unfold br_touch in Hk.
    destruct (breakers g !! n) eqn:Hb; [by exists b' |].
    rewrite lookup_insert_ne in Hk by done. by exists b'.
Qed.

Lemma registry_ok_clear g n :
  registry_ok g -> n ∈ faults g -> registry_ok (clear_fault g n).
Proof.
  intros Hok Hn. destruct (reg_faults g Hok n Hn) as [bn Hbn].
  split; simpl; rewrite ?(br_reset_present _ n bn Hbn).
  - intros k Hk. apply lookup_insert_is_Some'. right.
    by apply (reg_loads g Hok).
  - intros k Hk. apply lookup_insert_is_Some'. right.
    by apply (reg_sources g Hok).
  - intros k [Hk _]%elem_of_difference.
    apply lookup_insert_is_Some'. right. by apply (reg_faults g Hok).
  - intros k b' Hk. destruct (decide (n = k)) as [<- | Hne].
    + rewrite lookup_insert_eq in Hk. injection Hk as <-. simpl.
      by eapply (reg_ids g Hok).
    + rewrite lookup_insert_ne in Hk by done. by eapply (reg_ids g Hok).
  - intros k [b' Hk]. apply (reg_keys g Hok).
    destruct (decide (n = k)) as [<- | Hne]; [by exists bn |].
    rewrite lookup_insert_ne in Hk by done. by exists b'.
Qed.

Lemma registry_ok_emplace g n ls srcs :
  registry_ok g ->
  (forall k, k ∈ (Load.name <$> ls) -> k = n \/ k ∈ (Load.name <$> loads g)) ->
  (forall k, k ∈ (Source.name <$> srcs) ->
     k = n \/ k ∈ (Source.name <$> sources g)) ->
  (forall k, k ∈ (Load.name <$> loads g) -> k ∈ (Load.name <$> ls)) ->
  (forall k, k ∈ (Source.name <$> sources g) -> k ∈ (Source.name <$> srcs)) ->
  n ∈ (Load.name <$> ls) \/ n ∈ (Source.name <$> srcs) ->
  registry_ok (mkGrid srcs ls (br_emplace (breakers g) n) (faults g)).
Proof.
  intros Hok Hls Hsrcs Hls' Hsrcs' Hnew.
  assert (Hkeep : forall k, is_Some (breakers g !! k) ->
            is_Some (br_emplace (breakers g) n !! k)).
  { intros k [b Hb]. unfold br_emplace.
    destruct (breakers g !! n) eqn:Hn; [by eexists |].
    rewrite lookup_insert_ne by congruence. by eexists. }
  assert (Hat : is_Some (br_emplace (breakers g) n !! n)).
  { unfold br_emplace. destruct (breakers g !! n) eqn:Hn.
    - rewrite Hn. by eexists.
    - rewrite lookup_insert_eq. by eexists. }
  split; simpl.
  - intros k [-> | Hk]%Hls; [done |]. by apply Hkeep, (reg_loads g Hok).
  - intros k [-> | Hk]%Hsrcs; [done |]. by apply Hkeep, (reg_sources g Hok).
  - intros k Hk. by apply Hkeep, (reg_faults g Hok).
  - intros k b' Hk. unfold br_emplace in Hk.
    destruct (breakers g !! n) eqn:Hn; [by eapply (reg_ids g Hok) |].
    destruct (decide (n = k)) as [<- | Hne].
    + rewrite lookup_insert_eq in Hk. injection Hk as <-. by left.
    + rewrite lookup_insert_ne in Hk by done. by eapply (reg_ids g Hok).
  - intros k [b' Hk].
    assert (Hold : is_Some (breakers g !! k) ->
              k = "" \/ k ∈ (Load.name <$> ls) \/ k ∈ (Source.name <$> srcs)).
    { intros Hk0. destruct (reg_keys g Hok k Hk0) as [? | [? | ?]]; eauto. }
    unfold br_emplace in Hk.
    destruct (breakers g !! n) eqn:Hbn; [apply Hold; by exists b' |].
    destruct (decide (n = k)) as [<- | Hne]; [by right |].
    rewrite lookup_insert_ne in Hk by done. apply Hold. by exists b'.
Qed.

Lemma registry_ok_switch g index (f : Load.t F -> Load.t F) l :
  (forall l0, Load.name (f l0) = Load.name l0) ->
  registry_ok g -> loads g !! index = Some l ->
  registry_ok (mkGrid (sources g) (<[index := f l]> (loads g))
                 (breakers g) (faults g)).
Proof.
  intros Hf Hok Hl.
  assert (Hnames : Load.name <$> <[index := f l]> (loads g) = Load.name <$> loads g).
  { rewrite list_fmap_insert, Hf. apply list_insert_id.
    by rewrite list_lookup_fmap, Hl. }
  split; simpl; rewrite ?Hnames;
    [apply (reg_loads g Hok) | apply (reg_sources g Hok)
    | apply (reg_faults g Hok) | apply (reg_ids g Hok)
    | apply (reg_keys g Hok)].
Qed.

Lemma registry_ok_run g c g' :
  registry_ok g -> faults_tripped g -> run g c = Done g' -> registry_ok g'.
Proof.
  intros Hok Hft Hrun. destruct c; simpl in Hrun.
  - injection Hrun as <-. by apply registry_ok_simulate.
  - unfold injectManualFault in Hrun. destruct sel as [i | i |].
    + destruct (vec_at (loads g) i) as [l |] eqn:Hl; [| done].
      injection Hrun as <-. apply registry_ok_inject; [done |].
      right; left. unfold vec_at in Hl.
      destruct ((0 <=? i) && (i <? Z.of_nat (length (loads g)))); [| done].
      apply list_elem_of_fmap. exists l. split; [done |].
      by eapply list_elem_of_lookup_2.
    + destruct (vec_at (sources g) i) as [s |] eqn:Hs; [| done].
      injection Hrun as <-. apply registry_ok_inject; [done |].
      right; right. unfold vec_at in Hs.
      destruct ((0 <=? i) && (i <? Z.of_nat (length (sources g)))); [| done].
      apply list_elem_of_fmap. exists s. split; [done |].
      by eapply list_elem_of_lookup_2.
    + injection Hrun as <-. apply registry_ok_inject; [done | by left].
  - unfold resolveManualFault_steps in Hrun.
    destruct (vec_at (fault_order (faults g)) index) as [n |] eqn:Hn; [| done].
    injection Hrun as <-.
    apply registry_ok_simulate, registry_ok_clear; [done |].
    unfold vec_at in Hn.
    destruct ((0 <=? index) && (index <? Z.of_nat (length (fault_order (faults g)))));
      [| done].
    by eapply fault_order_elem, list_elem_of_lookup_2.
  - unfold disconnectLoad in Hrun.
    destruct (loads g !! index) as [l |] eqn:Hl; [| done].
    injection Hrun as <-. by apply registry_ok_switch.
  - unfold reconnectLoad in Hrun.
    destruct (loads g !! index) as [l |] eqn:Hl; [| done].
    injection Hrun as <-. by apply registry_ok_switch.
  - injection Hrun as <-. unfold addLoad.
    apply registry_ok_emplace; [done | | by right | | done |].
    + intros k Hk. rewrite fmap_app in Hk.
      apply elem_of_app in Hk as [Hk | Hk]; [by right | left].
      by apply list_elem_of_singleton in Hk.
    + intros k Hk. rewrite fmap_app. apply elem_of_app. by left.
    + left. rewrite fmap_app. apply elem_of_app. right. by left.
  - injection Hrun as <-. unfold addSource, register_source.
    apply registry_ok_simulate.
    apply registry_ok_emplace; [done | by right | | done | |].
    + intros k Hk. rewrite fmap_app in Hk.
      apply elem_of_app in Hk as [Hk | Hk]; [by right | left].
      by apply list_elem_of_singleton in Hk.
    + intros k Hk. rewrite fmap_app. apply elem_of_app. by left.
    + right. rewrite fmap_app. apply elem_of_app. right. by left.
Qed.

Lemma reachable_registry_ok g : reachable g -> registry_ok g.
Proof.
  induction 1 as [| g c g' Hg IH Hrun].
  - split; simpl; intros k; try (by intros ?%elem_of_nil);
      try (by intros ?%elem_of_empty).
    + intros b. by rewrite lookup_empty.
    + rewrite lookup_empty. by intros [? ?].
  - eapply registry_ok_run; [done | by apply reachable_faults_tripped | done].
Qed.
End Registry.

(** ** What a sequence of commands keeps *)

Section Inventory.
Context {F : Type} `{FloatOps F} `{StdSort}.
Implicit Types (g : GridManager F) (draws : nat -> Z).

Lemma load_kept_trans (l1 l2 l3 : Load.t F) :
  load_kept l1 l2 -> load_kept l2 l3 -> load_kept l1 l3.
Proof. intros (? & ? & ?) (? & ? & ?). repeat split; congruence. Qed.

Lemma source_kept_trans (s1 s2 s3 : Source.t F) :
  source_kept s1 s2 -> source_kept s2 s3 -> source_kept s1 s3.
Proof.
  intros (? & ? & Hd & ? & H12) (? & ? & ? & ? & H23).
  repeat split; try congruence.
  intros Hp. rewrite H23 by congruence. by apply H12.
Qed.

(** Command after command. *)
Lemma run_all_keeps g cs g' :
  run_all g cs = Done g' ->
  (forall i l, loads g !! i = Some l ->
     exists l', loads g' !! i = Some l' /\ load_kept l l') /\
  (forall i s, sources g !! i = Some s ->
     exists s', sources g' !! i = Some s' /\ source_kept s s') /\
  (forall k b, breakers g !! k = Some b ->
     exists b', breakers g' !! k = Some b' /\ Breaker.id b' = Breaker.id b).
Proof.
  revert g. induction cs as [| c cs IH]; intros g Hrun; simpl in Hrun.
  { injection Hrun as <-. split; [| split].
    - intros i l Hl. by exists l.
    - intros i s Hs. by exists s.
    - intros k b Hb. by exists b. }
  destruct (run g c) as [g1 | g1 |] eqn:Hc; try done.
  destruct (run_keeps g c g1 Hc) as (Hl1 & Hs1 & Hb1).
  destruct (IH g1 Hrun) as (Hl2 & Hs2 & Hb2).
  split; [| split].
  - intros i l Hl. destruct (Hl1 i l Hl) as (l1 & Hl1' & Hk1).
    destruct (Hl2 i l1 Hl1') as (l2 & Hl2' & Hk2).
    exists l2. split; [done |]. by eapply load_kept_trans.
  - intros i s Hs. destruct (Hs1 i s Hs) as (s1 & Hs1' & Hk1).
    destruct (Hs2 i s1 Hs1') as (s2 & Hs2' & Hk2).
    exists s2. split; [done |]. by eapply source_kept_trans.
  - intros k b Hb. destruct (Hb1 k b Hb) as (b1 & Hb1' & Hid1).
    destruct (Hb2 k b1 Hb1') as (b2 & Hb2' & Hid2).
    exists b2. split; [done | congruence].
Qed.

(** X3.  No sequence of menu commands removes, moves or renames what is
    registered.  A load stays at its index with its name, demand and
    priority; a source stays at its index with its name, status, dynamic
    type and renewable flag, and a conventional source (one that is no
    [SolarSource]) with its power output as well; a breaker entry stays in
    the registry with its id.  Only connectivity flags, tripped flags and
    solar outputs ever change. *)
Theorem X3_commands_keep_the_inventory g cs g' :
  run_all g cs = Done g' ->
  (forall i l, loads g !! i = Some l ->
     exists l', loads g' !! i = Some l' /\ load_kept l l') /\
  (forall i s, sources g !! i = Some s ->
     exists s', sources g' !! i = Some s' /\ source_kept s s') /\
  (forall k b, breakers g !! k = Some b ->
     exists b', breakers g' !! k = Some b' /\ Breaker.id b' = Breaker.id b).
Proof. apply run_all_keeps. Qed.

(** X16.  Menu choice 8.  For type 1 the power the operator types is
    ignored: the source is a [SolarSource], whatever the number.  For
    any other type the source is a conventional one with the power
    typed, renewable exactly for the types 2 and 3, and it keeps that
    power: after the registration and whatever commands follow, the
    entry at its index is the source as it was built. *)
Theorem X16_source_from_the_menu g name (power : F) (type : Z) :
  (type = 1 ->
     forall power', menu_source name power' type = Source.new_solar name) /\
  (type <> 1 ->
     menu_source name power type =
       Source.new_power name power ((type =? 2) || (type =? 3)) /\
     forall draws cs g',
       run_all (addSource draws g (menu_source name power type)).1 cs = Done g' ->
       sources g' !! length (sources g) = Some (menu_source name power type)).
Proof.
  split.
  - intros -> power'. done.
  - intros Htype.
    assert (Hsrc : menu_source name power type =
              Source.new_power name power ((type =? 2) || (type =? 3))).
    { unfold menu_source. by rewrite (proj2 (Z.eqb_neq type 1) Htype). }
    split; [done |]. intros draws cs g' Hrun.
    rewrite Hsrc in Hrun |- *.
    set (src := Source.new_power name power ((type =? 2) || (type =? 3))) in *.
    destruct (simulate_keeps draws (register_source g src)) as (_ & Hs & _).
    destruct (Hs (length (sources g)) src) as (s1 & Hs1 & Hk1).
    { simpl. by rewrite lookup_app_r, Nat.sub_diag. }
    destruct (run_all_keeps _ cs g' Hrun) as (_ & Hs' & _).
    destruct (Hs' (length (sources g)) s1 Hs1) as (s2 & Hs2 & Hk2).
    destruct Hk1 as (_ & _ & _ & _ & Heq1). rewrite (Heq1 eq_refl) in Hk2.
    destruct Hk2 as (_ & _ & _ & _ & Heq2). by rewrite (Heq2 eq_refl) in Hs2.
Qed.
End Inventory.

Lemma X3_witness :
  let cs := [InjectFault (SelSource 0); RunCycle draws0; ResolveFault draws0 0;
             AddLoad (Load.new "Depot-D" 5 4)] in
  exists g', run_all demo_grid cs = Done g' /\
    forall i l, loads demo_grid !! i = Some l ->
      exists l', loads g' !! i = Some l' /\ load_kept l l'.
Proof.
  intros cs.
  set (g' := match run_all demo_grid cs with Done a => a | _ => demo_grid end).
  assert (Hrun : run_all demo_grid cs = Done g') by (vm_compute; reflexivity).
  exists g'. split; [exact Hrun |].
  exact (proj1 (X3_commands_keep_the_inventory demo_grid cs g' Hrun)).
Defined.

(** ** The sources and the power of a cycle *)

Section SourcesThroughCycle.
Context {F : Type} `{FloatOps F} `{StdSort}.
Implicit Types (g : GridManager F) (draws : nat -> Z).

(** The source at position [i] after the loop, and the draw it used:
    one draw is made per live solar source, in vector order. *)
Lemma source_pass_at draws k srcs br br0 (P : F) i s :
  only_touched br0 br ->
  srcs !! i = Some s ->
  (source_pass draws k srcs br P).1.1 !! i =
    Some (if live_solar br0 s
          then Source.mk Source.SolarSource (Source.name s) true
                 (f_of_int
                    (20 + Z.rem
                       (draws (k + length
                                 (filter (fun s0 => live_solar br0 s0 = true)
                                    (take i srcs)))%nat) 30))
                 (Source.renewable s)
          else s).
Proof.
  revert k br P i. induction srcs as [| src rest IH]; intros k br P i Ht Hi;
    [done |].
  assert (Ht' : only_touched br0 (br_touch br (Source.getName src)))
    by (eapply only_touched_trans; [done | apply only_touched_touch]).
  assert (Hlive : live_solar br0 src =
            match Source.dyn src with
            | Source.SolarSource =>
                Source.status src && negb (is_tripped br0 (Source.getName src))
            | Source.PowerSource => false
            end) by done.
  simpl. rewrite (only_touched_tripped br0 br _ Ht).
  destruct (is_tripped br0 (Source.getName src)) eqn:Htr.
  - assert (Hoff : live_solar br0 src = false).
    { rewrite Hlive. destruct (Source.dyn src); [done |].
      by rewrite andb_false_r. }
    specialize (IH k (br_touch br (Source.getName src)) P).
    destruct (source_pass draws k rest _ P) as [[rest' br2] P2]; simpl in *.
    destruct i as [| i]; simpl in *.
    + injection Hi as <-. by rewrite Hoff.
    + rewrite filter_cons, decide_False by (by rewrite Hoff).
      by apply IH.
  - unfold Source.simulate.
    destruct (Source.dyn src) eqn:Hdyn.
    + assert (Hoff : live_solar br0 src = false) by (by rewrite Hlive).
      match goal with |- context [source_pass draws k rest ?b ?p] =>
        specialize (IH k b p); destruct (source_pass draws k rest b p)
          as [[rest' br2] P2]
      end; simpl in *.
      destruct i as [| i]; simpl in *.
      * injection Hi as <-. by rewrite Hoff.
      * rewrite filter_cons, decide_False by (by rewrite Hoff).
        by apply IH.
    + destruct (Source.status src) eqn:Hst.
      * assert (Hon : live_solar br0 src = true) by (by rewrite Hlive).
        match goal with |- context [source_pass draws (S k) rest ?b ?p] =>
          specialize (IH (S k) b p); destruct (source_pass draws (S k) rest b p)
            as [[rest' br2] P2]
        end; simpl in *.
        destruct i as [| i]; simpl in *.
        -- injection Hi as <-. rewrite Hon, Nat.add_0_r. done.
        -- rewrite filter_cons, decide_True by done. simpl.
           rewrite (IH i Ht' Hi). by rewrite Nat.add_succ_r.
      * assert (Hoff : live_solar br0 src = false) by (by rewrite Hlive).
        match goal with |- context [source_pass draws k rest ?b ?p] =>
          specialize (IH k b p); destruct (source_pass draws k rest b p)
            as [[rest' br2] P2]
        end; simpl in *.
        destruct i as [| i]; simpl in *.
        -- injection Hi as <-. by rewrite Hoff.
        -- rewrite filter_cons, decide_False by (by rewrite Hoff).
           by apply IH.
Qed.

(** X4.  What a cycle does to the sources.  Their number and order stay.
    A [SolarSource] that is connected and whose breaker is not tripped
    when the cycle begins gets the output [20 + std::rand() % 30], and
    the draw it gets is the one whose number is the count of such
    sources before it in the vector; its name, status, type and
    renewable flag stay.  Every other source (a conventional one, a
    disconnected one, one behind a tripped breaker) is left exactly as
    it is. *)
Theorem X4_cycle_resamples_only_live_solar draws g i s :
  sources g !! i = Some s ->
  length (sources (simulate draws g).1) = length (sources g) /\
  sources (simulate draws g).1 !! i =
    Some (if live_solar (breakers g) s
          then Source.mk Source.SolarSource (Source.name s) true
                 (f_of_int
                    (20 + Z.rem
                       (draws (length
                                 (filter
                                    (fun s0 => live_solar (breakers g) s0 = true)
                                    (take i (sources g))))) 30))
                 (Source.renewable s)
          else s).
Proof.
  intros Hs. rewrite simulate_sources. unfold cycle_sources.
  split; [apply source_pass_length |].
  by rewrite (source_pass_at draws 0%nat (sources g) (breakers g) (breakers g)
                f_zero i s (only_touched_refl _) Hs).
Qed.

(** X5.  The power a cycle reports is the sum, in vector order and
    starting from zero, of the outputs the cycle leaves in the sources
    that are connected and whose breaker was not tripped when the cycle
    began: a solar source counts with the output just drawn, and a
    source behind a tripped breaker counts for nothing. *)
Theorem X5_reported_power_is_the_live_sources draws g :
  totalPower (simulate draws g).2 =
  sum_power f_zero
    (filter (fun s => powered (breakers g) s = true)
       (sources (simulate draws g).1)).
Proof.
  destruct (simulate_totals draws g) as [-> _].
  rewrite simulate_sources. unfold cycle_power, cycle_sources.
  apply source_pass_sum, only_touched_refl.
Qed.
End SourcesThroughCycle.

Lemma X4_witness :
  sources (startup_grid 50) !! 0%nat =
    Some (Source.mk Source.SolarSource "SolarFarm-A" true 50 true) /\
  sources (simulate draws0 (startup_grid 50)).1 !! 0%nat =
    Some (Source.mk Source.SolarSource "SolarFarm-A" true 27 true) /\
  sources (simulate draws0 (inject_at (startup_grid 50) "SolarFarm-A")).1
    !! 0%nat =
    Some (Source.mk Source.SolarSource "SolarFarm-A" true 50 true).
Proof.
  assert (Hs : sources (startup_grid 50) !! 0%nat =
               Some (Source.mk Source.SolarSource "SolarFarm-A" true 50 true))
    by reflexivity.
  split; [exact Hs |]. split.
  - rewrite (proj2 (X4_cycle_resamples_only_live_solar draws0 (startup_grid 50)
                      0 _ Hs)).
    vm_compute; reflexivity.
  - rewrite (proj2 (X4_cycle_resamples_only_live_solar draws0
                      (inject_at (startup_grid 50) "SolarFarm-A") 0 _ Hs)).
    vm_compute; reflexivity.
Defined.

(** ** Loads that were shed *)

Section ShedLoads.
Context {F : Type} `{FloatOps F} `{StdSort}.
Implicit Types (br : BreakerMap) (ls : list (Load.t F)) (P D : F).
Implicit Types (g : GridManager F) (draws : nat -> Z).

(** A load that a cycle finds connected and leaves disconnected has its
    breaker tripped. *)
Lemma simulate_shed_tripped draws g i l l' :
  loads g !! i = Some l -> Load.connected l = true ->
  loads (simulate draws g).1 !! i = Some l' -> Load.connected l' = false ->
  l' = Load.disconnect l /\
  is_tripped (breakers (simulate draws g).1) (Load.name l) = true.
Proof.
  intros Hl Hc Hl' Hc'.
  destruct (simulate_shape draws g) as [(shed & _ & Hls & Hbr) | (_ & Hls & _)];
    rewrite Hls in Hl'.
  - rewrite disconnect_all_lookup, Hl in Hl'.
    destruct (decide (i ∈ shed)) as [Hi | _]; simpl in Hl';
      [| injection Hl' as <-; congruence].
    injection Hl' as <-. split; [done |].
    rewrite Hbr. apply trip_all_in, list_elem_of_fmap.
    exists i. split; [| done]. unfold name_at. by rewrite Hl.
  - apply restore_walk_lookup in Hl' as (l0 & Hl0 & Hcase).
    rewrite Hl in Hl0. injection Hl0 as <-.
    destruct Hcase as [-> | [-> _]]; simpl in *; congruence.
Qed.

(** One command that leaves load [i] alone. *)
Lemma run_tripped_off g c g' i l :
  loads g !! i = Some l -> Load.connected l = false ->
  is_tripped (breakers g) (Load.name l) = true ->
  Load.name l ∉ faults g ->
  leaves_alone i c = true ->
  run g c = Done g' ->
  loads g' !! i = Some l /\
  is_tripped (breakers g') (Load.name l) = true /\
  Load.name l ∉ faults g'.
Proof.
  intros Hl Hc Htr Hnf Hal Hrun. destruct c; simpl in Hrun, Hal; try done.
  - injection Hrun as <-.
    destruct (simulate_tripped_off draws g i l Hl Hc Htr) as [? ?].
    by rewrite simulate_faults.
  - unfold resolveManualFault_steps in Hrun.
    destruct (vec_at (fault_order (faults g)) index) as [n |] eqn:Hn; [| done].
    injection Hrun as <-.
    assert (Hin : n ∈ faults g).
    { unfold vec_at in Hn.
      destruct ((0 <=? index) &&
                (index <? Z.of_nat (length (fault_order (faults g))))); [| done].
      by eapply fault_order_elem, list_elem_of_lookup_2. }
    assert (Hne : n <> Load.name l) by (intros ->; done).
    destruct (simulate_tripped_off draws (clear_fault g n) i l) as [? ?];
      [done | done | |].
    { simpl. unfold is_tripped. by rewrite br_get_reset_ne. }
    split; [done |]. split; [done |].
    rewrite simulate_faults. simpl. rewrite elem_of_difference. by intros [? _].
  - unfold disconnectLoad in Hrun.
    destruct (loads g !! index) as [l0 |] eqn:Hl0; [| done].
    injection Hrun as <-. simpl. split; [| done].
    destruct (decide (index = i)) as [-> | Hne].
    + rewrite Hl in Hl0. injection Hl0 as <-.
      rewrite list_lookup_insert_eq by (by eapply lookup_lt_Some).
      by rewrite disconnect_off.
    + by rewrite list_lookup_insert_ne.
  - unfold reconnectLoad in Hrun.
    destruct (loads g !! index) as [l0 |] eqn:Hl0; [| done].
    injection Hrun as <-. simpl. split; [| done].
    apply negb_true_iff, Nat.eqb_neq in Hal.
    by rewrite list_lookup_insert_ne.
  - injection Hrun as <-. simpl.
    split; [by apply lookup_app_l_Some |].
    split; [by rewrite is_tripped_emplace | done].
  - injection Hrun as <-. unfold addSource.
    destruct (simulate_tripped_off draws (register_source g src) i l) as [? ?];
      [done | done | |].
    { simpl. by rewrite is_tripped_emplace. }
    by rewrite simulate_faults.
Qed.

(** X6.  The program never brings a shed load back by itself.  A load
    that a cycle sheds stays disconnected, behind its tripped breaker,
    through every later cycle and through every later command that is
    neither a fault injection nor a manual reconnection of that very
    load: running cycles, resolving the other faults (the one that caused
    the shortage included) and adding loads or sources do not reconnect
    it, however much power there is.  (The load's own name must not be
    in the fault set; resolving a fault of that name resets the
    breaker.) *)
Theorem X6_shed_load_stays_off draws g i l l' cs g' :
  loads g !! i = Some l -> Load.connected l = true ->
  loads (simulate draws g).1 !! i = Some l' -> Load.connected l' = false ->
  Load.name l ∉ faults g ->
  forallb (leaves_alone i) cs = true ->
  run_all (simulate draws g).1 cs = Done g' ->
  loads g' !! i = Some l' /\
  is_tripped (breakers g') (Load.name l) = true.
Proof.
  intros Hl Hc Hl' Hc' Hnf Hcs Hrun.
  destruct (simulate_shed_tripped draws g i l l' Hl Hc Hl' Hc') as [Heq Htr].
  assert (Hname : Load.name l' = Load.name l) by (by rewrite Heq).
  rewrite <- Hname in Htr |- *. rewrite <- Hname in Hnf.
  rewrite <- (simulate_faults draws g) in Hnf.
  clear Hl Hc Heq Hname.
  revert Hl' Htr Hnf Hrun. generalize (simulate draws g).1. intros g1.
  revert g1. induction cs as [| c cs IH]; intros g1 Hl' Htr Hnf Hrun;
    simpl in Hrun, Hcs.
  { by injection Hrun as <-. }
  apply andb_true_iff in Hcs as [Hc1 Hcs].
  destruct (run g1 c) as [g2 | g2 |] eqn:Hstep; try done.
  destruct (run_tripped_off g1 c g2 i l' Hl' Hc' Htr Hnf Hc1 Hstep)
    as (? & ? & ?).
  by apply (IH Hcs g2).
Qed.

(** X7.  Shedding respects priorities whatever [std::sort] does with
    ties: when a cycle sheds a load, it also sheds every connected load
    whose priority value is strictly greater. *)
Theorem X7_shedding_respects_priority draws g i j li lj li' :
  loads g !! i = Some li -> Load.connected li = true ->
  loads (simulate draws g).1 !! i = Some li' -> Load.connected li' = false ->
  loads g !! j = Some lj -> Load.connected lj = true ->
  Load.priority li < Load.priority lj ->
  loads (simulate draws g).1 !! j = Some (Load.disconnect lj).
Proof.
  intros Hi Hci Hi' Hci' Hj Hcj Hlt.
  destruct (simulate_disconnected draws g i li li' Hi Hci Hi' Hci')
    as (shed & rest & Hsplit & -> & Hin).
  rewrite disconnect_all_lookup, Hj.
  destruct (decide (j ∈ shed)) as [_ | Hnot]; [done | exfalso].
  assert (Hjc : j ∈ shed_candidates (loads g))
    by (apply shed_candidates_elem; eauto).
  rewrite Hsplit in Hjc. apply elem_of_app in Hjc as [? | Hjr]; [done |].
  pose proof (shed_candidates_sorted (loads g)) as Hsorted.
  rewrite Hsplit in Hsorted.
  pose proof (StronglySorted_app_1_elem_of _ _ _ i j Hsorted Hin Hjr) as Hle.
  simpl in Hle. unfold priority_at in Hle. rewrite Hi, Hj in Hle.
  unfold Load.getPriority in Hle. lia.
Qed.

(** X8.  Reconnection never overcommits the supply.  In a cycle without
    a deficit, let [back] be the reconnection candidates that end up
    connected, in the order the loop visits them.  Then the final demand
    is the reported demand with the demands of [back] added one after
    the other, the lines the cycle prints name exactly [back], and when
    any load was reconnected the reported power is at least the final
    demand. *)
Theorem X8_reconnection_fits draws g :
  let g' := (simulate draws g).1 in
  let r := (simulate draws g).2 in
  let back := filter (fun i => connected_at (loads g') i = true)
                (restore_candidates (loads g) (cycle_breakers draws g)) in
  f_lt (totalPower r) (totalDemand r) = false ->
  finalDemand r = foldl f_add (totalDemand r) (demand_at (loads g) <$> back) /\
  reconnectedLoads r = name_at (loads g) <$> back /\
  (back <> [] -> f_ge (totalPower r) (finalDemand r) = true).
Proof.
  intros g' r back. subst g' r back.
  destruct (simulate_totals draws g) as [-> ->]. intros Hlt.
  destruct (restore_walk_total (cycle_power draws g)
              (restore_candidates (loads g) (cycle_breakers draws g))
              (loads g) (cycle_demand draws g)) as (HD & Hfit & Hlog).
  { apply restore_candidates_NoDup. }
  { intros i (l & Hl & Hc & _)%restore_candidates_elem.
    unfold connected_at. by rewrite Hl. }
  destruct (restore_walk (cycle_power draws g)
              (restore_candidates (loads g) (cycle_breakers draws g))
              (loads g) (cycle_demand draws g)) as [[ls3 D3] log] eqn:Hw.
  rewrite (simulate_surplus draws g Hlt _ _ _ Hw). simpl in *.
  by split; [| split].
Qed.
End ShedLoads.

Lemma X6_witness :
  let g := inject_at demo_grid "HydroStation" in
  let cs := [ResolveFault draws0 0; RunCycle draws0; AddSource draws0 hydro] in
  exists g', run_all (simulate draws0 g).1 cs = Done g' /\
    loads g' !! 0%nat = Some (Load.disconnect factory) /\
    is_tripped (breakers g') "Factory-A" = true.
Proof.
  intros g cs.
  set (g' := match run_all (simulate draws0 g).1 cs with
             | Done a => a | _ => g end).
  assert (Hrun : run_all (simulate draws0 g).1 cs = Done g')
    by (vm_compute; reflexivity).
  exists g'. split; [exact Hrun |].
  apply (X6_shed_load_stays_off draws0 g 0 factory (Load.disconnect factory) cs g').
  - vm_compute; reflexivity.
  - reflexivity.
  - vm_compute; reflexivity.
  - reflexivity.
  - vm_compute. intros Hin. discriminate Hin.
  - reflexivity.
  - exact Hrun.
Defined.

Lemma X7_witness :
  loads (simulate draws0 small_grid).1 !! 0%nat =
    Some (Load.disconnect (Load.new "A" 10 5)).
Proof.
  apply (X7_shedding_respects_priority draws0 small_grid 1 0
           (Load.new "B" 20 3) (Load.new "A" 10 5)
           (Load.disconnect (Load.new "B" 20 3))).
  - vm_compute; reflexivity.
  - reflexivity.
  - vm_compute; reflexivity.
  - reflexivity.
  - vm_compute; reflexivity.
  - reflexivity.
  - vm_compute; reflexivity.
Defined.

Lemma X8_witness :
  reconnectedLoads (simulate draws0 house_off_grid).2 = ["House-B"] /\
  f_ge (totalPower (simulate draws0 house_off_grid).2)
       (finalDemand (simulate draws0 house_off_grid).2) = true.
Proof.
  assert (Hlt : f_lt (totalPower (simulate draws0 house_off_grid).2)
                  (totalDemand (simulate draws0 house_off_grid).2) = false)
    by (vm_compute; reflexivity).
  destruct (X8_reconnection_fits draws0 house_off_grid Hlt) as (_ & Hlog & Hfit).
  split.
  - rewrite Hlog. vm_compute; reflexivity.
  - apply Hfit. vm_compute. intros Hnil. discriminate Hnil.
Defined.

(** ** The registry and its report *)

Section RegistryReport.
Context {F : Type} `{FloatOps F} `{StdSort}.
Implicit Types (g : GridManager F) (draws : nat -> Z).

(** X9.  In every state the program can reach, the registry matches the
    inventory: each load, each source and each active fault has a
    breaker entry; there is no entry under any other name, but possibly
    the empty one; and each breaker carries the name it is filed under
    as its id, but for the entry a fault at the empty name creates,
    whose id is ["unknown"].  Hence the look-ups of a cycle never create
    an entry: a cycle leaves the set of registry keys as it is. *)
Theorem X9_registry_matches_inventory g :
  reachable g ->
  registry_ok g /\
  forall draws, dom (breakers (simulate draws g).1) =@{gset string} dom (breakers g).
Proof.
  intros Hreach. pose proof (reachable_registry_ok g Hreach) as Hok.
  split; [done |]. intros draws. apply set_eq. intros k.
  rewrite !elem_of_dom. split; intros [b Hb].
  - destruct (simulate_entry_origin draws g k b Hok Hb) as (b0 & Hb0 & _).
    by exists b0.
  - destruct (simulate_keeps_entry draws g k b Hb) as (b' & Hb' & _).
    by exists b'.
Qed.

Lemma breaker_order_keys (m : BreakerMap) :
  (breaker_order m).*1 = merge_sort String.le (elements (dom m)).
Proof.
  assert (Htrans : Transitive (fun p q : string * Breaker.t => String.le p.1 q.1))
    by (intros p q r ? ?; by etrans).
  assert (Htotal : Total (fun p q : string * Breaker.t => String.le p.1 q.1))
    by (intros p q; apply total; apply _).
  apply (StronglySorted_unique String.le).
  - eapply (StronglySorted_fmap fst); [| by apply StronglySorted_merge_sort].
    by intros p q.
  - apply StronglySorted_merge_sort; apply _.
  - rewrite merge_sort_Permutation. unfold breaker_order.
    rewrite merge_sort_Permutation.
    apply NoDup_Permutation.
    + apply NoDup_fst_map_to_list.
    + apply NoDup_elements.
    + intros k. rewrite elem_of_elements, elem_of_dom, list_elem_of_fmap.
      split.
      * intros ([k' b] & -> & Hin). apply elem_of_map_to_list in Hin.
        by exists b.
      * intros [b Hb]. exists (k, b). split; [done |].
        by apply elem_of_map_to_list.
Qed.

(** X10.  [showBreakers] prints one line for each key of the registry,
    in ascending order of the keys, and the word on the line is TRIPPED
    exactly when the cycle treats that name as tripped.  Components that
    share a name therefore share one line. *)
Theorem X10_breaker_report_lists_the_registry g :
  showBreakers g =
    status_line (breakers g) <$>
      merge_sort String.le (elements (dom (breakers g))) /\
  length (showBreakers g) = size (breakers g).
Proof.
  split.
  - rewrite <- breaker_order_keys. unfold showBreakers.
    rewrite <- list_fmap_compose. apply list_fmap_ext.
    intros i [k b] Hi. simpl. unfold status_line, is_tripped.
    assert (Hin : (k, b) ∈ map_to_list (breakers g)).
    { rewrite <- (merge_sort_Permutation (fun p q => String.le p.1 q.1)).
      by eapply list_elem_of_lookup_2. }
    apply elem_of_map_to_list in Hin. by rewrite (br_get_lookup _ _ _ Hin).
  - unfold showBreakers, breaker_order.
    by rewrite length_fmap, merge_sort_Permutation, length_map_to_list.
Qed.
End RegistryReport.

Lemma X9_witness :
  registry_ok demo_grid /\
  dom (breakers (simulate draws0 demo_grid).1) =@{gset string}
  dom (breakers demo_grid).
Proof.
  destruct (X9_registry_matches_inventory demo_grid demo_grid_reachable)
    as [Hok Hdom].
  split; [exact Hok | exact (Hdom draws0)].
Defined.

(** ** Tokens that are no labels *)

Lemma stoi_decimal_any (n : nat) :
  stoi (decimal n) =
  if Z.of_nat n <=? INT_MAX then inl (Z.of_nat n) else inr out_of_range.
Proof.
  destruct (decimal_head n) as (d & rest & Hd & Hhead).
  destruct (digit_char_plain d Hd) as (Hsp & Hminus & Hplus).
  destruct (read_decimal_go (S n) (N.of_nat n) "" 0 false ltac:(lia)) as [p Hp].
  fold (decimal n) in Hp. simpl in Hp.
  assert (Hread : read_digits (decimal n) 0 false = Some (Z.of_nat n))
    by (rewrite Hp; f_equal; lia).
  assert (Hlo : (INT_MIN <=? Z.of_nat n) = true)
    by (apply Z.leb_le; unfold INT_MIN; lia).
  unfold stoi. rewrite Hhead. simpl. rewrite Hsp, Hminus, Hplus.
  rewrite <- Hhead, Hread. by rewrite Hlo.
Qed.

Lemma stoi_minus_decimal (n : nat) :
  stoi ("-" +:+ decimal n) =
  if Z.of_nat n <=? - INT_MIN then inl (- Z.of_nat n) else inr out_of_range.
Proof.
  destruct (read_decimal_go (S n) (N.of_nat n) "" 0 false ltac:(lia)) as [p Hp].
  fold (decimal n) in Hp. simpl in Hp.
  assert (Hread : read_digits (decimal n) 0 false = Some (Z.of_nat n))
    by (rewrite Hp; f_equal; lia).
  assert (Hhi : (- Z.of_nat n <=? INT_MAX) = true)
    by (apply Z.leb_le; unfold INT_MAX; lia).
  clear Hp. revert Hread. generalize (decimal n). intros d Hread.
  unfold stoi. simpl. change ("" +:+ d) with d.
  rewrite Hread, Hhi, andb_true_r.
  destruct (Z.of_nat n <=? - INT_MIN) eqn:Hle.
  - apply Z.leb_le in Hle.
    by rewrite (proj2 (Z.leb_le INT_MIN (- Z.of_nat n)) ltac:(lia)).
  - apply Z.leb_gt in Hle.
    by rewrite (proj2 (Z.leb_gt INT_MIN (- Z.of_nat n)) ltac:(lia)).
Qed.

Section Tokens.
Context {F : Type} `{FloatOps F} `{StdSort}.
Implicit Types (g : GridManager F) (draws : nat -> Z).

(** X11.  What [injectManualFault] does with a token that is none of the
    labels it printed.
    - A token that does not start with [L] or [S] (a lower-case label,
      say), and the empty token, fault the empty name: no component is
      touched, the empty name joins the fault set and its breaker is
      tripped; a registry without an entry for the empty name gets one
      whose id is ["unknown"].
    - [L] or [S] followed by text [std::stoi] rejects ends the call with
      that exception, which nothing catches; [L] alone is such a token.
    - An index that does not fit [int] ends it with [out_of_range].
    - A negative index is converted and used: the access is out of
      range and has no defined behaviour. *)
Theorem X11_tokens_that_are_no_labels g :
  (forall c rest, Ascii.eqb c "L" = false -> Ascii.eqb c "S" = false ->
     injectManualFault_input g (String c rest) = Returns (Done (inject_at g ""))) /\
  injectManualFault_input g "" = Returns (Done (inject_at g "")) /\
  (loads (inject_at g "") = loads g /\ sources (inject_at g "") = sources g /\
   "" ∈ faults (inject_at g "") /\
   is_tripped (breakers (inject_at g "")) "" = true /\
   (forall k, k <> "" -> breakers (inject_at g "") !! k = breakers g !! k) /\
   (breakers g !! "" = None ->
      breakers (inject_at g "") !! "" = Some (Breaker.mk "unknown" true))) /\
  (forall rest e, stoi rest = inr e ->
     injectManualFault_input g ("L" +:+ rest) = Throws e /\
     injectManualFault_input g ("S" +:+ rest) = Throws e) /\
  injectManualFault_input g "L" = Throws invalid_argument /\
  (forall n : nat, INT_MAX < Z.of_nat n ->
     injectManualFault_input g ("L" +:+ decimal n) = Throws out_of_range) /\
  (forall n : nat, 0 < Z.of_nat n <= - INT_MIN ->
     injectManualFault_input g ("L" +:+ "-" +:+ decimal n) = Returns Undefined /\
     injectManualFault_input g ("S" +:+ "-" +:+ decimal n) = Returns Undefined).
Proof.
  split; [| split; [| split; [| split; [| split; [| split]]]]].
  - intros c rest HL HS. unfold injectManualFault_input, read_selector.
    by rewrite HL, HS.
  - done.
  - split; [done |]. split; [done |].
    split; [simpl; apply elem_of_union_r; by apply elem_of_singleton |].
    split; [apply is_tripped_trip_eq |].
    split.
    + intros k Hk. simpl. unfold br_trip.
      rewrite lookup_insert_ne by done. unfold br_touch.
      destruct (breakers g !! "") eqn:He; [done |].
      by rewrite lookup_insert_ne.
    + intros Hnone. simpl. unfold br_trip, br_get.
      by rewrite lookup_insert_eq, Hnone.
  - intros rest e He. unfold injectManualFault_input.
    change ("L" +:+ rest) with (String "L" rest).
    change ("S" +:+ rest) with (String "S" rest).
    simpl. by rewrite He.
  - done.
  - intros n Hn. unfold injectManualFault_input.
    change ("L" +:+ decimal n) with (String "L" (decimal n)).
    simpl. rewrite stoi_decimal_any.
    by rewrite (proj2 (Z.leb_gt (Z.of_nat n) INT_MAX) Hn).
  - intros n [Hpos Hmin]. unfold injectManualFault_input.
    change ("L" +:+ "-" +:+ decimal n) with (String "L" ("-" +:+ decimal n)).
    change ("S" +:+ "-" +:+ decimal n) with (String "S" ("-" +:+ decimal n)).
    unfold read_selector.
    change (Ascii.eqb "L" "L") with true. change (Ascii.eqb "S" "L") with false.
    change (Ascii.eqb "S" "S") with true. cbv iota.
    rewrite stoi_minus_decimal.
    rewrite (proj2 (Z.leb_le (Z.of_nat n) (- INT_MIN)) Hmin). simpl.
    rewrite !vec_at_out_of_range; [done | left; lia | left; lia].
Qed.

(** X12.  Injecting a fault and clearing it again is a round trip.  For
    a name that is registered, not tripped and not faulted, the
    injection followed by the reset of the breaker and the erase of the
    fault (lines 217-218 of the resolution) gives back the state as it
    was, and the name stands at some index of the fault list.  The call
    of [resolveManualFault] itself has no defined behaviour (line 219);
    a run of choice 3 at that index that does end, ends in the state one
    cycle on the old state leaves.  Injecting the same fault a second
    time changes nothing. *)
Theorem X12_inject_then_clear_is_a_round_trip g n b :
  breakers g !! n = Some b -> Breaker.tripped b = false -> n ∉ faults g ->
  inject_at (inject_at g n) n = inject_at g n /\
  clear_fault (inject_at g n) n = g /\
  (exists i, fault_order (faults (inject_at g n)) !! i = Some n) /\
  (forall draws index g',
     vec_at (fault_order (faults (inject_at g n))) index = Some n ->
     run (inject_at g n) (ResolveFault draws index) = Done g' ->
     g' = (simulate draws g).1).
Proof.
  intros Hb Htr Hnf.
  assert (Htrip : br_trip (breakers g) n = <[n := Breaker.trip b]> (breakers g))
    by (by apply br_trip_present).
  assert (Hclear : clear_fault (inject_at g n) n = g).
  { destruct g as [srcs ls br X]. unfold clear_fault, inject_at. simpl in *.
    f_equal.
    - rewrite Htrip.
      rewrite (br_reset_present _ n (Breaker.trip b)) by apply lookup_insert_eq.
      rewrite insert_insert_eq. apply insert_id.
      rewrite Hb. destruct b as [i t]. simpl in *. by rewrite Htr.
    - apply set_eq. intros k.
      rewrite elem_of_difference, elem_of_union, !elem_of_singleton.
      split; [by intros [[? | ?] ?] |].
      intros Hk. split; [by left |]. by intros ->. }
  split; [| split; [done | split]].
  - unfold inject_at. simpl. f_equal.
    + rewrite Htrip.
      rewrite (br_trip_present _ n (Breaker.trip b)) by apply lookup_insert_eq.
      by rewrite insert_insert_eq.
    + apply set_eq. intros k. rewrite !elem_of_union, !elem_of_singleton.
      split; [intros [[? | ?] | ?]; eauto | intros [? | ?]; eauto].
  - apply list_elem_of_lookup, fault_order_elem. simpl.
    apply elem_of_union_r. by apply elem_of_singleton.
  - intros draws index g' Hvec Hrun. simpl in Hrun.
    unfold resolveManualFault_steps in Hrun. rewrite Hvec in Hrun.
    simpl in Hrun. injection Hrun as <-. by rewrite Hclear.
Qed.
End Tokens.

Lemma X12_witness :
  clear_fault (inject_at demo_grid "Factory-A") "Factory-A" = demo_grid /\
  fault_order (faults (inject_at demo_grid "Factory-A")) !! 0%nat =
    Some "Factory-A".
Proof.
  destruct (X12_inject_then_clear_is_a_round_trip demo_grid "Factory-A"
              (Breaker.mk "Factory-A" false))
    as (_ & Hclear & _ & _).
  - vm_compute; reflexivity.
  - reflexivity.
  - vm_compute. intros Hin. discriminate Hin.
  - split; [exact Hclear | vm_compute; reflexivity].
Defined.

(** ** Switching a load by hand *)

Section ManualSwitch.
Context {F : Type} `{FloatOps F} `{StdSort}.
Implicit Types (br : BreakerMap) (ls : list (Load.t F)) (P D : F).
Implicit Types (g : GridManager F) (draws : nat -> Z).

(** The loop over the loads passes over a load behind a tripped breaker,
    whatever its connectivity flag says. *)
Lemma load_pass_insert_tripped ls br br0 D i l l' :
  only_touched br0 br ->
  ls !! i = Some l -> Load.name l' = Load.name l ->
  is_tripped br0 (Load.name l) = true ->
  load_pass (<[i := l']> ls) br D = load_pass ls br D.
Proof.
  revert i br D. induction ls as [| l0 rest IH]; intros i br D Ht Hi Hn Htr;
    [done |].
  assert (Ht' : forall n, only_touched br0 (br_touch br n))
    by (intros n; eapply only_touched_trans; [done | apply only_touched_touch]).
  destruct i as [| i]; simpl in *.
  - injection Hi as ->. unfold Load.getName. rewrite Hn.
    by rewrite (only_touched_tripped br0 br _ Ht), Htr.
  - destruct (is_tripped br (Load.getName l0)); by eapply IH.
Qed.

(** X13.  Switching a load by hand while its breaker is tripped changes
    neither of the two totals of the next cycle: menu choices 4 and 5
    set the connectivity flag, but the cycle leaves a load behind a
    tripped breaker out of the demand either way, so the power and the
    demand it reports are those it would report without the switch, and
    the breaker stays tripped.  A shed load that the operator reconnects
    shows as connected and still adds nothing to the demand.  (What the
    cycle then sheds can differ: a connected load is a shedding
    candidate even behind a tripped breaker; see
    [switching_a_tripped_load_can_change_the_shedding].) *)
Theorem X13_switching_a_tripped_load_keeps_the_totals draws g i l g1 :
  loads g !! i = Some l ->
  is_tripped (breakers g) (Load.name l) = true ->
  reconnectLoad g i = Done g1 \/ disconnectLoad g i = Done g1 ->
  totalPower (simulate draws g1).2 = totalPower (simulate draws g).2 /\
  totalDemand (simulate draws g1).2 = totalDemand (simulate draws g).2 /\
  is_tripped (breakers (simulate draws g1).1) (Load.name l) = true.
Proof.
  intros Hl Htr Hsw.
  assert (Hg1 : exists l', Load.name l' = Load.name l /\
            g1 = mkGrid (sources g) (<[i := l']> (loads g)) (breakers g) (faults g)).
  { unfold reconnectLoad, disconnectLoad in Hsw. rewrite Hl in Hsw.
    destruct Hsw as [Hsw | Hsw]; injection Hsw as <-;
      [by exists (Load.reconnect l) | by exists (Load.disconnect l)]. }
  destruct Hg1 as (l' & Hn & ->).
  destruct (simulate_totals draws g) as [-> ->].
  destruct (simulate_totals draws
              (mkGrid (sources g) (<[i := l']> (loads g)) (breakers g) (faults g)))
    as [-> ->].
  split; [done |]. split.
  - unfold cycle_demand. simpl.
    by rewrite (load_pass_insert_tripped (loads g) _ (breakers g) f_zero i l l'
                  (source_pass_touched _ _ _ _ _) Hl Hn Htr).
  - by apply simulate_keeps_tripped.
Qed.
End ManualSwitch.

Lemma X13_witness :
  let g := blackout_grid in
  exists g1, reconnectLoad g 0 = Done g1 /\
    Load.connected <$> loads g1 !! 0%nat = Some true /\
    totalDemand (simulate draws0 g1).2 = totalDemand (simulate draws0 g).2.
Proof.
  intros g.
  set (g1 := match reconnectLoad g 0 with Done a => a | _ => g end).
  assert (Hrun : reconnectLoad g 0 = Done g1) by (vm_compute; reflexivity).
  exists g1. split; [exact Hrun |]. split; [vm_compute; reflexivity |].
  destruct (X13_switching_a_tripped_load_keeps_the_totals draws0 g 0
              (Load.disconnect factory) g1) as (_ & Hd & _).
  - vm_compute; reflexivity.
  - vm_compute; reflexivity.
  - left. exact Hrun.
  - exact Hd.
Defined.

(** The totals are all that stays: on [small_grid], where load A is
    connected behind a tripped breaker, a cycle sheds A and then B; once
    the operator has switched A off it sheds B alone. *)
Lemma switching_a_tripped_load_can_change_the_shedding :
  is_tripped (breakers small_grid) "A" = true /\
  exists g1, disconnectLoad small_grid 0 = Done g1 /\
    totalDemand (simulate draws0 small_grid).2 = 25 /\
    totalDemand (simulate draws0 g1).2 = 25 /\
    trippedLoads (simulate draws0 small_grid).2 = ["A"; "B"] /\
    trippedLoads (simulate draws0 g1).2 = ["B"].
Proof.
  split; [reflexivity |].
  eexists. split; [reflexivity |]. repeat split; vm_compute; reflexivity.
Qed.

(** ** The start-up of [main] *)

Section Draws.
Context {F : Type} `{FloatOps F} `{StdSort}.
Implicit Types (g : GridManager F).

(** A cycle uses [std::rand()] modulo 30 only. *)
Lemma source_pass_draws_ext (d d' : nat -> Z) k srcs br (P : F) :
  (forall j, Z.rem (d j) 30 = Z.rem (d' j) 30) ->
  source_pass d k srcs br P = source_pass d' k srcs br P.
Proof.
  intros Hext. revert k br P.
  induction srcs as [| src rest IH]; intros k br P; simpl; [done |].
  assert (Hsim : Source.simulate d k src = Source.simulate d' k src)
    by (unfold Source.simulate; by rewrite Hext).
  rewrite Hsim. destruct (is_tripped br (Source.getName src)).
  - by rewrite IH.
  - destruct (Source.simulate d' k src) as [src' k']. by rewrite IH.
Qed.

Lemma simulate_draws_ext (d d' : nat -> Z) g :
  (forall j, Z.rem (d j) 30 = Z.rem (d' j) 30) ->
  simulate d g = simulate d' g.
Proof.
  intros Hext. unfold simulate.
  by rewrite (source_pass_draws_ext d d' _ _ _ _ Hext).
Qed.

(** When only the first draw matters, its remainder decides. *)
Lemma simulate_first_draw (d : nat -> Z) g :
  0 <= d 0%nat ->
  simulate d g =
  simulate (fun j => match j with O => Z.rem (d 0%nat) 30 | S _ => d j end) g.
Proof.
  intros Hpos. apply simulate_draws_ext. intros [| j]; [| done].
  symmetry. apply Z.rem_small. apply Z.rem_bound_pos; lia.
Qed.
End Draws.

Lemma first_draw_cases (Q : Z -> Prop) (d : nat -> Z) :
  0 <= d 0%nat ->
  (forall n : nat, (n < 30)%nat -> Q (Z.of_nat n)) ->
  Q (Z.rem (d 0%nat) 30).
Proof.
  intros Hpos Hall.
  pose proof (Z.rem_bound_pos (d 0%nat) 30 Hpos ltac:(lia)) as Hr.
  rewrite <- (Z2Nat.id (Z.rem (d 0%nat) 30)) by lia. apply Hall. lia.
Qed.

(** A cycle whose outcome the first draw decides. *)
Local Ltac by_first_draw S d Hpos :=
  rewrite (simulate_determined S keeping_sort)
    by (by apply (bool_decide_unpack _));
  rewrite (simulate_first_draw d _ Hpos);
  pattern (Z.rem (d 0%nat) 30); apply (first_draw_cases _ d Hpos);
  let n := fresh "n" in let Hn := fresh "Hn" in
  intros n Hn;
  do 30 (destruct n as [| n]; [reflexivity |]); lia.

Lemma startup_cycle (S : StdSort) (d : nat -> Z) (v : Z) :
  0 <= d 0%nat ->
  @simulate Z _ S d (startup_grid v) =
    (startup_grid (20 + Z.rem (d 0%nat) 30),
     mkReport (80 + Z.rem (d 0%nat) 30) 55 [] [] [] 55).
Proof. intros Hpos. by_first_draw S d Hpos. Qed.

Lemma main_setup_startup (S : StdSort) (d1 d2 : nat -> Z) :
  0 <= d1 0%nat -> 0 <= d2 0%nat ->
  @main_setup Z _ S d1 d2 = startup_grid (20 + Z.rem (d2 0%nat) 30).
Proof.
  intros H1 H2. unfold main_setup, addSource.
  set (ga := fun v : Z =>
         mkGrid [Source.mk Source.SolarSource "SolarFarm-A" true v true] []
           (br_emplace (∅ : BreakerMap) "SolarFarm-A") (∅ : gset string)).
  assert (Ha : (@simulate Z _ S d1
                  (register_source empty_grid (Source.new_solar "SolarFarm-A"))).1
               = ga (20 + Z.rem (d1 0%nat) 30)).
  { subst ga. by_first_draw S d1 H1. }
  rewrite Ha. generalize (20 + Z.rem (d1 0%nat) 30). intros v.
  set (gb := fun w : Z =>
         mkGrid [Source.mk Source.SolarSource "SolarFarm-A" true w true; hydro] []
           (foldl br_emplace (∅ : BreakerMap) ["SolarFarm-A"; "HydroStation"])
           (∅ : gset string)).
  assert (Hb : (@simulate Z _ S d2
                  (register_source (ga v)
                     (Source.new_power "HydroStation" (f_of_int 60) false))).1
               = gb (20 + Z.rem (d2 0%nat) 30)).
  { subst ga gb. by_first_draw S d2 H2. }
  rewrite Hb. generalize (20 + Z.rem (d2 0%nat) 30). intros w.
  reflexivity.
Qed.

(** The start-up of [main], seventeen loads of priority 5 added through
    choice 7, and a cycle, in the build with GCC's library and for every
    value [std::rand()] can return: the cycle runs into a deficit, sheds
    N7 first, and leaves N0, the first of the seventeen to be registered,
    connected. *)
Lemma tied_cycle_for_every_draw (d1 d2 d : nat -> Z) :
  0 <= d1 0%nat -> 0 <= d2 0%nat -> 0 <= d 0%nat ->
  let g := foldl addLoad (@main_setup Z _ libstdcxx d1 d2)
             ((fun i => Load.new ("N" +:+ decimal i) 10 5) <$> seq 0 17) in
  let r := (@simulate Z _ libstdcxx d g).2 in
  let g' := (@simulate Z _ libstdcxx d g).1 in
  f_lt (totalPower r) (totalDemand r) = true /\
  head (trippedLoads r) = Some "N7" /\
  loads g' !! 3%nat = Some (Load.mk "N0" 10 true 5).
Proof.
  intros H1 H2 Hpos. cbv zeta.
  rewrite (main_setup_startup libstdcxx d1 d2 H1 H2).
  generalize (20 + Z.rem (d2 0%nat) 30). intros v.
  rewrite (@simulate_first_draw Z _ libstdcxx d _ Hpos).
  pattern (Z.rem (d 0%nat) 30). apply (first_draw_cases _ d Hpos).
  intros n Hn.
  do 30 (destruct n as [| n]; [repeat split; vm_compute; reflexivity |]).
  lia.
Qed.

Lemma startup_cycles (S : StdSort) (ds : list (nat -> Z)) (v : Z) :
  Forall (fun d => 0 <= d 0%nat) ds ->
  exists v', @cycles Z _ S ds (startup_grid v) = startup_grid v'.
Proof.
  intros Hds. revert v. induction Hds as [| d ds Hd Hds IH]; intros v.
  - by exists v.
  - simpl. rewrite (startup_cycle S d v Hd). apply IH.
Qed.

(** X14.  The grid [main] starts with never sheds a load as long as the
    operator only runs cycles.  Whatever [std::rand()] returns and
    whichever [std::sort] the program is built with, after the start-up
    and any number of cycles the three loads are connected, no breaker
    is tripped, and the next cycle reports between 80 and 109 kW of
    power against 55 kW of demand, trips nothing and reconnects
    nothing. *)
Theorem X14_startup_grid_never_sheds (S : StdSort) (d1 d2 : nat -> Z)
    (ds : list (nat -> Z)) :
  0 <= d1 0%nat -> 0 <= d2 0%nat -> Forall (fun d => 0 <= d 0%nat) ds ->
  let g := @cycles Z _ S ds (@main_setup Z _ S d1 d2) in
  loads g = [factory; house; shop] /\
  showBreakers g =
    ["Factory-A: OK"; "House-B: OK"; "HydroStation: OK"; "Shop-C: OK";
     "SolarFarm-A: OK"] /\
  forall d, 0 <= d 0%nat ->
    let r := (@simulate Z _ S d g).2 in
    80 <= totalPower r <= 109 /\ totalDemand r = 55 /\
    trippedLoads r = [] /\ reconnectedLoads r = [] /\
    loads (@simulate Z _ S d g).1 = loads g.
Proof.
  intros H1 H2 Hds g. subst g.
  rewrite (main_setup_startup S d1 d2 H1 H2).
  destruct (startup_cycles S ds (20 + Z.rem (d2 0%nat) 30) Hds) as [v ->].
  split; [done |]. split; [vm_compute; reflexivity |].
  intros d Hd r. subst r. rewrite (startup_cycle S d v Hd). simpl.
  pose proof (Z.rem_bound_pos (d 0%nat) 30 Hd ltac:(lia)).
  repeat split; lia.
Qed.

Lemma X14_witness :
  loads (cycles [draws0; draws0] (main_setup draws0 draws0)) =
    [factory; house; shop].
Proof.
  assert (Hpos : 0 <= draws0 0%nat) by (vm_compute; discriminate).
  assert (Hds : Forall (fun d => 0 <= d 0%nat) [draws0; draws0])
    by (repeat constructor; exact Hpos).
  exact (proj1 (X14_startup_grid_never_sheds keeping_sort draws0 draws0
                  [draws0; draws0] Hpos Hpos Hds)).
Defined.

(** ** One cycle after another *)

Section Settling.
Context `{StdSort}.
Implicit Types (br : BreakerMap) (ls : list (Load.t Z)) (P D : Z).
Implicit Types (g : GridManager Z) (draws : nat -> Z).

Lemma round32_exact (z : Z) : Z.abs z < 2 ^ 24 -> round32 z = z.
Proof. intros Hz. unfold round32. by rewrite (proj2 (Z.ltb_lt _ _) Hz). Qed.

Lemma abs_demand_nonneg ls : 0 <= abs_demand ls.
Proof. induction ls as [| l ls IH]; simpl; lia. Qed.

Lemma exact_live_bound br ls : Z.abs (exact_live br ls) <= abs_demand ls.
Proof.
  induction ls as [| l ls IH]; simpl; [lia |].
  destruct (counted br l); lia.
Qed.

(** The loop over the loads adds without rounding. *)
Lemma sum_demand_exact br ls D :
  Z.abs D + abs_demand ls < 2 ^ 24 ->
  sum_demand D (filter (fun l => counted br l = true) ls) = D + exact_live br ls.
Proof.
  revert D. induction ls as [| l ls IH]; intros D HD; simpl in *.
  { unfold sum_demand. simpl. lia. }
  pose proof (abs_demand_nonneg ls).
  rewrite filter_cons. destruct (decide (counted br l = true)) as [Hc | Hc].
  - rewrite Hc.
    change (sum_demand D (l :: filter (fun l0 => counted br l0 = true) ls))
      with (sum_demand (round32 (D + Load.demand l))
              (filter (fun l0 => counted br l0 = true) ls)).
    rewrite round32_exact by lia. rewrite IH by lia. lia.
  - apply not_true_is_false in Hc. rewrite Hc. rewrite IH by lia. lia.
Qed.

Lemma live_demand_exact br ls :
  abs_demand ls < 2 ^ 24 -> live_demand br ls = exact_live br ls.
Proof.
  intros Hb. unfold live_demand.
  change (@f_zero Z _) with 0. rewrite sum_demand_exact by (simpl; lia). lia.
Qed.

Lemma exact_live_ext br br' ls :
  (forall l, l ∈ ls -> counted br l = counted br' l) ->
  exact_live br ls = exact_live br' ls.
Proof.
  induction ls as [| l ls IH]; intros Hext; [done |]. simpl.
  rewrite (Hext l) by (by left).
  rewrite IH; [done |]. intros l0 Hl0. apply Hext. by right.
Qed.

Lemma exact_live_disconnect br ls i l :
  ls !! i = Some l ->
  exact_live br (alter Load.disconnect i ls) =
    exact_live br ls - (if counted br l then Load.demand l else 0) /\
  abs_demand (alter Load.disconnect i ls) = abs_demand ls.
Proof.
  revert i. induction ls as [| l0 ls IH]; intros i Hi; [done |].
  destruct i as [| i].
  - injection Hi as ->.
    change (alter Load.disconnect 0%nat (l :: ls)) with (Load.disconnect l :: ls).
    simpl. replace (counted br (Load.disconnect l)) with false by done.
    split; lia.
  - change (alter Load.disconnect (S i) (l0 :: ls))
      with (l0 :: alter Load.disconnect i ls).
    destruct (IH i Hi) as [IH1 IH2]. simpl. rewrite IH1, IH2. split; lia.
Qed.

Lemma exact_live_reconnect br ls i l :
  ls !! i = Some l -> Load.connected l = false ->
  is_tripped br (Load.name l) = false ->
  exact_live br (<[i := Load.reconnect l]> ls) = exact_live br ls + Load.demand l /\
  abs_demand (<[i := Load.reconnect l]> ls) = abs_demand ls.
Proof.
  revert i. induction ls as [| l0 ls IH]; intros i Hi Hc Htr; [done |].
  destruct i as [| i].
  - injection Hi as ->.
    change (<[0%nat := Load.reconnect l]> (l :: ls)) with (Load.reconnect l :: ls).
    simpl.
    replace (counted br l) with false
      by (unfold counted, Load.isConnected; by rewrite Hc).
    replace (counted br (Load.reconnect l)) with true
      by (unfold counted, Load.getName; simpl; by rewrite Htr).
    split; lia.
  - change (<[S i := Load.reconnect l]> (l0 :: ls))
      with (l0 :: <[i := Load.reconnect l]> ls).
    destruct (IH i Hi Hc Htr) as [IH1 IH2]. simpl. rewrite IH1, IH2. split; lia.
Qed.

(** Shedding subtracts without rounding. *)
Lemma shed_exact br shed ls :
  NoDup shed ->
  (forall i, i ∈ shed -> exists l, ls !! i = Some l /\ counted br l = true) ->
  abs_demand ls < 2 ^ 24 ->
  sub_all (exact_live br ls) (demand_at ls <$> shed) =
    exact_live br (disconnect_all shed ls) /\
  abs_demand (disconnect_all shed ls) = abs_demand ls.
Proof.
  revert ls. induction shed as [| i shed IH]; intros ls Hnd Hshed Hb; [done |].
  apply NoDup_cons in Hnd as [Hi Hnd].
  destruct (Hshed i) as (l & Hl & Hc); [by left |].
  destruct (exact_live_disconnect br ls i l Hl) as [Hlive Habs].
  rewrite Hc in Hlive.
  change (disconnect_all (i :: shed) ls)
    with (disconnect_all shed (alter Load.disconnect i ls)).
  assert (Hother : forall j, j ∈ shed ->
            alter Load.disconnect i ls !! j = ls !! j).
  { intros j Hj. apply list_lookup_alter_ne. by intros ->. }
  destruct (IH (alter Load.disconnect i ls)) as [IH1 IH2]; [done | | lia |].
  { intros j Hj. rewrite (Hother j Hj). apply Hshed. by right. }
  split; [| lia]. rewrite <- IH1.
  rewrite fmap_cons.
  change (sub_all (exact_live br ls) (demand_at ls i :: (demand_at ls <$> shed)))
    with (sub_all (round32 (exact_live br ls - demand_at ls i))
            (demand_at ls <$> shed)).
  replace (demand_at ls i) with (Load.demand l)
    by (unfold demand_at; by rewrite Hl).
  rewrite <- Hlive.
  pose proof (exact_live_bound br (alter Load.disconnect i ls)).
  rewrite round32_exact by lia.
  f_equal. apply list_fmap_ext. intros ? j Hj. unfold demand_at.
  rewrite Hother; [done |]. by eapply list_elem_of_lookup_2.
Qed.

(** Reconnection adds without rounding. *)
Lemma restore_exact br P cands ls :
  NoDup cands ->
  (forall i, i ∈ cands -> exists l, ls !! i = Some l /\
     Load.connected l = false /\ is_tripped br (Load.name l) = false) ->
  abs_demand ls < 2 ^ 24 ->
  let res := restore_walk P cands ls (exact_live br ls) in
  res.1.2 = exact_live br res.1.1 /\ abs_demand res.1.1 = abs_demand ls.
Proof.
  revert ls. induction cands as [| i cands IH]; intros ls Hnd Hc Hb;
    cbn [restore_walk]; [done |].
  apply NoDup_cons in Hnd as [Hi Hnd].
  destruct (Hc i) as (l & Hl & Hoff & Htr); [by left |].
  assert (Hrest : forall j, j ∈ cands -> exists l0, ls !! j = Some l0 /\
            Load.connected l0 = false /\ is_tripped br (Load.name l0) = false)
    by (intros j Hj; apply Hc; by right).
  rewrite Hl.
  destruct (exact_live_reconnect br ls i l Hl Hoff Htr) as [Hlive Habs].
  pose proof (exact_live_bound br (<[i := Load.reconnect l]> ls)).
  assert (Hadd : f_add (exact_live br ls) (Load.getRawDemand l) =
                 exact_live br (<[i := Load.reconnect l]> ls)).
  { change (f_add (exact_live br ls) (Load.getRawDemand l))
      with (round32 (exact_live br ls + Load.demand l)).
    rewrite <- Hlive. apply round32_exact. lia. }
  rewrite Hadd.
  destruct (f_ge P (exact_live br (<[i := Load.reconnect l]> ls))).
  - destruct (IH (<[i := Load.reconnect l]> ls)) as [IH1 IH2]; [done | | lia |].
    { intros j Hj. rewrite list_lookup_insert_ne by (intros ->; done).
      by apply Hrest. }
    destruct (restore_walk P cands _ _) as [[ls2 D2] log]; simpl in *.
    split; [done | lia].
  - by apply IH.
Qed.

Lemma restore_walk_bound P cands ls D :
  D <= P -> (restore_walk P cands ls D).1.2 <= P.
Proof.
  revert ls D. induction cands as [| i cands IH]; intros ls D HD;
    cbn [restore_walk]; [done |].
  destruct (ls !! i) as [l |]; [| by apply IH].
  destruct (f_ge P (f_add D (Load.getRawDemand l))) eqn:Hge; [| by apply IH].
  specialize (IH (<[i := Load.reconnect l]> ls) (f_add D (Load.getRawDemand l))).
  destruct (restore_walk P cands _ _) as [[ls2 D2] log]; simpl in *.
  apply IH. by apply Z.geb_le in Hge.
Qed.

Lemma cycle_demand_live draws g :
  cycle_demand draws g = live_demand (breakers g) (loads g).
Proof.
  unfold cycle_demand, live_demand.
  apply load_pass_sum, source_pass_touched.
Qed.

(** X15.  One cycle settles the balance, as long as the demands are
    integers whose magnitudes add up to less than 2^24 kW, so that
    binary32 adds and subtracts them without rounding.  From such a
    state, in which load names are distinct and no connected load has a
    tripped breaker, the demand the next cycle reports is the final
    demand of this one, and as long as the power reported has not
    dropped the next cycle sheds nothing.  (Beyond that range it fails:
    [settling_needs_exact_sums].) *)
Theorem X15_one_cycle_settles_the_balance d1 d2 g :
  NoDup (Load.name <$> loads g) -> no_contradiction g ->
  abs_demand (loads g) < 2 ^ 24 ->
  let g1 := (simulate d1 g).1 in
  let r1 := (simulate d1 g).2 in
  let r2 := (simulate d2 g1).2 in
  totalDemand r2 = finalDemand r1 /\
  (totalPower r1 <= totalPower r2 -> trippedLoads r2 = []).
Proof.
  intros Hnames Hnc Hb g1 r1 r2. subst r2.
  destruct (simulate_totals d2 g1) as [-> ->].
  rewrite (cycle_demand_live d2 g1).
  assert (Hcounted : forall l, l ∈ loads g ->
            counted (breakers g) l = Load.connected l).
  { intros l Hl. unfold counted, Load.isConnected, Load.getName.
    destruct (Load.connected l) eqn:Hc; [| done]. by rewrite (Hnc l Hl Hc). }
  assert (HD1 : cycle_demand d1 g = exact_live (breakers g) (loads g))
    by (by rewrite cycle_demand_live, live_demand_exact).
  destruct (f_lt (cycle_power d1 g) (cycle_demand d1 g)) eqn:Hlt.
  - destruct (shed_walk_spec (cycle_power d1 g) (shed_candidates (loads g))
                (loads g) (cycle_breakers d1 g) (cycle_demand d1 g))
      as (shed & rest & Hstop & Hwalk).
    { intros i [l [Hl _]]%shed_candidates_elem. by eapply lookup_lt_Some. }
    subst g1 r1. rewrite (simulate_deficit d1 g Hlt _ _ _ _ Hwalk). simpl.
    pose proof (shed_candidates_NoDup (loads g)) as Hnd.
    rewrite (stop_split _ _ _ _ _ _ Hstop) in Hnd.
    apply NoDup_app in Hnd as (Hnd & Hdisj & _).
    assert (Hshed : forall i, i ∈ shed ->
              exists l, loads g !! i = Some l /\ Load.connected l = true).
    { intros i Hi. apply shed_candidates_elem.
      rewrite (stop_split _ _ _ _ _ _ Hstop). apply elem_of_app. by left. }
    destruct (shed_exact (breakers g) shed (loads g) Hnd) as [Hsub Habs];
      [| done |].
    { intros i Hi. destruct (Hshed i Hi) as (l & Hl & Hc).
      exists l. split; [done |].
      rewrite Hcounted; [done | by eapply list_elem_of_lookup_2]. }
    assert (Hlive : live_demand
                      (trip_all (name_at (loads g) <$> shed) (cycle_breakers d1 g))
                      (disconnect_all shed (loads g)) =
                    sub_all (cycle_demand d1 g) (demand_at (loads g) <$> shed)).
    { rewrite HD1, Hsub, live_demand_exact by lia.
      apply exact_live_ext. intros l' Hl'.
      apply list_elem_of_lookup in Hl' as [j Hj].
      rewrite disconnect_all_lookup in Hj.
      destruct (decide (j ∈ shed)) as [Hin | Hout].
      - destruct (loads g !! j) as [l |]; [| done]. by injection Hj as <-.
      - unfold counted. destruct (Load.isConnected l') eqn:Hc; [| done].
        f_equal. f_equal. unfold is_tripped. f_equal.
        rewrite trip_all_notin.
        + apply only_touched_get, cycle_breakers_touched.
        + intros (i & Hname & Hi)%list_elem_of_fmap.
          destruct (Hshed i Hi) as (l & Hl & _).
          unfold name_at in Hname. rewrite Hl in Hname.
          assert (i = j); [| by subst].
          eapply (NoDup_lookup _ i j (Load.name l) Hnames);
            rewrite list_lookup_fmap; [by rewrite Hl |].
          rewrite Hj. simpl. f_equal. exact Hname. }
    split; [done |]. intros Hpow.
    destruct (simulate_totals d2
                (mkGrid (cycle_sources d1 g) (disconnect_all shed (loads g))
                   (trip_all (name_at (loads g) <$> shed) (cycle_breakers d1 g))
                   (faults g))) as [HP2 HD2].
    set (g1 := mkGrid (cycle_sources d1 g) (disconnect_all shed (loads g))
                 (trip_all (name_at (loads g) <$> shed) (cycle_breakers d1 g))
                 (faults g)) in *.
    destruct (f_lt (cycle_power d2 g1) (cycle_demand d2 g1)) eqn:Hlt2.
    + destruct rest as [| j rest].
      * assert (Hnone : shed_candidates (loads g1) = []).
        { apply elem_of_nil_inv. intros j (l' & Hj & Hc)%shed_candidates_elem.
          simpl in Hj. rewrite disconnect_all_lookup in Hj.
          destruct (decide (j ∈ shed)) as [Hin | Hout].
          - destruct (loads g !! j) as [l |]; [| done]. by injection Hj as <-.
          - apply Hout. rewrite <- (app_nil_r shed).
            rewrite <- (stop_split _ _ _ _ _ _ Hstop).
            apply shed_candidates_elem. eauto. }
        rewrite (simulate_deficit d2 g1 Hlt2 (loads g1) (cycle_breakers d2 g1)
                   (cycle_demand d2 g1) []); [done |].
        by rewrite Hnone.
      * exfalso. pose proof (stop_break _ _ _ _ _ _ Hstop ltac:(done)) as Hbrk.
        apply Z.geb_le in Hbrk. apply Z.ltb_lt in Hlt2.
        rewrite (cycle_demand_live d2 g1) in Hlt2.
        change (loads g1) with (disconnect_all shed (loads g)) in Hlt2.
        change (breakers g1)
          with (trip_all (name_at (loads g) <$> shed) (cycle_breakers d1 g))
          in Hlt2.
        rewrite Hlive in Hlt2. simpl in Hpow. lia.
    + destruct (restore_walk (cycle_power d2 g1)
                  (restore_candidates (loads g1) (cycle_breakers d2 g1))
                  (loads g1) (cycle_demand d2 g1)) as [[ls3 D3] log] eqn:Hw.
      by rewrite (simulate_surplus d2 g1 Hlt2 _ _ _ Hw).
  - pose proof (restore_exact (breakers g) (cycle_power d1 g)
                  (restore_candidates (loads g) (cycle_breakers d1 g))
                  (loads g) (restore_candidates_NoDup _ _)) as Hexact.
    pose proof (restore_walk_bound (cycle_power d1 g)
                  (restore_candidates (loads g) (cycle_breakers d1 g))
                  (loads g) (cycle_demand d1 g)
                  ltac:(by apply Z.ltb_ge in Hlt)) as Hbound.
    rewrite <- HD1 in Hexact.
    destruct (restore_walk (cycle_power d1 g)
                (restore_candidates (loads g) (cycle_breakers d1 g))
                (loads g) (cycle_demand d1 g)) as [[ls3 D3] log] eqn:Hw.
    simpl in Hexact, Hbound.
    destruct Hexact as [HD3 Habs]; [| done |].
    { intros i (l & Hl & Hoff & Htr)%restore_candidates_elem.
      exists l. split; [done |]. split; [done |].
      by rewrite <- (only_touched_tripped _ _ _ (cycle_breakers_touched d1 g)). }
    subst g1 r1. rewrite (simulate_surplus d1 g Hlt _ _ _ Hw). simpl.
    set (g1 := mkGrid (cycle_sources d1 g) ls3
                 (collect_disconnected 0%nat (loads g) (cycle_breakers d1 g)).2
                 (faults g)).
    assert (Hnext : live_demand (breakers g1) ls3 = D3).
    { rewrite live_demand_exact by lia. rewrite HD3.
      apply exact_live_ext. intros l _. unfold counted. f_equal. f_equal.
      apply only_touched_tripped, surplus_breakers_touched. }
    split; [done |]. intros Hpow.
    destruct (f_lt (cycle_power d2 g1) (cycle_demand d2 g1)) eqn:Hlt2.
    + exfalso. apply Z.ltb_lt in Hlt2.
      rewrite (cycle_demand_live d2 g1) in Hlt2.
      change (loads g1) with ls3 in Hlt2. rewrite Hnext in Hlt2.
      simpl in Hpow. lia.
    + destruct (restore_walk (cycle_power d2 g1)
                  (restore_candidates (loads g1) (cycle_breakers d2 g1))
                  (loads g1) (cycle_demand d2 g1)) as [[ls4 D4] log4] eqn:Hw2.
      by rewrite (simulate_surplus d2 g1 Hlt2 _ _ _ Hw2).
Qed.
End Settling.

Lemma X15_witness :
  let g := inject_at demo_grid "HydroStation" in
  totalDemand (simulate draws0 (simulate draws0 g).1).2 =
  finalDemand (simulate draws0 g).2.
Proof.
  intros g.
  assert (Hnames : NoDup (Load.name <$> loads g))
    by (apply (bool_decide_unpack _); vm_compute; exact I).
  assert (Hnc : no_contradiction g).
  { intros l Hl _. revert l Hl. apply Forall_forall.
    repeat constructor. }
  assert (Hb : abs_demand (loads g) < 2 ^ 24) by (vm_compute; reflexivity).
  exact (proj1 (X15_one_cycle_settles_the_balance draws0 draws0 g Hnames Hnc Hb)).
Defined.

(** Where binary32 rounds, one cycle does not settle the balance.  On
    [rounding_grid] the loop over the loads adds 1 kW to 2^24 kW twice
    and gets 2^24 each time; the cycle sheds L2 and ends with a demand of
    16777215 kW; the next cycle reports 2^24 kW again and, with the
    power as it was, sheds L1. *)
Lemma settling_needs_exact_sums :
  let g := rounding_grid in
  let r1 := (simulate draws0 g).2 in
  let r2 := (simulate draws0 (simulate draws0 g).1).2 in
  abs_demand (loads g) = 2 ^ 24 + 2 /\
  totalPower r1 = 16777215 /\ totalDemand r1 = 16777216 /\
  trippedLoads r1 = ["L2"] /\ finalDemand r1 = 16777215 /\
  totalPower r2 = 16777215 /\ totalDemand r2 = 16777216 /\
  trippedLoads r2 = ["L1"].
Proof. repeat split; vm_compute; reflexivity. Qed.
